(** * Mini Math Compiler: lexer, parser and semantic analyser

    A shallow embedding of the compiler front end, [lexer.ts], [parser.ts],
    [semantic.ts] and [compiler.ts] of [src/compiler], of [validation.ts]
    and [prettyPrint.ts] beside them, and of the helper [evaluate] of
    [parser.test.ts], with the properties of their specification stated and
    proved over it.

    Conventions of the embedding:
    - a JavaScript string is a [string]; one character is one [ascii], a
      code unit below 256;
    - a JavaScript [number] is kept abstract (class [JsNumber]): the code
      only obtains numbers from [parseFloat] and stores them, and the
      printer turns them into text (class [JsNumberText]);
    - arrays that are only pushed to are lists extended at the end;
    - the [Map] of the analyser is a [gmap] indexed by strings;
    - the parser is written in a monad of its state, with the exceptions it
      throws and catches;
    - objects have no identity in the embedding of [semantic.ts] on trees;
      module [Store] is the same code on a store of objects, for the
      properties that are about identity;
    - a [while] loop, or a recursion that is not structural, is a [Fixpoint]
      over a fuel argument that answers [None] (or [OutOfFuel]) when the
      fuel is exhausted; [tokenize] and [parse] supply a fuel computed from
      their input and are proved never to run out, and the analyser on the
      store is proved to return once its fuel is the depth of the tree. *)

From Stdlib Require Import String Ascii QArith.
From stdpp Require Import base list strings gmap.
Close Scope Q_scope.

(** ** Numbers *)

(** What the compiler needs from JavaScript numbers. *)
Class JsNumber := {
  number : Type;
  parseFloat : string → number;
}.

(** ** types.ts *)

Module Types.

Inductive TokenType :=
  | INTEGER | FLOAT | IDENTIFIER
  | PLUS | MINUS | STAR | SLASH | CARET
  | LPAREN | RPAREN | EQUALS
  | EOF | ERROR.

#[global] Instance TokenType_eq_dec : EqDecision TokenType.
Proof. solve_decision. Defined.

(** The thirteen members of the union type [TokenType]. *)
Definition allTokenTypes : list TokenType :=
  [INTEGER; FLOAT; IDENTIFIER; PLUS; MINUS; STAR; SLASH; CARET;
   LPAREN; RPAREN; EQUALS; EOF; ERROR].

Record Position := mkPosition { line : nat; column : nat }.

Record Token `{JsNumber} := mkToken {
  type : TokenType;
  lexeme : string;
  position : Position;
  literal : option number;
}.
Arguments mkToken {_} _ _ _ _.

Inductive DataType := Integer | Float.

#[global] Instance DataType_eq_dec : EqDecision DataType.
Proof. solve_decision. Defined.

(** The five shapes of [ASTNode], named after their interfaces.  [operator]
    is the lexeme of the operator token, as the parser stores it;
    [resolvedType] is the optional field. *)
Inductive ASTNode `{JsNumber} :=
  | AssignmentNode (name : string) (value : ASTNode) (pos : Position)
  | BinaryExprNode (operator : string) (left right : ASTNode)
                   (pos : Position) (resolvedType : option DataType)
  | UnaryExprNode (operator : string) (operand : ASTNode) (pos : Position)
                  (resolvedType : option DataType)
  | LiteralNode (value : number) (dataType : DataType) (pos : Position)
                (resolvedType : option DataType)
  | VariableNode (name : string) (pos : Position)
                 (resolvedType : option DataType).
Arguments AssignmentNode {_} _ _ _.
Arguments BinaryExprNode {_} _ _ _ _ _.
Arguments UnaryExprNode {_} _ _ _ _.
Arguments LiteralNode {_} _ _ _ _.
Arguments VariableNode {_} _ _ _.

Record SymbolEntry := mkSymbolEntry {
  entryName : string;
  entryType : DataType;
  definedAt : Position;
}.

Inductive CompilerPhase := lexical | syntax | semantic.

Record CompilerError := mkCompilerError {
  phase : CompilerPhase;
  message : string;
  errorPosition : Position;
  expected : option string;
  actual : option string;
  variableName : option string;
}.

(** The string a [TokenType] is at run time. *)
Definition tokenTypeName (t : TokenType) : string :=
  match t with
  | INTEGER => "INTEGER" | FLOAT => "FLOAT" | IDENTIFIER => "IDENTIFIER"
  | PLUS => "PLUS" | MINUS => "MINUS" | STAR => "STAR" | SLASH => "SLASH"
  | CARET => "CARET" | LPAREN => "LPAREN" | RPAREN => "RPAREN"
  | EQUALS => "EQUALS" | EOF => "EOF" | ERROR => "ERROR"
  end.

End Types.

(** ** lexer.ts *)

Module Lexer.
Import Types.

Section WithNumber.
Context `{JsNumber}.

(** The mutable fields of [class Lexer]; [source] never changes and is a
    parameter of every method. *)
Record Lexer := mkLexer {
  tokens : list Token;
  start : nat;
  current : nat;
  line : nat;
  column : nat;
  startColumn : nat;
}.

(** [String.prototype.substring]: the two indices are put in order and the
    result is clipped to the string. *)
Definition jsSubstring (s : string) (a b : nat) : string :=
  String.substring (a `min` b) ((a `max` b) - (a `min` b)) s.

Definition isAtEnd (source : string) (lx : Lexer) : bool :=
  bool_decide (String.length source ≤ current lx).

(** [advance] returns [source[current]], which is [undefined] ([None]) out of
    range, and moves one character on. *)
Definition advance (source : string) (lx : Lexer) : option ascii * Lexer :=
  (String.get (current lx) source,
   mkLexer (tokens lx) (start lx) (S (current lx)) (line lx)
           (S (column lx)) (startColumn lx)).

Definition peek (source : string) (lx : Lexer) : ascii :=
  if isAtEnd source lx then "000"%char
  else default "000"%char (String.get (current lx) source).

Definition peekNext (source : string) (lx : Lexer) : ascii :=
  if bool_decide (String.length source ≤ current lx + 1) then "000"%char
  else default "000"%char (String.get (current lx + 1) source).

Definition isDigit (c : ascii) : bool :=
  (("0" <=? c) && (c <=? "9"))%char.

Definition isAlpha (c : ascii) : bool :=
  ((("a" <=? c) && (c <=? "z")) || (("A" <=? c) && (c <=? "Z"))
   || Ascii.eqb c "_")%char.

Definition isAlphaNumeric (c : ascii) : bool := isAlpha c || isDigit c.

Definition getPosition (lx : Lexer) : Position :=
  mkPosition (line lx) (startColumn lx).

Definition pushToken (t : Token) (lx : Lexer) : Lexer :=
  mkLexer (tokens lx ++ [t]) (start lx) (current lx) (line lx) (column lx)
          (startColumn lx).

Definition addToken (source : string) (ty : TokenType)
    (lit : option number) (lx : Lexer) : Lexer :=
  pushToken
    (mkToken ty (jsSubstring source (start lx) (current lx)) (getPosition lx)
             lit)
    lx.

Definition addErrorToken (source : string) (lx : Lexer) : Lexer :=
  pushToken
    (mkToken ERROR (jsSubstring source (start lx) (current lx))
             (getPosition lx) None)
    lx.

(** [while (p(this.peek())) this.advance();] *)
Fixpoint advanceWhile (p : ascii → bool) (source : string) (fuel : nat)
    (lx : Lexer) : option Lexer :=
  match fuel with
  | O => None
  | S fuel' =>
      if p (peek source lx)
      then advanceWhile p source fuel' (advance source lx).2
      else Some lx
  end.

(** Fuel that lets every loop of the lexer run over the whole source. *)
Definition scanFuel (source : string) : nat := S (String.length source).

(** The method [number] of the lexer. *)
Definition scanNumber (source : string) (lx : Lexer) : option Lexer :=
  lx1 ← advanceWhile isDigit source (scanFuel source) lx;
  if Ascii.eqb (peek source lx1) "."%char && isDigit (peekNext source lx1)
  then
    lx2 ← advanceWhile isDigit source (scanFuel source)
            (advance source lx1).2;
    Some (addToken source FLOAT
            (Some (parseFloat (jsSubstring source (start lx2) (current lx2))))
            lx2)
  else
    Some (addToken source INTEGER
            (Some (parseFloat (jsSubstring source (start lx1) (current lx1))))
            lx1).

Definition identifier (source : string) (lx : Lexer) : option Lexer :=
  lx1 ← advanceWhile isAlphaNumeric source (scanFuel source) lx;
  Some (addToken source IDENTIFIER None lx1).

Definition newline (lx : Lexer) : Lexer :=
  mkLexer (tokens lx) (start lx) (current lx) (S (line lx)) 1
          (startColumn lx).

(** An [undefined] character compares false with everything, which is the
    last case. *)
Definition scanToken (source : string) (lx : Lexer) : option Lexer :=
  let '(c, lx) := advance source lx in
  match c with
  | Some "+"%char => Some (addToken source PLUS None lx)
  | Some "-"%char => Some (addToken source MINUS None lx)
  | Some "*"%char => Some (addToken source STAR None lx)
  | Some "/"%char => Some (addToken source SLASH None lx)
  | Some "^"%char => Some (addToken source CARET None lx)
  | Some "("%char => Some (addToken source LPAREN None lx)
  | Some ")"%char => Some (addToken source RPAREN None lx)
  | Some "="%char => Some (addToken source EQUALS None lx)
  | Some " "%char | Some "013"%char | Some "009"%char => Some lx
  | Some "010"%char => Some (newline lx)
  | Some c =>
      if isDigit c then scanNumber source lx
      else if isAlpha c then identifier source lx
      else Some (addErrorToken source lx)
  | None => Some (addErrorToken source lx)
  end.

Definition beginToken (lx : Lexer) : Lexer :=
  mkLexer (tokens lx) (current lx) (current lx) (line lx) (column lx)
          (column lx).

(** The main loop of [tokenize]. *)
Fixpoint scanLoop (source : string) (fuel : nat) (lx : Lexer)
    : option Lexer :=
  match fuel with
  | O => None
  | S fuel' =>
      if isAtEnd source lx then Some lx
      else lx' ← scanToken source (beginToken lx); scanLoop source fuel' lx'
  end.

Definition eofToken (lx : Lexer) : Token :=
  mkToken EOF "" (mkPosition (line lx) (column lx)) None.

Definition initial : Lexer := mkLexer [] 0 0 1 1 1.

Definition tokenize (source : string) : option (list Token) :=
  lx ← scanLoop source (scanFuel source) initial;
  Some (tokens lx ++ [eofToken lx]).

End WithNumber.
End Lexer.

(** ** parser.ts *)

Module ParseResult.
Record t `{JsNumber} := mk {
  ast : list Types.ASTNode;
  errors : list Types.CompilerError;
}.
Arguments mk {_} _ _.
End ParseResult.

Module Parser.
Import Types.

(** The mutable fields of [class Parser]; [tokens] never changes. *)
Record Parser := mkParser {
  current : nat;
  errors : list CompilerError;
}.

(** What leaves a method by [throw]: the [Error] the parser throws itself
    after recording a syntax error, or the [TypeError] of reading a property
    of [undefined] (a token index outside the array). *)
Inductive Exception :=
  | Error (message : string)
  | TypeError.

Inductive Result (A : Type) :=
  | Ok (a : A) (p : Parser)
  | Thrown (e : Exception) (p : Parser)
  | OutOfFuel.
Arguments Ok {A} a p.
Arguments Thrown {A} e p.
Arguments OutOfFuel {A}.

Definition M (A : Type) : Type := Parser → Result A.

Definition ret {A} (a : A) : M A := λ p, Ok a p.

Definition bind {A B} (m : M A) (k : A → M B) : M B :=
  λ p, match m p with
       | Ok a p' => k a p'
       | Thrown e p' => Thrown e p'
       | OutOfFuel => OutOfFuel
       end.

#[local] Notation "x <- m ;; k" := (bind m (λ x, k))
  (at level 100, m at next level, right associativity).
#[local] Notation "m ;; k" := (bind m (λ _, k))
  (at level 100, right associativity).

Definition throw {A} (e : Exception) : M A := λ p, Thrown e p.

(** Reading a property of a value that may be [undefined]. *)
Definition defined {A} (o : option A) : M A :=
  match o with
  | Some a => ret a
  | None => throw TypeError
  end.

(** [this.current++] *)
Definition stepCursor : M () :=
  λ p, Ok () (mkParser (S (current p)) (errors p)).

Section WithNumber.
Context `{JsNumber}.

Definition peek (tokens : list Token) : M (option Token) :=
  λ p, Ok (tokens !! current p) p.

Definition previous (tokens : list Token) : M (option Token) :=
  λ p, Ok (match current p with
           | O => None
           | S i => tokens !! i
           end) p.

Definition isAtEnd (tokens : list Token) : M bool :=
  t <- peek tokens;;
  t <- defined t;;
  ret (bool_decide (type t = EOF)).

Definition advance (tokens : list Token) : M (option Token) :=
  atEnd <- isAtEnd tokens;;
  (if negb atEnd then stepCursor else ret ());;
  previous tokens.

Definition check (tokens : list Token) (ty : TokenType) : M bool :=
  atEnd <- isAtEnd tokens;;
  if atEnd then ret false
  else
    t <- peek tokens;;
    t <- defined t;;
    ret (bool_decide (type t = ty)).

(** [match(...types)]. *)
Fixpoint matchAny (tokens : list Token) (types : list TokenType) : M bool :=
  match types with
  | [] => ret false
  | ty :: types' =>
      found <- check tokens ty;;
      if found then advance tokens;; ret true
      else matchAny tokens types'
  end.

Definition addError (message : string) (position : Position)
    (expected actual : option string) : M () :=
  λ p, Ok () (mkParser (current p)
                (errors p ++
                 [mkCompilerError syntax message position expected actual
                                  None])).

Definition expect (tokens : list Token) (ty : TokenType) (message : string)
    : M (option Token) :=
  found <- check tokens ty;;
  if found then advance tokens
  else
    t <- peek tokens;;
    t <- defined t;;
    addError message (position t) (Some (tokenTypeName ty))
             (Some (tokenTypeName (type t)));;
    throw (Error message).

Definition lookAhead (tokens : list Token) (n : nat) : M (option Token) :=
  λ p, Ok (if bool_decide (current p + n < length tokens)
           then tokens !! (current p + n) else None) p.

Definition createLiteralNode (token : Token) (dataType : DataType)
    : ASTNode :=
  LiteralNode (default (parseFloat (lexeme token)) (literal token)) dataType
              (position token) None.

Definition createVariableNode (token : Token) : ASTNode :=
  VariableNode (lexeme token) (position token) None.

Definition makeBinary (opToken : Token) (left right : ASTNode) : ASTNode :=
  BinaryExprNode (lexeme opToken) left right (position opToken) None.

(** The expression grammar.  Every call takes one unit of fuel; the two
    [while] loops are [additiveLoop] and [multiplicativeLoop]. *)
Fixpoint parseExpression (tokens : list Token) (fuel : nat) : M ASTNode :=
  match fuel with
  | O => λ _, OutOfFuel
  | S fuel' => parseAdditive tokens fuel'
  end

with parseAdditive (tokens : list Token) (fuel : nat) : M ASTNode :=
  match fuel with
  | O => λ _, OutOfFuel
  | S fuel' =>
      left <- parseMultiplicative tokens fuel';;
      additiveLoop tokens fuel' left
  end

with additiveLoop (tokens : list Token) (fuel : nat) (left : ASTNode)
    : M ASTNode :=
  match fuel with
  | O => λ _, OutOfFuel
  | S fuel' =>
      found <- matchAny tokens [PLUS; MINUS];;
      if found then
        op <- previous tokens;;
        op <- defined op;;
        right <- parseMultiplicative tokens fuel';;
        additiveLoop tokens fuel' (makeBinary op left right)
      else ret left
  end

with parseMultiplicative (tokens : list Token) (fuel : nat) : M ASTNode :=
  match fuel with
  | O => λ _, OutOfFuel
  | S fuel' =>
      left <- parsePower tokens fuel';;
      multiplicativeLoop tokens fuel' left
  end

with multiplicativeLoop (tokens : list Token) (fuel : nat) (left : ASTNode)
    : M ASTNode :=
  match fuel with
  | O => λ _, OutOfFuel
  | S fuel' =>
      found <- matchAny tokens [STAR; SLASH];;
      if found then
        op <- previous tokens;;
        op <- defined op;;
        right <- parsePower tokens fuel';;
        multiplicativeLoop tokens fuel' (makeBinary op left right)
      else ret left
  end

with parsePower (tokens : list Token) (fuel : nat) : M ASTNode :=
  match fuel with
  | O => λ _, OutOfFuel
  | S fuel' =>
      left <- parseUnary tokens fuel';;
      found <- matchAny tokens [CARET];;
      if found then
        op <- previous tokens;;
        op <- defined op;;
        right <- parsePower tokens fuel';;
        ret (BinaryExprNode "^" left right (position op) None)
      else ret left
  end

with parseUnary (tokens : list Token) (fuel : nat) : M ASTNode :=
  match fuel with
  | O => λ _, OutOfFuel
  | S fuel' =>
      found <- matchAny tokens [MINUS; PLUS];;
      if found then
        op <- previous tokens;;
        op <- defined op;;
        operand <- parseUnary tokens fuel';;
        ret (UnaryExprNode (lexeme op) operand (position op) None)
      else parsePrimary tokens fuel'
  end

with parsePrimary (tokens : list Token) (fuel : nat) : M ASTNode :=
  match fuel with
  | O => λ _, OutOfFuel
  | S fuel' =>
      isInteger <- matchAny tokens [INTEGER];;
      if isInteger then
        token <- previous tokens;;
        token <- defined token;;
        ret (createLiteralNode token Integer)
      else
      isFloat <- matchAny tokens [FLOAT];;
      if isFloat then
        token <- previous tokens;;
        token <- defined token;;
        ret (createLiteralNode token Float)
      else
      isIdentifier <- matchAny tokens [IDENTIFIER];;
      if isIdentifier then
        token <- previous tokens;;
        token <- defined token;;
        ret (createVariableNode token)
      else
      isParen <- matchAny tokens [LPAREN];;
      if isParen then
        expr <- parseExpression tokens fuel';;
        expect tokens RPAREN "Expected ')' after expression";;
        ret expr
      else
        token <- peek tokens;;
        token <- defined token;;
        addError "Expected expression" (position token) (Some "expression")
                 (Some (tokenTypeName (type token)));;
        throw (Error "Expected expression")
  end.

Definition parseAssignment (tokens : list Token) (fuel : nat) : M ASTNode :=
  nameToken <- advance tokens;;
  nameToken <- defined nameToken;;
  advance tokens;;
  value <- parseExpression tokens fuel;;
  ret (AssignmentNode (lexeme nameToken) value (position nameToken)).

(** [while (this.check('ERROR')) this.advance();] *)
Fixpoint skipErrors (tokens : list Token) (fuel : nat) : M () :=
  match fuel with
  | O => λ _, OutOfFuel
  | S fuel' =>
      isError <- check tokens ERROR;;
      if isError then advance tokens;; skipErrors tokens fuel'
      else ret ()
  end.

(** [lookAhead(1)?.type === 'EQUALS'] *)
Definition nextIsEquals (tokens : list Token) : M bool :=
  t <- lookAhead tokens 1;;
  ret (match t with
       | Some t => bool_decide (type t = EQUALS)
       | None => false
       end).

(** [parseStatement]; [None] is the [null] it returns at the end of input. *)
Definition parseStatement (tokens : list Token) (fuel : nat)
    : M (option ASTNode) :=
  skipErrors tokens fuel;;
  atEnd <- isAtEnd tokens;;
  if atEnd then ret None
  else
    isIdentifier <- check tokens IDENTIFIER;;
    isAssignment <- (if isIdentifier then nextIsEquals tokens
                     else ret false);;
    if isAssignment then
      stmt <- parseAssignment tokens fuel;; ret (Some stmt)
    else
      stmt <- parseExpression tokens fuel;; ret (Some stmt).

(** How a call of [parse] ends: it returns, or an exception escapes it. *)
Inductive Outcome :=
  | Returns (r : ParseResult.t)
  | Raises (e : Exception)
  | Unfinished.

(** The loop of [parse]: the test [!this.isAtEnd()] is outside the [try],
    the statement inside it, and [catch] leaves the loop. *)
Fixpoint parseLoop (tokens : list Token) (fuel loopFuel : nat)
    (statements : list ASTNode) (p : Parser) : Outcome :=
  match loopFuel with
  | O => Unfinished
  | S loopFuel' =>
      match isAtEnd tokens p with
      | Ok true p' => Returns (ParseResult.mk statements (errors p'))
      | Ok false p' =>
          match parseStatement tokens fuel p' with
          | Ok (Some stmt) p'' =>
              parseLoop tokens fuel loopFuel' (statements ++ [stmt]) p''
          | Ok None p'' => parseLoop tokens fuel loopFuel' statements p''
          | Thrown _ p'' => Returns (ParseResult.mk statements (errors p''))
          | OutOfFuel => Unfinished
          end
      | Thrown e _ => Raises e
      | OutOfFuel => Unfinished
      end
  end.

(** Fuel for a token array: eight nested calls per token at most. *)
Definition parseFuel (tokens : list Token) : nat := 8 * length tokens + 8.

Definition parse (tokens : list Token) : Outcome :=
  parseLoop tokens (parseFuel tokens) (parseFuel tokens) [] (mkParser 0 []).

End WithNumber.
End Parser.

(** ** semantic.ts *)

Module SemanticResult.
Record t `{JsNumber} := mk {
  symbolTable : gmap string Types.SymbolEntry;
  annotatedAst : list Types.ASTNode;
  errors : list Types.CompilerError;
}.
Arguments mk {_} _ _ _.
End SemanticResult.

Module Semantic.
Import Types.

Section WithNumber.
Context `{JsNumber}.

(** The mutable fields of [class SemanticAnalyzer]. *)
Record SemanticAnalyzer := mkAnalyzer {
  symbolTable : gmap string SymbolEntry;
  errors : list CompilerError;
}.

Fixpoint getResolvedType (node : ASTNode) : option DataType :=
  match node with
  | AssignmentNode _ value _ => getResolvedType value
  | BinaryExprNode _ _ _ _ resolvedType => resolvedType
  | UnaryExprNode _ _ _ resolvedType => resolvedType
  | LiteralNode _ _ _ resolvedType => resolvedType
  | VariableNode _ _ resolvedType => resolvedType
  end.

Definition addError (message : string) (position : Position)
    (variableName : option string) (a : SemanticAnalyzer)
    : SemanticAnalyzer :=
  mkAnalyzer (symbolTable a)
    (errors a ++
     [mkCompilerError semantic message position None None variableName]).

(** The methods that call [analyzeNode] take it as their first argument;
    [analyzeNode] below ties the knot. *)
Definition analyzeAssignment
    (analyzeNode : ASTNode → SemanticAnalyzer → ASTNode * SemanticAnalyzer)
    (name : string) (value : ASTNode) (pos : Position) (a : SemanticAnalyzer)
    : ASTNode * SemanticAnalyzer :=
  let '(annotatedValue, a) := analyzeNode value a in
  let valueType := getResolvedType annotatedValue in
  let a :=
    match valueType with
    | Some valueType =>
        mkAnalyzer
          (<[name := mkSymbolEntry name valueType pos]> (symbolTable a))
          (errors a)
    | None => a
    end in
  (AssignmentNode name annotatedValue pos, a).

(** The promotion rule applied once both operand types are known. *)
Definition binaryResultType (operator : string) (leftType rightType : DataType)
    : DataType :=
  if bool_decide (operator = "/") then Float
  else if bool_decide (leftType = Float) || bool_decide (rightType = Float)
       then Float
       else Integer.

Definition analyzeBinaryExpr
    (analyzeNode : ASTNode → SemanticAnalyzer → ASTNode * SemanticAnalyzer)
    (operator : string) (left right : ASTNode) (pos : Position)
    (a : SemanticAnalyzer) : ASTNode * SemanticAnalyzer :=
  let '(annotatedLeft, a) := analyzeNode left a in
  let '(annotatedRight, a) := analyzeNode right a in
  let leftType := getResolvedType annotatedLeft in
  let rightType := getResolvedType annotatedRight in
  let resolvedType :=
    match leftType, rightType with
    | Some leftType, Some rightType =>
        Some (binaryResultType operator leftType rightType)
    | _, _ => None
    end in
  (BinaryExprNode operator annotatedLeft annotatedRight pos resolvedType, a).

Definition analyzeUnaryExpr
    (analyzeNode : ASTNode → SemanticAnalyzer → ASTNode * SemanticAnalyzer)
    (operator : string) (operand : ASTNode) (pos : Position)
    (a : SemanticAnalyzer) : ASTNode * SemanticAnalyzer :=
  let '(annotatedOperand, a) := analyzeNode operand a in
  let operandType := getResolvedType annotatedOperand in
  (UnaryExprNode operator annotatedOperand pos operandType, a).

Definition analyzeLiteral (value : number) (dataType : DataType)
    (pos : Position) (a : SemanticAnalyzer) : ASTNode * SemanticAnalyzer :=
  (LiteralNode value dataType pos (Some dataType), a).

Definition undefinedVariable (name : string) : string :=
  "Undefined variable '" +:+ name +:+ "'".

(** An undefined name returns [node] itself, whatever it carried. *)
Definition analyzeVariable (name : string) (pos : Position)
    (resolvedType : option DataType) (a : SemanticAnalyzer)
    : ASTNode * SemanticAnalyzer :=
  match symbolTable a !! name with
  | None =>
      (VariableNode name pos resolvedType,
       addError (undefinedVariable name) pos (Some name) a)
  | Some entry => (VariableNode name pos (Some (entryType entry)), a)
  end.

Fixpoint analyzeNode (node : ASTNode) (a : SemanticAnalyzer)
    : ASTNode * SemanticAnalyzer :=
  match node with
  | AssignmentNode name value pos =>
      analyzeAssignment analyzeNode name value pos a
  | BinaryExprNode operator leftNode rightNode pos _ =>
      analyzeBinaryExpr analyzeNode operator leftNode rightNode pos a
  | UnaryExprNode operator operand pos _ =>
      analyzeUnaryExpr analyzeNode operator operand pos a
  | LiteralNode value dataType pos _ => analyzeLiteral value dataType pos a
  | VariableNode name pos resolvedType =>
      analyzeVariable name pos resolvedType a
  end.

(** The [for] loop of [analyze]. *)
Fixpoint analyzeAll (ast annotatedAst : list ASTNode) (a : SemanticAnalyzer)
    : list ASTNode * SemanticAnalyzer :=
  match ast with
  | [] => (annotatedAst, a)
  | node :: ast' =>
      let '(annotated, a) := analyzeNode node a in
      analyzeAll ast' (annotatedAst ++ [annotated]) a
  end.

Definition analyze (ast : list ASTNode) : SemanticResult.t :=
  let '(annotatedAst, a) := analyzeAll ast [] (mkAnalyzer ∅ []) in
  SemanticResult.mk (symbolTable a) annotatedAst (errors a).

End WithNumber.
End Semantic.

(** ** semantic.ts over a store of objects

    The same analyser with nodes as objects in a store, a node being the
    address of its object, for the properties about copies and about the
    input being left alone.  A new object literal is allocated at the end of
    the store; nothing in semantic.ts assigns to a field of a node, so the
    store has no update. *)

Module Store.
Import Types.

Inductive Object `{JsNumber} :=
  | AssignmentObject (name : string) (value : nat) (pos : Position)
  | BinaryExprObject (operator : string) (left right : nat) (pos : Position)
                     (resolvedType : option DataType)
  | UnaryExprObject (operator : string) (operand : nat) (pos : Position)
                    (resolvedType : option DataType)
  | LiteralObject (value : number) (dataType : DataType) (pos : Position)
                  (resolvedType : option DataType)
  | VariableObject (name : string) (pos : Position)
                   (resolvedType : option DataType).
Arguments AssignmentObject {_} _ _ _.
Arguments BinaryExprObject {_} _ _ _ _ _.
Arguments UnaryExprObject {_} _ _ _ _.
Arguments LiteralObject {_} _ _ _ _.
Arguments VariableObject {_} _ _ _.

Record SemanticResult `{JsNumber} := mkResult {
  store : list Object;
  resultTable : gmap string SymbolEntry;
  annotatedAst : list nat;
  resultErrors : list CompilerError;
}.
Arguments mkResult {_} _ _ _ _.

Section WithNumber.
Context `{JsNumber}.

Record SemanticAnalyzer := mkAnalyzer {
  objects : list Object;
  symbolTable : gmap string SymbolEntry;
  errors : list CompilerError;
}.

(** Evaluating an object literal. *)
Definition allocate (o : Object) (a : SemanticAnalyzer)
    : nat * SemanticAnalyzer :=
  (length (objects a),
   mkAnalyzer (objects a ++ [o]) (symbolTable a) (errors a)).

(** [None] when the fuel runs out or an address is not in the store. *)
Fixpoint getResolvedType (fuel : nat) (objects : list Object) (node : nat)
    : option (option DataType) :=
  match fuel with
  | O => None
  | S fuel' =>
      object ← objects !! node;
      match object with
      | AssignmentObject _ value _ => getResolvedType fuel' objects value
      | BinaryExprObject _ _ _ _ resolvedType
      | UnaryExprObject _ _ _ resolvedType
      | LiteralObject _ _ _ resolvedType
      | VariableObject _ _ resolvedType => Some resolvedType
      end
  end.

Definition addError (message : string) (position : Position)
    (variableName : option string) (a : SemanticAnalyzer)
    : SemanticAnalyzer :=
  mkAnalyzer (objects a) (symbolTable a)
    (errors a ++
     [mkCompilerError semantic message position None None variableName]).

Fixpoint analyzeNode (fuel : nat) (node : nat) (a : SemanticAnalyzer)
    : option (nat * SemanticAnalyzer) :=
  match fuel with
  | O => None
  | S fuel' =>
      object ← objects a !! node;
      match object with
      | AssignmentObject name value pos =>
          '(annotatedValue, a) ← analyzeNode fuel' value a;
          valueType ← getResolvedType fuel' (objects a) annotatedValue;
          let a :=
            match valueType with
            | Some valueType =>
                mkAnalyzer (objects a)
                  (<[name := mkSymbolEntry name valueType pos]>
                     (symbolTable a))
                  (errors a)
            | None => a
            end in
          Some (allocate (AssignmentObject name annotatedValue pos) a)
      | BinaryExprObject operator leftNode rightNode pos _ =>
          '(annotatedLeft, a) ← analyzeNode fuel' leftNode a;
          '(annotatedRight, a) ← analyzeNode fuel' rightNode a;
          leftType ← getResolvedType fuel' (objects a) annotatedLeft;
          rightType ← getResolvedType fuel' (objects a) annotatedRight;
          let resolvedType :=
            match leftType, rightType with
            | Some leftType, Some rightType =>
                Some (Semantic.binaryResultType operator leftType rightType)
            | _, _ => None
            end in
          Some (allocate
                  (BinaryExprObject operator annotatedLeft annotatedRight pos
                                    resolvedType) a)
      | UnaryExprObject operator operand pos _ =>
          '(annotatedOperand, a) ← analyzeNode fuel' operand a;
          operandType ← getResolvedType fuel' (objects a) annotatedOperand;
          Some (allocate
                  (UnaryExprObject operator annotatedOperand pos operandType)
                  a)
      | LiteralObject value dataType pos _ =>
          Some (allocate (LiteralObject value dataType pos (Some dataType)) a)
      | VariableObject name pos _ =>
          match symbolTable a !! name with
          | None =>
              Some (node,
                    addError (Semantic.undefinedVariable name) pos (Some name)
                             a)
          | Some entry =>
              Some (allocate
                      (VariableObject name pos (Some (entryType entry))) a)
          end
      end
  end.

Fixpoint analyzeAll (fuel : nat) (ast annotatedAst : list nat)
    (a : SemanticAnalyzer) : option (list nat * SemanticAnalyzer) :=
  match ast with
  | [] => Some (annotatedAst, a)
  | node :: ast' =>
      '(annotated, a) ← analyzeNode fuel node a;
      analyzeAll fuel ast' (annotatedAst ++ [annotated]) a
  end.

(** [analyze(ast)] started in a store that holds the nodes of [ast]. *)
Definition analyze (fuel : nat) (initial : list Object) (ast : list nat)
    : option SemanticResult :=
  '(annotatedAst, a) ← analyzeAll fuel ast [] (mkAnalyzer initial ∅ []);
  Some (mkResult (objects a) (symbolTable a) annotatedAst (errors a)).

(** The object at [node] and those below it spell out the tree [tree]. *)
Inductive represents (objects : list Object) : nat → ASTNode → Prop :=
  | represents_assignment node name value pos valueTree :
      objects !! node = Some (AssignmentObject name value pos) →
      represents objects value valueTree →
      represents objects node (AssignmentNode name valueTree pos)
  | represents_binary node operator l r pos resolvedType leftTree rightTree :
      objects !! node
        = Some (BinaryExprObject operator l r pos resolvedType) →
      represents objects l leftTree →
      represents objects r rightTree →
      represents objects node
        (BinaryExprNode operator leftTree rightTree pos resolvedType)
  | represents_unary node operator operand pos resolvedType operandTree :
      objects !! node
        = Some (UnaryExprObject operator operand pos resolvedType) →
      represents objects operand operandTree →
      represents objects node
        (UnaryExprNode operator operandTree pos resolvedType)
  | represents_literal node value dataType pos resolvedType :
      objects !! node = Some (LiteralObject value dataType pos resolvedType) →
      represents objects node (LiteralNode value dataType pos resolvedType)
  | represents_variable node name pos resolvedType :
      objects !! node = Some (VariableObject name pos resolvedType) →
      represents objects node (VariableNode name pos resolvedType).

Fixpoint depth (tree : ASTNode) : nat :=
  match tree with
  | AssignmentNode _ value _ => S (depth value)
  | BinaryExprNode _ l r _ _ => S (depth l `max` depth r)
  | UnaryExprNode _ operand _ _ => S (depth operand)
  | LiteralNode _ _ _ _ | VariableNode _ _ _ => 1
  end.

(** The analyser state without the store. *)
Definition forget (a : SemanticAnalyzer) : Semantic.SemanticAnalyzer :=
  Semantic.mkAnalyzer (symbolTable a) (errors a).

End WithNumber.
End Store.

(** ** parser.test.ts: the evaluation helper *)

Module ParserTest.
Import Types.

Section Evaluate.
Context `{JsNumber}.

(** The arithmetic of JavaScript numbers, left uninterpreted. *)
Variables add sub mul div pow : number → number → number.
Variable neg : number → number.

(** [evaluate(node, variables)]; [None] when it throws: an undefined
    variable, or an operator outside the five, for which the [switch] falls
    through to a case that reads a missing field. *)
Fixpoint evaluate (variables : gmap string number) (node : ASTNode)
    : option number :=
  match node with
  | LiteralNode value _ _ _ => Some value
  | VariableNode name _ _ => variables !! name
  | UnaryExprNode operator operand _ _ =>
      v ← evaluate variables operand;
      Some (if bool_decide (operator = "-") then neg v else v)
  | BinaryExprNode operator leftNode rightNode _ _ =>
      l ← evaluate variables leftNode;
      r ← evaluate variables rightNode;
      if bool_decide (operator = "+") then Some (add l r)
      else if bool_decide (operator = "-") then Some (sub l r)
      else if bool_decide (operator = "*") then Some (mul l r)
      else if bool_decide (operator = "/") then Some (div l r)
      else if bool_decide (operator = "^") then Some (pow l r)
      else None
  | AssignmentNode _ value _ => evaluate variables value
  end.

End Evaluate.
End ParserTest.

(** ** compiler.ts *)

Module CompilationResult.
Record t `{JsNumber} := mk {
  tokens : list Types.Token;
  ast : option (list Types.ASTNode);
  symbolTable : option (gmap string Types.SymbolEntry);
  annotatedAst : option (list Types.ASTNode);
  errors : list Types.CompilerError;
}.
Arguments mk {_} _ _ _ _ _.
End CompilationResult.

Module Compiler.
Import Types.

Section WithNumber.
Context `{JsNumber}.

Definition collectLexicalErrors (tokens : list Token) : list CompilerError :=
  (λ token,
     mkCompilerError lexical
       ("Unexpected character '" +:+ lexeme token +:+ "'") (position token)
       None None None)
  <$> filter (λ token, type token = ERROR) tokens.

(** [compile(source)]; [None] when [tokenize] or [parse] does not return. *)
Definition compile (source : string) : option CompilationResult.t :=
  tokens ← Lexer.tokenize source;
  let errors := collectLexicalErrors tokens in
  match Parser.parse tokens with
  | Parser.Returns parseResult =>
      let errors :=
        if bool_decide (0 < length (ParseResult.errors parseResult))
        then errors ++ ParseResult.errors parseResult else errors in
      if bool_decide (0 < length (ParseResult.ast parseResult)) then
        let ast := ParseResult.ast parseResult in
        let semanticResult := Semantic.analyze ast in
        let errors :=
          if bool_decide
               (0 < length (SemanticResult.errors semanticResult))
          then errors ++ SemanticResult.errors semanticResult else errors in
        Some (CompilationResult.mk tokens (Some ast)
                (Some (SemanticResult.symbolTable semanticResult))
                (Some (SemanticResult.annotatedAst semanticResult)) errors)
      else Some (CompilationResult.mk tokens None None None errors)
  | _ => None
  end.

End WithNumber.
End Compiler.

(** ** validation.ts *)

Module Validation.

(** The code units [String.prototype.trim] removes, which are the white
    space and the line terminators of ECMAScript: tab, line feed, vertical
    tab, form feed, carriage return, space, no-break space, U+1680, U+2000
    to U+200A, U+2028, U+2029, U+202F, U+205F, U+3000 and U+FEFF. *)
Definition whiteSpaceUnits : list N :=
  [0x0009; 0x000A; 0x000B; 0x000C; 0x000D; 0x0020; 0x00A0; 0x1680;
   0x2000; 0x2001; 0x2002; 0x2003; 0x2004; 0x2005; 0x2006; 0x2007;
   0x2008; 0x2009; 0x200A; 0x2028; 0x2029; 0x202F; 0x205F; 0x3000;
   0xFEFF]%N.

Definition isWhiteSpace (unit : N) : bool :=
  existsb (N.eqb unit) whiteSpaceUnits.

(** A character of a [string] is the code unit of its number. *)
Definition removed (c : ascii) : bool := isWhiteSpace (N_of_ascii c).

Fixpoint trimStart (s : string) : string :=
  match s with
  | String c s' => if removed c then trimStart s' else s
  | EmptyString => ""
  end.

Fixpoint trimEnd (s : string) : string :=
  match s with
  | String c s' =>
      match trimEnd s' with
      | EmptyString => if removed c then "" else String c ""
      | trimmed => String c trimmed
      end
  | EmptyString => ""
  end.

Definition trim (s : string) : string := trimEnd (trimStart s).

Definition isEmptyOrWhitespace (input : string) : bool :=
  bool_decide (String.length (trim input) = 0).

Record ValidationResult := mkValidationResult {
  isValid : bool;
  message : option string;
}.

Definition validateInput (input : string) : ValidationResult :=
  if isEmptyOrWhitespace input
  then mkValidationResult false
         (Some "Please enter a valid expression to compile")
  else mkValidationResult true None.

End Validation.

(** ** prettyPrint.ts *)

(** What the pretty printer needs from JavaScript numbers:
    [Number.prototype.toString] and [Math.floor]. *)
Class JsNumberText `{JsNumber} := {
  numberToString : number → string;
  floor : number → number;
}.

Module PrettyPrint.
Import Types.

Section WithNumber.
Context `{JsNumberText}.

Fixpoint printAST (node : ASTNode) : string :=
  match node with
  | LiteralNode value dataType _ _ =>
      if bool_decide (dataType = Integer) then numberToString (floor value)
      else numberToString value
  | VariableNode name _ _ => name
  | UnaryExprNode operator operand _ _ =>
      match operand with
      | BinaryExprNode _ _ _ _ _ =>
          operator +:+ "(" +:+ printAST operand +:+ ")"
      | _ => operator +:+ printAST operand
      end
  | BinaryExprNode operator leftNode rightNode _ _ =>
      "(" +:+ printAST leftNode +:+ " " +:+ operator +:+ " "
      +:+ printAST rightNode +:+ ")"
  | AssignmentNode name value _ => name +:+ " = " +:+ printAST value
  end.

End WithNumber.
End PrettyPrint.

(** ** A number instance to run the code on

    JavaScript reads a literal as the nearest double; this instance keeps
    the exact rational the digits denote, which is all the examples below
    look at. *)

(** The value of the leading digits of [s], continuing from [acc], with
    how many digits were read. *)
Fixpoint readDigits (acc : N) (count : nat) (s : string) : N * nat * string :=
  match s with
  | String c s' =>
      if Lexer.isDigit c
      then readDigits (10 * acc + (N_of_ascii c - 48))%N (S count) s'
      else (acc, count, s)
  | EmptyString => (acc, count, s)
  end.

Definition decimalValue (s : string) : Q :=
  let '(whole, _, rest) := readDigits 0 0 s in
  match rest with
  | String "."%char fraction =>
      let '(scaled, digits, _) := readDigits whole 0 fraction in
      Qred (Qmake (Z.of_N scaled) (Z.to_pos (10 ^ Z.of_nat digits)))
  | _ => Qmake (Z.of_N whole) 1
  end.

#[global] Instance decimalNumber : JsNumber :=
  {| number := Q; parseFloat := decimalValue |}.

(** ** Vocabulary of the statements

    Definitions used to state properties of the code: some name a relation
    between two states of the code, the others follow the specification's
    words and are compared with the code by the theorems. *)

Section Vocabulary.
Context `{JsNumber}.
Import Types.

(** *** Lexer *)

(** [k] more characters consumed on the current line. *)
Definition advanceBy (k : nat) (lx : Lexer.Lexer) : Lexer.Lexer :=
  Lexer.mkLexer (Lexer.tokens lx) (Lexer.start lx) (Lexer.current lx + k)
    (Lexer.line lx) (Lexer.column lx + k) (Lexer.startColumn lx).

(** A scanning step never goes back, keeps the tokens found so far and adds
    none of type [EOF]. *)
Definition extends (lx lx' : Lexer.Lexer) : Prop :=
  Lexer.current lx ≤ Lexer.current lx' ∧
  ∃ new, Lexer.tokens lx' = Lexer.tokens lx ++ new
         ∧ Forall (λ t, type t ≠ EOF) new.

Fixpoint allDigits (s : string) : bool :=
  match s with
  | String c s' => Lexer.isDigit c && allDigits s'
  | EmptyString => true
  end.

(** The longest prefix of [s] made of digits, and what follows it. *)
Fixpoint digitRun (s : string) : string :=
  match s with
  | String c s' => if Lexer.isDigit c then String c (digitRun s') else ""
  | EmptyString => ""
  end.

Fixpoint afterDigits (s : string) : string :=
  match s with
  | String c s' => if Lexer.isDigit c then afterDigits s' else s
  | EmptyString => ""
  end.

(** The number sub-rule in the words of the specification: after the run of
    digits [whole], the token is a [FLOAT] when what follows is a ['.'] and
    then at least one digit, and it then takes the dot and those digits;
    otherwise it is an [INTEGER] made of [whole] alone. *)
Definition numberToken (whole rest : string) : TokenType * string :=
  match rest with
  | String "."%char rest1 =>
      match digitRun rest1 with
      | EmptyString => (INTEGER, whole)
      | fraction => (FLOAT, whole +:+ "." +:+ fraction)
      end
  | _ => (INTEGER, whole)
  end.

(** The lexer once it has scanned the number [lexeme] from [lx] on: one more
    token, whose literal is the value of the lexeme, and the cursor just
    behind the lexeme. *)
Definition afterNumber (lx : Lexer.Lexer) (ty : TokenType) (lexeme : string)
    : Lexer.Lexer :=
  Lexer.mkLexer
    (Lexer.tokens lx ++
     [mkToken ty lexeme (mkPosition (Lexer.line lx) (Lexer.column lx))
              (Some (parseFloat lexeme))])
    (Lexer.current lx) (Lexer.current lx + String.length lexeme)
    (Lexer.line lx) (Lexer.column lx + String.length lexeme)
    (Lexer.column lx).

(** *** Parser *)

(** The result of a parser action satisfies [Q] when it returns, [E] when it
    throws, and [F] when the fuel ran out. *)
Definition post {A} (r : Parser.Result A) (Q : A → Parser.Parser → Prop)
    (E : Parser.Exception → Parser.Parser → Prop) (F : Prop) : Prop :=
  match r with
  | Parser.Ok a p => Q a p
  | Parser.Thrown e p => E e p
  | Parser.OutOfFuel => F
  end.

(** The cursor one token further. *)
Definition stepped (p : Parser.Parser) : Parser.Parser :=
  Parser.mkParser (S (Parser.current p)) (Parser.errors p).

(** Tokens not yet consumed. *)
Definition remaining (tokens : list Token) (p : Parser.Parser) : nat :=
  length tokens - Parser.current p.

(** An action that threw recorded at most one error. *)
Definition failed (p : Parser.Parser) (e : Parser.Exception)
    (p' : Parser.Parser) : Prop :=
  Parser.errors p' = Parser.errors p
  ∨ ∃ err, Parser.errors p' = Parser.errors p ++ [err].

(** An action that returned recorded no error, moved the cursor on by
    [least] tokens at least, and left it below [bound]. *)
Definition moved (least bound : nat) (p : Parser.Parser) {A} (a : A)
    (p' : Parser.Parser) : Prop :=
  Parser.errors p' = Parser.errors p
  ∧ Parser.current p + least ≤ Parser.current p'
  ∧ Parser.current p' < bound.

(** A statement that returned left the cursor on a token; the cursor has
    moved unless the statement is the [null] of the end of input. *)
Definition statementDone (tokens : list Token) (p : Parser.Parser)
    (r : option ASTNode) (p' : Parser.Parser) : Prop :=
  Parser.errors p' = Parser.errors p
  ∧ Parser.current p' < length tokens
  ∧ match r with
    | Some _ => Parser.current p < Parser.current p'
    | None => Parser.current p ≤ Parser.current p'
              ∧ ∃ t, tokens !! Parser.current p' = Some t ∧ type t = EOF
    end.

(** [count] tokens of type [ERROR] from the cursor on, then a token of
    another type. *)
Definition errorRun (tokens : list Token) (p : Parser.Parser) (count : nat)
    : Prop :=
  (∀ i, i < count →
     ∃ t, tokens !! (Parser.current p + i) = Some t ∧ type t = ERROR)
  ∧ ∃ t, tokens !! (Parser.current p + count) = Some t ∧ type t ≠ ERROR.

(** Operand tokens and the leaves the parser builds from them. *)
Definition isOperandToken (t : Token) : bool :=
  match type t with
  | INTEGER | FLOAT | IDENTIFIER => true
  | _ => false
  end.

Definition operandNode (t : Token) : ASTNode :=
  match type t with
  | INTEGER => Parser.createLiteralNode t Integer
  | FLOAT => Parser.createLiteralNode t Float
  | _ => Parser.createVariableNode t
  end.

(** A token without a literal, as the lexer emits for operators and
    parentheses. *)
Definition symbolToken (ty : TokenType) (lexeme : string) (pos : Position)
    : Token :=
  mkToken ty lexeme pos None.

Definition binary (operator : string) (pos : Position) (l r : ASTNode)
    : ASTNode :=
  BinaryExprNode operator l r pos None.

(** [parse] returns the single statement [tree] and no error. *)
Definition parsesTo (tokens : list Token) (tree : ASTNode) : Prop :=
  Parser.parse tokens = Parser.Returns (ParseResult.mk [tree] []).

(** *** Semantic analyser *)

(** No node carries a [resolvedType] yet, as in every tree the parser
    builds. *)
Fixpoint unannotated (node : ASTNode) : bool :=
  match node with
  | AssignmentNode _ value _ => unannotated value
  | BinaryExprNode _ l r _ resolvedType =>
      unannotated l && unannotated r && bool_decide (resolvedType = None)
  | UnaryExprNode _ operand _ resolvedType =>
      unannotated operand && bool_decide (resolvedType = None)
  | LiteralNode _ _ _ resolvedType => bool_decide (resolvedType = None)
  | VariableNode _ _ resolvedType => bool_decide (resolvedType = None)
  end.

(** No [Variable] node carries a [resolvedType] yet; the analyser computes
    the type of every other node anew. *)
Fixpoint freshVariables (node : ASTNode) : bool :=
  match node with
  | AssignmentNode _ value _ => freshVariables value
  | BinaryExprNode _ l r _ _ => freshVariables l && freshVariables r
  | UnaryExprNode _ operand _ _ => freshVariables operand
  | LiteralNode _ _ _ _ => true
  | VariableNode _ _ resolvedType => bool_decide (resolvedType = None)
  end.

(** The [Variable] nodes of a tree that are without [resolvedType], in the
    order the analyser visits them, and those of a forest. *)
Fixpoint untypedVariables (node : ASTNode) : list (string * Position) :=
  match node with
  | AssignmentNode _ value _ => untypedVariables value
  | BinaryExprNode _ l r _ _ => untypedVariables l ++ untypedVariables r
  | UnaryExprNode _ operand _ _ => untypedVariables operand
  | LiteralNode _ _ _ _ => []
  | VariableNode name pos resolvedType =>
      if bool_decide (resolvedType = None) then [(name, pos)] else []
  end.

Definition untypedOccurrences (ast : list ASTNode)
    : list (string * Position) :=
  concat (untypedVariables <$> ast).

(** An expression: a tree without [Assignment] nodes. *)
Fixpoint isExpression (node : ASTNode) : bool :=
  match node with
  | AssignmentNode _ _ _ => false
  | BinaryExprNode _ l r _ _ => isExpression l && isExpression r
  | UnaryExprNode _ operand _ _ => isExpression operand
  | LiteralNode _ _ _ _ | VariableNode _ _ _ => true
  end.

(** The promotion table of the specification. *)
Definition promote (operator : string) (l r : DataType) : DataType :=
  if bool_decide (operator = "/") then Float
  else match l, r with
       | Integer, Integer => Integer
       | _, _ => Float
       end.

(** The resolution rules in the words of the specification: the type a node
    resolves to (if any), the occurrences of undefined variables met on the
    way, in order, and the symbol table afterwards.  An undefined variable
    is given no type: its type is the [resolvedType] its node carried, which
    is none in a tree that comes from the parser. *)
Fixpoint resolve (table : gmap string SymbolEntry) (node : ASTNode)
    : option DataType * list (string * Position) * gmap string SymbolEntry :=
  match node with
  | LiteralNode _ dataType _ _ => (Some dataType, [], table)
  | VariableNode name pos resolvedType =>
      match table !! name with
      | Some entry => (Some (entryType entry), [], table)
      | None => (resolvedType, [(name, pos)], table)
      end
  | UnaryExprNode _ operand _ _ => resolve table operand
  | BinaryExprNode operator l r _ _ =>
      let '(leftType, leftUndefined, table) := resolve table l in
      let '(rightType, rightUndefined, table) := resolve table r in
      (match leftType, rightType with
       | Some leftType, Some rightType =>
           Some (promote operator leftType rightType)
       | _, _ => None
       end, leftUndefined ++ rightUndefined, table)
  | AssignmentNode name value pos =>
      let '(valueType, undefined, table) := resolve table value in
      (valueType, undefined,
       match valueType with
       | Some valueType => <[name := mkSymbolEntry name valueType pos]> table
       | None => table
       end)
  end.

(** The undefined occurrences of a whole program, statement after
    statement. *)
Fixpoint undefinedOccurrences (table : gmap string SymbolEntry)
    (ast : list ASTNode) : list (string * Position) :=
  match ast with
  | [] => []
  | node :: ast' =>
      let '(_, undefined, table) := resolve table node in
      undefined ++ undefinedOccurrences table ast'
  end.

(** The error the specification asks for at one such occurrence. *)
Definition undefinedError (occurrence : string * Position) : CompilerError :=
  mkCompilerError semantic
    ("Undefined variable '" +:+ occurrence.1 +:+ "'") occurrence.2
    None None (Some occurrence.1).

(** A tree without [resolvedType], as the result of a parser action. *)
Definition plain (node : ASTNode) (_ : Parser.Parser) : Prop :=
  unannotated node = true.

(** *** Semantic analyser over the store *)

(** An annotated node is the node itself, when the node is a variable the
    symbol table does not know, and an object that was not in the store
    otherwise. *)
Definition undefinedVariableAt (a : Store.SemanticAnalyzer) (node : nat)
    : Prop :=
  ∃ name pos resolvedType,
    Store.objects a !! node
      = Some (Store.VariableObject name pos resolvedType)
    ∧ Store.symbolTable a !! name = None.

Definition returnedAs (a : Store.SemanticAnalyzer) (node annotated : nat)
    : Prop :=
  (annotated = node ∧ undefinedVariableAt a node)
  ∨ (length (Store.objects a) ≤ annotated ∧ ¬ undefinedVariableAt a node).


End Vocabulary.

(** ** Vocabulary of the further properties *)

Section LexerVocabulary.
Context `{JsNumber}.
Import Types.

(** The token type of a character that is a token by itself. *)
Definition symbolType (c : ascii) : option TokenType :=
  match c with
  | "+" => Some PLUS | "-" => Some MINUS | "*" => Some STAR
  | "/" => Some SLASH | "^" => Some CARET | "(" => Some LPAREN
  | ")" => Some RPAREN | "=" => Some EQUALS
  | _ => None
  end%char.

(** The characters the lexer skips: space, carriage return, tab and line
    feed. *)
Definition isSkipped (c : ascii) : bool :=
  match c with
  | " " | "013" | "009" | "010" => true
  | _ => false
  end%char.

(** The characters that end up in a token of type [ERROR]. *)
Definition isUnexpected (c : ascii) : bool :=
  negb (bool_decide (is_Some (symbolType c)) || isSkipped c
        || Lexer.isDigit c || Lexer.isAlpha c).

Fixpoint allChars (p : ascii → bool) (s : string) : bool :=
  match s with
  | String c s' => p c && allChars p s'
  | EmptyString => true
  end.

(** The longest prefix of [s] whose characters satisfy [p], and what
    follows it. *)
Fixpoint run (p : ascii → bool) (s : string) : string :=
  match s with
  | String c s' => if p c then String c (run p s') else ""
  | EmptyString => ""
  end.

Fixpoint afterRun (p : ascii → bool) (s : string) : string :=
  match s with
  | String c s' => if p c then afterRun p s' else s
  | EmptyString => ""
  end.

(** Line and column after reading [s] from [line] and [column] on: a line
    feed starts a new line at column 1, any other character is one column. *)
Fixpoint positionFrom (line column : nat) (s : string) : Position :=
  match s with
  | String c s' =>
      if Ascii.eqb c "010" then positionFrom (S line) 1 s'
      else positionFrom line (S column) s'
  | EmptyString => mkPosition line column
  end.

(** The position of the character that follows [prefix] in a source. *)
Definition positionAfter (prefix : string) : Position :=
  positionFrom 1 1 prefix.

(** The lexemes of each token type; [EOF] is not a token of the text. *)
Definition lexemeFits (ty : TokenType) (lexeme : string) : bool :=
  match ty with
  | INTEGER => negb (String.eqb lexeme "") && allChars Lexer.isDigit lexeme
  | FLOAT =>
      negb (String.eqb (run Lexer.isDigit lexeme) "")
      && match afterRun Lexer.isDigit lexeme with
         | String "."%char fraction =>
             negb (String.eqb fraction "") && allChars Lexer.isDigit fraction
         | _ => false
         end
  | IDENTIFIER =>
      match lexeme with
      | String c rest => Lexer.isAlpha c && allChars Lexer.isAlphaNumeric rest
      | EmptyString => false
      end
  | ERROR =>
      match lexeme with
      | String c EmptyString => isUnexpected c
      | _ => false
      end
  | EOF => false
  | ty =>
      match lexeme with
      | String c EmptyString => bool_decide (symbolType c = Some ty)
      | _ => false
      end
  end.

(** A token of the text: its lexeme fits its type, and it has a literal,
    the value of its lexeme, exactly when it is a number. *)
Definition wellFormed (t : Token) : Prop :=
  lexemeFits (type t) (lexeme t) = true
  ∧ literal t = match type t with
                | INTEGER | FLOAT => Some (parseFloat (lexeme t))
                | _ => None
                end.

(** [covers body text]: [text] is the lexemes of the tokens [body] in order,
    with skipped characters before, between and after them, and every token
    is at the position of its first character. *)
Inductive covers : list Token → string → Prop :=
  | covers_nil : covers [] ""
  | covers_skip body text c :
      covers body text → isSkipped c = true →
      covers body (text +:+ String c "")
  | covers_token body text t :
      covers body text → wellFormed t → position t = positionAfter text →
      covers (body ++ [t]) (text +:+ lexeme t).

(** The lexer with one more token [t], found at the cursor. *)
Definition afterToken (lx : Lexer.Lexer) (t : Token) : Lexer.Lexer :=
  Lexer.mkLexer (Lexer.tokens lx ++ [t])
    (Lexer.current lx) (Lexer.current lx + String.length (lexeme t))
    (Lexer.line lx) (Lexer.column lx + String.length (lexeme t))
    (Lexer.column lx).

(** The identifier that starts with [c] and goes on into [rest]. *)
Definition identifierToken (lx : Lexer.Lexer) (c : ascii) (rest : string)
    : Token :=
  mkToken IDENTIFIER (String c (run Lexer.isAlphaNumeric rest))
    (mkPosition (Lexer.line lx) (Lexer.column lx)) None.

(** The lexer has read [text]: the cursor is behind it, line and column are
    those of the next character, and the tokens cover it. *)
Definition scanned (text : string) (lx : Lexer.Lexer) : Prop :=
  Lexer.current lx = String.length text
  ∧ mkPosition (Lexer.line lx) (Lexer.column lx) = positionAfter text
  ∧ covers (Lexer.tokens lx) text.

End LexerVocabulary.

(** [text] holds [lexeme] behind [before]. *)
Definition holds (text before lexeme : string) : Prop :=
  ∃ rest, text = before +:+ lexeme +:+ rest.

(** The error [collectLexicalErrors] makes of an [ERROR] token for the
    character [c] found behind [before]. *)
Definition unexpectedCharacter (before : string) (c : ascii)
    : Types.CompilerError :=
  Types.mkCompilerError Types.lexical
    ("Unexpected character '" +:+ String c "'") (positionAfter before)
    None None None.

(** The white space that [trim] removes and the lexer does not skip. *)
Definition strayWhiteSpace (c : ascii) : bool :=
  Validation.removed c && negb (isSkipped c).

Section ParserVocabulary.
Context `{JsNumber}.
Import Types.

(** The trees the expression grammar builds from [tokens]: every node comes
    from one token of a type that fits it, which gives the node its
    position and its value, name or operator. *)
Inductive builtFrom (tokens : list Token) : ASTNode → Prop :=
  | built_integer t :
      t ∈ tokens → type t = INTEGER →
      builtFrom tokens (Parser.createLiteralNode t Integer)
  | built_float t :
      t ∈ tokens → type t = FLOAT →
      builtFrom tokens (Parser.createLiteralNode t Float)
  | built_variable t :
      t ∈ tokens → type t = IDENTIFIER →
      builtFrom tokens (Parser.createVariableNode t)
  | built_unary t operand :
      t ∈ tokens → type t ∈ [MINUS; PLUS] → builtFrom tokens operand →
      builtFrom tokens (UnaryExprNode (lexeme t) operand (position t) None)
  | built_binary t l r :
      t ∈ tokens → type t ∈ [PLUS; MINUS; STAR; SLASH] →
      builtFrom tokens l → builtFrom tokens r →
      builtFrom tokens (BinaryExprNode (lexeme t) l r (position t) None)
  | built_power t l r :
      t ∈ tokens → type t = CARET →
      builtFrom tokens l → builtFrom tokens r →
      builtFrom tokens (BinaryExprNode "^" l r (position t) None).

(** The statements: an expression, or an expression assigned to the name of
    an [IDENTIFIER] token. *)
Inductive statementFrom (tokens : list Token) : ASTNode → Prop :=
  | statement_expression node :
      builtFrom tokens node → statementFrom tokens node
  | statement_assignment t value :
      t ∈ tokens → type t = IDENTIFIER → builtFrom tokens value →
      statementFrom tokens (AssignmentNode (lexeme t) value (position t)).

(** The error the parser records when it stops at token [t]. *)
Definition syntaxError (message expected : string) (t : Token)
    : CompilerError :=
  mkCompilerError syntax message (position t) (Some expected)
    (Some (tokenTypeName (type t))) None.

(** The token types an expression can start with. *)
Definition expressionStart : list TokenType :=
  [MINUS; PLUS; INTEGER; FLOAT; IDENTIFIER; LPAREN].

(** The two errors the parser records at a token [t]: no expression can
    start with [t], or a [')'] is due and [t] is not one. *)
Definition syntaxErrorAt (t : Token) (err : CompilerError) : Prop :=
  (err = syntaxError "Expected expression" "expression" t
   ∧ type t ∉ expressionStart)
  ∨ (err = syntaxError "Expected ')' after expression" "RPAREN" t
     ∧ type t ≠ RPAREN).

(** An action that returned built its tree from the tokens and recorded no
    error. *)
Definition built (tokens : list Token) (recorded : list CompilerError)
    (node : ASTNode) (p : Parser.Parser) : Prop :=
  builtFrom tokens node ∧ Parser.errors p = recorded.

(** An action that threw either read past the last token, or recorded one
    error, about the token under the cursor. *)
Definition reported (tokens : list Token) (recorded : list CompilerError)
    (e : Parser.Exception) (p : Parser.Parser) : Prop :=
  (e = Parser.TypeError ∧ Parser.errors p = recorded
   ∧ tokens !! Parser.current p = None)
  ∨ ∃ t err, tokens !! Parser.current p = Some t
             ∧ Parser.errors p = recorded ++ [err]
             ∧ e = Parser.Error (message err) ∧ syntaxErrorAt t err.

End ParserVocabulary.

(** A sign applied to an operand. *)
Definition unary `{JsNumber} (operator : string) (pos : Types.Position)
    (operand : Types.ASTNode) : Types.ASTNode :=
  Types.UnaryExprNode operator operand pos None.

Section MoreVocabulary.
Context `{JsNumber}.
Import Types.

(** The tree with every [resolvedType] taken away. *)
Fixpoint erase (node : ASTNode) : ASTNode :=
  match node with
  | AssignmentNode name value pos => AssignmentNode name (erase value) pos
  | BinaryExprNode operator l r pos _ =>
      BinaryExprNode operator (erase l) (erase r) pos None
  | UnaryExprNode operator operand pos _ =>
      UnaryExprNode operator (erase operand) pos None
  | LiteralNode value dataType pos _ => LiteralNode value dataType pos None
  | VariableNode name pos _ => VariableNode name pos None
  end.

(** Every node that has a [resolvedType] field carries a type. *)
Fixpoint typed (node : ASTNode) : bool :=
  match node with
  | AssignmentNode _ value _ => typed value
  | BinaryExprNode _ l r _ resolvedType =>
      typed l && typed r && bool_decide (is_Some resolvedType)
  | UnaryExprNode _ operand _ resolvedType =>
      typed operand && bool_decide (is_Some resolvedType)
  | LiteralNode _ _ _ resolvedType => bool_decide (is_Some resolvedType)
  | VariableNode _ _ resolvedType => bool_decide (is_Some resolvedType)
  end.

(** The [Assignment] nodes of a tree: the name assigned and the position
    of the node. *)
Fixpoint assignments (node : ASTNode) : list (string * Position) :=
  match node with
  | AssignmentNode name value pos => assignments value ++ [(name, pos)]
  | BinaryExprNode _ l r _ _ => assignments l ++ assignments r
  | UnaryExprNode _ operand _ _ => assignments operand
  | LiteralNode _ _ _ _ | VariableNode _ _ _ => []
  end.

(** Every entry of the table is filed under its own name and was defined
    by one of the assignments [from]. *)
Definition definedBy (from : list (string * Position))
    (table : gmap string SymbolEntry) : Prop :=
  ∀ name entry, table !! name = Some entry →
    entryName entry = name ∧ (name, definedAt entry) ∈ from.

End MoreVocabulary.

Section PrinterVocabulary.
Context `{JsNumberText}.
Import Types.

(** The token type of a literal, of an operator and of a sign. *)
Definition literalType (dataType : DataType) : TokenType :=
  match dataType with Integer => INTEGER | Float => FLOAT end.

Definition operatorType (operator : string) : TokenType :=
  if bool_decide (operator = "+") then PLUS
  else if bool_decide (operator = "-") then MINUS
  else if bool_decide (operator = "*") then STAR
  else if bool_decide (operator = "/") then SLASH
  else CARET.

(** The text of a literal. *)
Definition literalText (value : number) (dataType : DataType) : string :=
  PrettyPrint.printAST (LiteralNode value dataType (mkPosition 0 0) None).

Definition isBinary (node : ASTNode) : bool :=
  match node with
  | BinaryExprNode _ _ _ _ _ => true
  | _ => false
  end.

(** An expression that the printer and the lexer agree on: operators are
    the five of the language and signs [-] or [+], names are identifiers,
    and the text of a literal is a number of its type that [parseFloat]
    reads back to the value. *)
Fixpoint printable (node : ASTNode) : Prop :=
  match node with
  | LiteralNode value dataType _ _ =>
      lexemeFits (literalType dataType) (literalText value dataType) = true
      ∧ parseFloat (literalText value dataType) = value
  | VariableNode name _ _ => lexemeFits IDENTIFIER name = true
  | UnaryExprNode operator operand _ _ =>
      operator ∈ ["-"; "+"] ∧ printable operand
  | BinaryExprNode operator l r _ _ =>
      operator ∈ ["+"; "-"; "*"; "/"; "^"] ∧ printable l ∧ printable r
  | AssignmentNode _ _ _ => False
  end.

(** A statement: a printable expression, or one assigned to an identifier. *)
Definition printableStatement (node : ASTNode) : Prop :=
  match node with
  | AssignmentNode name value _ =>
      lexemeFits IDENTIFIER name = true ∧ printable value
  | _ => printable node
  end.

Definition width (node : ASTNode) : nat :=
  String.length (PrettyPrint.printAST node).

(** The tokens of the text of [node] when it starts at [line] and
    [column]; a column is [column] and the widths of the pieces of text
    before the token. *)
Fixpoint tokensAt (line column : nat) (node : ASTNode) : list Token :=
  match node with
  | LiteralNode value dataType _ _ =>
      [mkToken (literalType dataType) (literalText value dataType)
         (mkPosition line column)
         (Some (parseFloat (literalText value dataType)))]
  | VariableNode name _ _ =>
      [mkToken IDENTIFIER name (mkPosition line column) None]
  | UnaryExprNode operator operand _ _ =>
      mkToken (operatorType operator) operator (mkPosition line column) None
      :: if isBinary operand
         then mkToken LPAREN "(" (mkPosition line (column + 1)) None
              :: tokensAt line (column + 1 + 1) operand
              ++ [mkToken RPAREN ")"
                    (mkPosition line (column + 1 + 1 + width operand)) None]
         else tokensAt line (column + 1) operand
  | BinaryExprNode operator l r _ _ =>
      mkToken LPAREN "(" (mkPosition line column) None
      :: tokensAt line (column + 1) l
      ++ mkToken (operatorType operator) operator
           (mkPosition line (column + 1 + width l + 1)) None
         :: tokensAt line (column + 1 + width l + 1 + 1 + 1) r
      ++ [mkToken RPAREN ")"
            (mkPosition line (column + 1 + width l + 1 + 1 + 1 + width r))
            None]
  | AssignmentNode name value _ =>
      mkToken IDENTIFIER name (mkPosition line column) None
      :: mkToken EQUALS "=" (mkPosition line (column + String.length name + 1))
           None
      :: tokensAt line (column + String.length name + 1 + 1 + 1) value
  end.

(** [node] with the positions its text gives it from [line] and [column]
    on, and without types. *)
Fixpoint relocate (line column : nat) (node : ASTNode) : ASTNode :=
  match node with
  | LiteralNode value dataType _ _ =>
      LiteralNode value dataType (mkPosition line column) None
  | VariableNode name _ _ => VariableNode name (mkPosition line column) None
  | UnaryExprNode operator operand _ _ =>
      UnaryExprNode operator
        (relocate line
           (if isBinary operand then column + 1 + 1 else column + 1) operand)
        (mkPosition line column) None
  | BinaryExprNode operator l r _ _ =>
      BinaryExprNode operator (relocate line (column + 1) l)
        (relocate line (column + 1 + width l + 1 + 1 + 1) r)
        (mkPosition line (column + 1 + width l + 1)) None
  | AssignmentNode name value _ =>
      AssignmentNode name
        (relocate line (column + String.length name + 1 + 1 + 1) value)
        (mkPosition line column)
  end.

(** [node] without positions and types. *)
Fixpoint shape (node : ASTNode) : ASTNode :=
  match node with
  | LiteralNode value dataType _ _ =>
      LiteralNode value dataType (mkPosition 0 0) None
  | VariableNode name _ _ => VariableNode name (mkPosition 0 0) None
  | UnaryExprNode operator operand _ _ =>
      UnaryExprNode operator (shape operand) (mkPosition 0 0) None
  | BinaryExprNode operator l r _ _ =>
      BinaryExprNode operator (shape l) (shape r) (mkPosition 0 0) None
  | AssignmentNode name value _ =>
      AssignmentNode name (shape value) (mkPosition 0 0)
  end.

(** What may follow the text of an expression: nothing, a space or a
    closing parenthesis. *)
Definition delimited (rest : string) : bool :=
  match rest with
  | String c _ => Ascii.eqb c " " || Ascii.eqb c ")"
  | EmptyString => true
  end.

(** The main loop of the lexer takes [lx] to [lx'] in some rounds. *)
Inductive scansTo (source : string) : Lexer.Lexer → Lexer.Lexer → Prop :=
  | scans_here lx : scansTo source lx lx
  | scans_round lx lx1 lx2 :
      Lexer.isAtEnd source lx = false →
      Lexer.scanToken source (Lexer.beginToken lx) = Some lx1 →
      scansTo source lx1 lx2 →
      scansTo source lx lx2.

(** From [lx] to [lx'] the lexer has read [text], which has no line feed,
    and found [found]. *)
Definition reads (lx lx' : Lexer.Lexer) (text : string) (found : list Token)
    : Prop :=
  Lexer.current lx' = Lexer.current lx + String.length text
  ∧ Lexer.line lx' = Lexer.line lx
  ∧ Lexer.column lx' = Lexer.column lx + String.length text
  ∧ Lexer.tokens lx' = Lexer.tokens lx ++ found.

End PrinterVocabulary.

(** A parser action returned [tree], [count] tokens further on and without
    a new error. *)
Definition parsedTo `{JsNumber} (r : Parser.Result Types.ASTNode)
    (tree : Types.ASTNode) (p : Parser.Parser) (count : nat) : Prop :=
  ∃ p', r = Parser.Ok tree p'
        ∧ Parser.current p' = Parser.current p + count
        ∧ Parser.errors p' = Parser.errors p.

(** The printer on the exact rationals of [decimalNumber]: the decimal
    digits of the whole part and, when there is a fraction, a dot and its
    digits, twenty of them at most. *)
Definition digitText (digit : N) : string :=
  String (ascii_of_N (48 + digit)) "".

Fixpoint wholeDigits (count : nat) (n : N) : string :=
  match count with
  | O => ""
  | S count' =>
      (if (n <? 10)%N then "" else wholeDigits count' (n / 10)%N)
      +:+ digitText (n mod 10)%N
  end.

Fixpoint fractionDigits (count : nat) (numerator denominator : N) : string :=
  match count with
  | O => ""
  | S count' =>
      if (numerator =? 0)%N then ""
      else digitText (10 * numerator / denominator)%N
           +:+ fractionDigits count' ((10 * numerator) mod denominator)%N
                 denominator
  end.

Definition decimalText (q : Q) : string :=
  let numerator := Z.abs_N (Qnum q) in
  let denominator := Npos (Qden q) in
  let whole := (numerator / denominator)%N in
  let fraction :=
    fractionDigits 20 (numerator mod denominator)%N denominator in
  (if (Qnum q <? 0)%Z then "-" else "")
  +:+ wholeDigits (S (N.size_nat whole)) whole
  +:+ (if bool_decide (fraction = "") then "" else "." +:+ fraction).

#[global] Instance decimalNumberText : JsNumberText (H := decimalNumber) :=
  {| numberToString := decimalText;
     floor := λ q : Q, inject_Z (Qnum q / Zpos (Qden q)) |}.

Section LongestMatch.
Context `{JsNumber}.
Import Types.

(** The literal of a token: the value of the lexeme of a number. *)
Definition literalOf (ty : TokenType) (lexeme : string) : option number :=
  match ty with
  | INTEGER | FLOAT => Some (parseFloat lexeme)
  | _ => None
  end.

(** The token that starts with the character [c] of a text that goes on
    with [rest]: a symbol is a token by itself, a digit starts the longest
    number, a letter or an underscore the longest identifier, any other
    character that is not skipped is an [ERROR] token; a skipped character
    starts none. *)
Definition firstToken (c : ascii) (rest : string)
    : option (TokenType * string) :=
  match symbolType c with
  | Some ty => Some (ty, String c "")
  | None =>
      if isSkipped c then None
      else if Lexer.isDigit c
      then Some (numberToken (String c (digitRun rest)) (afterDigits rest))
      else if Lexer.isAlpha c
      then Some (IDENTIFIER, String c (run Lexer.isAlphaNumeric rest))
      else Some (ERROR, String c "")
  end.

(** [lexed line column text body]: [body] is what reading [text] from its
    first character on gives, taking at every character that is not skipped
    the token [firstToken] and going on behind its lexeme; [line] and
    [column] are those of the first character of [text]. *)
Inductive lexed : nat → nat → string → list Token → Prop :=
  | lexed_end line column : lexed line column "" []
  | lexed_skip line column c rest body :
      isSkipped c = true →
      lexed (if Ascii.eqb c "010" then S line else line)
            (if Ascii.eqb c "010" then 1 else S column) rest body →
      lexed line column (String c rest) body
  | lexed_token line column c rest ty lexeme rest' body :
      firstToken c rest = Some (ty, lexeme) →
      String c rest = lexeme +:+ rest' →
      lexed line (column + String.length lexeme) rest' body →
      lexed line column (String c rest)
        (mkToken ty lexeme (mkPosition line column) (literalOf ty lexeme)
         :: body).

(** A token without its position. *)
Definition unplaced (t : Token) : TokenType * string * option number :=
  (type t, lexeme t, literal t).

(** [p] is before [q] in the text. *)
Definition before (p q : Position) : Prop :=
  line p < line q ∨ (line p = line q ∧ column p < column q).

End LongestMatch.

Section TokenOrder.
Context `{JsNumber}.
Import Types.

(** [q] is [p] or behind it in the text. *)
Definition notBefore (p q : Position) : Prop :=
  line p < line q ∨ (line p = line q ∧ column p ≤ column q).

(** The tokens without their positions. *)
Definition content (found : list Token)
    : list (TokenType * string * option number) :=
  unplaced <$> found.

End TokenOrder.

(** * Proofs *)

Import Types.

#[local] Arguments String.append !_ _ / : simpl nomatch.

(** ** The lexer *)

Section LexerFacts.

Context `{JsNumber}.
Variable source : string.
Import Lexer.

Lemma isAtEnd_false lx :
  isAtEnd source lx = false → current lx < String.length source.
Proof. unfold isAtEnd. intros Hb. apply bool_decide_eq_false in Hb. lia. Qed.

Lemma advanceBy_0 lx : advanceBy 0 lx = lx.
Proof. destruct lx. unfold advanceBy. simpl. f_equal; lia. Qed.

Lemma advanceBy_S k lx : advanceBy k (advance source lx).2 = advanceBy (S k) lx.
Proof. unfold advanceBy. simpl. f_equal; lia. Qed.

Lemma get_length_None (s : string) i : String.length s ≤ i → String.get i s = None.
Proof.
  revert i. induction s as [|c s IH]; intros i Hi; [by destruct i|].
  destruct i as [|i]; simpl in *; [lia|]. apply IH. lia.
Qed.

Lemma get_app_skip (pre s : string) i :
  String.get (String.length pre + i) (pre +:+ s) = String.get i s.
Proof. induction pre as [|c pre IH]; simpl; done. Qed.

Lemma string_length_app (s1 s2 : string) :
  String.length (s1 +:+ s2) = String.length s1 + String.length s2.
Proof. induction s1 as [|c s1 IH]; simpl; [done|]. by rewrite IH. Qed.

Ltac lengths :=
  cbn [Lexer.current Lexer.advance advanceBy Lexer.beginToken snd String.length] in *;
  repeat (rewrite string_length_app in *; cbn [String.length] in * );
  cbn [Lexer.current Lexer.advance advanceBy Lexer.beginToken snd String.length] in *;
  try lia.

Lemma substring_app_prefix (mid rest : string) :
  String.substring 0 (String.length mid) (mid +:+ rest) = mid.
Proof.
  induction mid as [|c mid IH]; simpl; [by destruct rest|]. by rewrite IH.
Qed.

Lemma substring_app_mid (pre mid rest : string) :
  String.substring (String.length pre) (String.length mid) (pre +:+ mid +:+ rest) = mid.
Proof.
  induction pre as [|c pre IHpre]; [exact (substring_app_prefix mid rest)|].
  simpl. apply IHpre.
Qed.

Lemma jsSubstring_app_mid (pre mid rest : string) :
  jsSubstring (pre +:+ mid +:+ rest) (String.length pre)
    (String.length pre + String.length mid) = mid.
Proof.
  unfold jsSubstring.
  replace (String.length pre `min` (String.length pre + String.length mid))
    with (String.length pre) by lia.
  replace (String.length pre `max` (String.length pre + String.length mid) - String.length pre)
    with (String.length mid) by lia.
  apply substring_app_mid.
Qed.

(** What [peek] sees in front of a known remainder. *)
Lemma peek_at (pre rest : string) lx :
  source = pre +:+ rest → current lx = String.length pre →
  peek source lx = match rest with String c _ => c | EmptyString => "000"%char end.
Proof.
  intros -> Hcur. unfold peek, isAtEnd. rewrite Hcur, string_length_app.
  destruct rest as [|c rest]; simpl.
  - rewrite bool_decide_eq_true_2 by lia. done.
  - rewrite bool_decide_eq_false_2 by lia.
    replace (String.length pre) with (String.length pre + 0) at 1 by lia.
    by rewrite get_app_skip.
Qed.

Lemma app_assoc' (a b c : string) : (a +:+ b) +:+ c = a +:+ b +:+ c.
Proof. induction a; simpl; congruence. Qed.

Lemma app_cons_shift (pre : string) c rest :
  pre +:+ String c rest = (pre +:+ String c "") +:+ rest.
Proof. induction pre; simpl; congruence. Qed.

Lemma advanceWhile_runs (p : ascii → bool) :
  p "000"%char = false →
  ∀ fuel lx, String.length source - current lx < fuel →
  ∃ k, advanceWhile p source fuel lx = Some (advanceBy k lx).
Proof.
  intros Hnul. induction fuel as [|fuel IH]; intros lx Hfuel; [lia|].
  cbn [advanceWhile]. destruct (p (peek source lx)) eqn:Hp.
  - assert (isAtEnd source lx = false) as Hend.
    { destruct (isAtEnd source lx) eqn:E; [|done].
      unfold peek in Hp. rewrite E in Hp. congruence. }
    apply bool_decide_eq_false in Hend.
    destruct (IH (advance source lx).2) as [k Hk]; [simpl; lia|].
    exists (S k). by rewrite Hk, advanceBy_S.
  - exists 0. by rewrite advanceBy_0.
Qed.

(** A loop over digits stops exactly at the end of the run it is in. *)
Lemma advanceWhile_digits (pre ds rest : string) :
  source = pre +:+ ds +:+ rest → allDigits ds = true → digitRun rest = "" →
  ∀ fuel lx, current lx = String.length pre → String.length ds < fuel →
  advanceWhile isDigit source fuel lx = Some (advanceBy (String.length ds) lx).
Proof.
  intros Hsrc Hds Hrest. revert pre Hsrc.
  induction ds as [|d ds IH]; intros pre Hsrc fuel lx Hcur Hfuel.
  - destruct fuel as [|fuel]; [simpl in Hfuel; lia|]. cbn [advanceWhile].
    rewrite (peek_at pre rest lx) by done.
    rewrite advanceBy_0.
    destruct rest as [|c rest]; [done|]. simpl in Hrest.
    by destruct (isDigit c).
  - destruct fuel as [|fuel]; [simpl in Hfuel; lia|]. cbn [advanceWhile].
    simpl in Hds, Hfuel, Hsrc. apply andb_prop in Hds as [Hd Hds].
    rewrite (peek_at pre (String d (ds +:+ rest)) lx) by done.
    rewrite Hd.
    rewrite (IH Hds (pre +:+ String d "")).
    + by rewrite advanceBy_S.
    + by rewrite Hsrc, app_cons_shift.
    + rewrite string_length_app. simpl. lia.
    + lia.
Qed.

Lemma get_in_range (s : string) i : i < String.length s → ∃ c, String.get i s = Some c.
Proof.
  revert i. induction s as [|c s IH]; intros i Hi; simpl in *; [lia|].
  destruct i as [|i]; [by exists c|]. apply IH. lia.
Qed.

Lemma extends_refl lx : extends lx lx.
Proof. split; [done|]. exists []. by rewrite app_nil_r. Qed.

Lemma extends_trans lx1 lx2 lx3 : extends lx1 lx2 → extends lx2 lx3 → extends lx1 lx3.
Proof.
  intros [? (n1 & E1 & F1)] [? (n2 & E2 & F2)]. split; [lia|].
  exists (n1 ++ n2). split; [by rewrite E2, E1, app_assoc|by apply Forall_app].
Qed.

Lemma extends_advanceBy k lx : extends lx (advanceBy k lx).
Proof. split; [simpl; lia|]. exists []. by rewrite app_nil_r. Qed.

Lemma extends_addToken ty lit lx : ty ≠ EOF → extends lx (addToken source ty lit lx).
Proof. intros Hty. split; [done|]. eexists [_]. split; [done|]. by constructor. Qed.

Lemma extends_addErrorToken lx : extends lx (addErrorToken source lx).
Proof. split; [done|]. eexists [_]. split; [done|]. by constructor. Qed.

Lemma extends_newline lx : extends lx (newline lx).
Proof. split; [done|]. exists []. by rewrite app_nil_r. Qed.

Lemma isDigit_nul : isDigit "000"%char = false.
Proof. reflexivity. Qed.

Lemma isAlphaNumeric_nul : isAlphaNumeric "000"%char = false.
Proof. reflexivity. Qed.

Lemma scanFuel_enough lx : String.length source - current lx < scanFuel source.
Proof. unfold scanFuel. lia. Qed.

Lemma scanNumber_runs lx : ∃ lx', scanNumber source lx = Some lx' ∧ extends lx lx'.
Proof.
  unfold scanNumber.
  destruct (advanceWhile_runs isDigit isDigit_nul _ lx (scanFuel_enough lx)) as [k ->].
  cbn [mbind option_bind]. set (lx1 := advanceBy k lx).
  destruct (_ && _).
  - destruct (advanceWhile_runs isDigit isDigit_nul _ (advance source lx1).2
                (scanFuel_enough _)) as [k2 ->].
    cbn [mbind option_bind]. eexists. split; [done|].
    eapply extends_trans; [apply (extends_advanceBy k)|].
    eapply extends_trans; [|by apply extends_addToken].
    fold lx1. eapply extends_trans; [|apply extends_advanceBy].
    split; [simpl; lia|]. exists []. by rewrite app_nil_r.
  - eexists. split; [done|].
    eapply extends_trans; [apply (extends_advanceBy k)|]. by apply extends_addToken.
Qed.

Lemma identifier_runs lx : ∃ lx', identifier source lx = Some lx' ∧ extends lx lx'.
Proof.
  unfold identifier.
  destruct (advanceWhile_runs isAlphaNumeric isAlphaNumeric_nul _ lx
              (scanFuel_enough lx)) as [k ->].
  cbn [mbind option_bind]. eexists. split; [done|].
  eapply extends_trans; [apply (extends_advanceBy k)|]. by apply extends_addToken.
Qed.

Lemma scanToken_digit lx c :
  String.get (current lx) source = Some c → isDigit c = true →
  scanToken source lx = scanNumber source (advance source lx).2.
Proof.
  intros Hget Hc. unfold scanToken, advance. rewrite Hget.
  destruct c as [[] [] [] [] [] [] [] []]; try discriminate Hc; reflexivity.
Qed.

Lemma digitRun_split (s : string) : s = digitRun s +:+ afterDigits s.
Proof.
  induction s as [|c s IH]; [done|]. simpl.
  destruct (isDigit c); simpl; congruence.
Qed.

Lemma digitRun_allDigits (s : string) : allDigits (digitRun s) = true.
Proof.
  induction s as [|c s IH]; [done|]. simpl.
  destruct (isDigit c) eqn:E; simpl; [by rewrite E|done].
Qed.

Lemma digitRun_afterDigits (s : string) : digitRun (afterDigits s) = "".
Proof.
  induction s as [|c s IH]; [done|]. simpl.
  destruct (isDigit c) eqn:E; simpl; [done|by rewrite E].
Qed.

Lemma peekNext_at (pre rest : string) lx :
  source = pre +:+ rest → current lx = String.length pre →
  peekNext source lx =
    match rest with String _ (String c _) => c | _ => "000"%char end.
Proof.
  intros -> Hcur. unfold peekNext. rewrite Hcur, string_length_app.
  destruct rest as [|c0 [|c rest]]; simpl.
  - rewrite bool_decide_eq_true_2 by lia. done.
  - rewrite bool_decide_eq_true_2 by lia. done.
  - rewrite bool_decide_eq_false_2 by lia. by rewrite get_app_skip.
Qed.

Lemma addToken_afterNumber lx lx1 ty lexeme :
  tokens lx1 = tokens lx → start lx1 = current lx →
  current lx1 = current lx + String.length lexeme →
  line lx1 = line lx → column lx1 = column lx + String.length lexeme →
  startColumn lx1 = column lx →
  jsSubstring source (current lx) (current lx + String.length lexeme) = lexeme →
  addToken source ty
    (Some (parseFloat (jsSubstring source (start lx1) (current lx1)))) lx1
  = afterNumber lx ty lexeme.
Proof.
  destruct lx1. cbn [tokens start current line column startColumn].
  intros -> -> -> -> -> -> Hsub.
  unfold addToken, afterNumber, pushToken, getPosition.
  cbn [tokens start current line column startColumn]. by rewrite Hsub.
Qed.

Lemma number_rule_general (pre whole rest : string) lx :
  source = pre +:+ whole +:+ rest →
  current lx = String.length pre →
  whole ≠ "" → allDigits whole = true → digitRun rest = "" →
  scanToken source (beginToken lx) =
    Some (afterNumber lx (numberToken whole rest).1 (numberToken whole rest).2).
Proof.
  intros Hsrc Hcur Hne Hall Hrest.
  destruct whole as [|d0 ds]; [done|]. simpl in Hall.
  apply andb_prop in Hall as [Hd0 Hds].
  rewrite (scanToken_digit _ d0); [| |done].
  2:{ cbn [beginToken current]. rewrite Hsrc, Hcur.
      replace (String.length pre) with (String.length pre + 0) by lia.
      by rewrite get_app_skip. }
  unfold scanNumber.
  rewrite (advanceWhile_digits (pre +:+ String d0 "") ds rest); try done.
  2:{ by rewrite Hsrc, app_assoc'. }
  2:{ lengths. }
  2:{ unfold scanFuel. rewrite Hsrc. lengths. }
  cbn [mbind option_bind].
  set (lx1 := advanceBy _ _).
  assert (source = (pre +:+ String d0 ds) +:+ rest) as Hsrc1
    by (by rewrite Hsrc, app_assoc').
  assert (current lx1 = String.length (pre +:+ String d0 ds)) as Hcur1.
  { subst lx1. lengths. }
  rewrite (peek_at _ _ lx1 Hsrc1 Hcur1), (peekNext_at _ _ lx1 Hsrc1 Hcur1).
  assert (∀ mid tail, source = pre +:+ mid +:+ tail →
            jsSubstring source (current lx)
              (current lx + String.length mid) = mid) as Hsub.
  { intros mid tail ->. rewrite Hcur. apply jsSubstring_app_mid. }
  assert (Some (addToken source INTEGER
            (Some (parseFloat (jsSubstring source (start lx1) (current lx1))))
            lx1) = Some (afterNumber lx INTEGER (String d0 ds))) as Hint.
  { f_equal. apply addToken_afterNumber; [..|by apply (Hsub _ rest)];
      subst lx1; simpl; try done; lengths. }
  destruct rest as [|c rest1]; [exact Hint|].
  destruct (Ascii.eqb_spec c "."%char) as [->|Hdot]; cycle 1.
  { replace (numberToken (String d0 ds) (String c rest1))
      with (INTEGER, String d0 ds); [exact Hint|].
    unfold numberToken.
    destruct c as [[] [] [] [] [] [] [] []]; try done. }
  cbn [andb numberToken].
  destruct rest1 as [|d rest2]; [exact Hint|].
  cbn [digitRun]. destruct (isDigit d) eqn:Hd; [|exact Hint].
  (* a dot and a digit follow *)
  clear Hint. set (fraction := String d (digitRun rest2)).
  assert (source =
          pre +:+ (String d0 ds +:+ "." +:+ fraction) +:+ afterDigits rest2)
    as Hsrc2.
  { rewrite Hsrc. unfold fraction. f_equal. rewrite app_assoc'. f_equal.
    simpl. do 2 f_equal. apply digitRun_split. }
  rewrite (advanceWhile_digits (pre +:+ String d0 ds +:+ ".")
             fraction (afterDigits rest2)).
  - cbn [mbind option_bind fst snd]. f_equal.
    apply addToken_afterNumber; [..|by apply (Hsub _ (afterDigits rest2))];
      subst lx1 fraction; simpl; try done; lengths.
  - rewrite Hsrc2. by rewrite !app_assoc'.
  - unfold fraction. simpl. by rewrite Hd, digitRun_allDigits.
  - apply digitRun_afterDigits.
  - subst lx1. lengths.
  - unfold scanFuel, fraction. rewrite Hsrc2. unfold fraction. lengths.
Qed.

Lemma scanToken_runs lx :
  ∃ lx', scanToken source lx = Some lx' ∧ current lx < current lx' ∧ extends lx lx'.
Proof.
  assert (extends lx (advance source lx).2) as Hadv.
  { split; [simpl; lia|]. exists []. by rewrite app_nil_r. }
  assert (∃ lx', scanToken source lx = Some lx' ∧ extends (advance source lx).2 lx')
    as (lx' & Hscan & Hext).
  { unfold scanToken. destruct (advance source lx) as [c lx1].
    destruct c as [c|]; [|eexists; split; [done|apply extends_addErrorToken]].
    destruct c as [[] [] [] [] [] [] [] []]; cbn -[scanNumber identifier];
      first [ apply scanNumber_runs | apply identifier_runs
            | eexists; split; [done|];
              first [ by apply extends_addToken | apply extends_addErrorToken
                    | apply extends_newline | apply extends_refl ] ]. }
  exists lx'. split; [done|]. split.
  - destruct Hext as [Hle _]. simpl in Hle. lia.
  - by eapply extends_trans.
Qed.

Lemma scanLoop_runs fuel : ∀ lx,
  String.length source - current lx < fuel →
  ∃ lx', scanLoop source fuel lx = Some lx' ∧ extends lx lx'.
Proof.
  induction fuel as [|fuel IH]; intros lx Hfuel; [lia|].
  cbn [scanLoop]. destruct (isAtEnd source lx) eqn:Hend.
  - exists lx. split; [done|apply extends_refl].
  - apply isAtEnd_false in Hend.
    destruct (scanToken_runs (beginToken lx)) as (lx1 & -> & Hlt & Hext).
    simpl in Hlt. cbn [mbind option_bind].
    destruct (IH lx1) as (lx' & -> & Hext'); [lia|].
    exists lx'. split; [done|].
    eapply extends_trans; [|done]. eapply extends_trans; [|done].
    split; [done|]. exists []. by rewrite app_nil_r.
Qed.

End LexerFacts.

(** C5. Whatever the source, [tokenize] returns; the tokens it returns
    are some tokens of a type other than [EOF] followed by one token of
    type [EOF], with the empty lexeme; every type is one of the thirteen. *)
Theorem tokenize_total_eof `{JsNumber} (source : string) :
  ∃ body eof,
    Lexer.tokenize source = Some (body ++ [eof])
    ∧ Forall (λ t, type t ≠ EOF) body
    ∧ type eof = EOF ∧ lexeme eof = ""
    ∧ Forall (λ t, type t ∈ allTokenTypes) (body ++ [eof]).
Proof.
  unfold Lexer.tokenize.
  destruct (scanLoop_runs source (Lexer.scanFuel source) Lexer.initial)
    as (lx & -> & _ & new & Hnew & Hall); [apply scanFuel_enough|].
  simpl in Hnew. exists (Lexer.tokens lx), (Lexer.eofToken lx).
  cbn [mbind option_bind]. rewrite Hnew.
  repeat split; try done.
  apply Forall_forall. intros t _. unfold allTokenTypes.
  destruct (type t); set_solver.
Qed.


(** ** The parser *)

Section ParserFacts.
Context `{JsNumber}.
Variable tokens : list Token.
Import Parser.

Lemma post_bind {A B} (m : M A) (k : A → M B) p Q E F :
  post (m p) (λ a p', post (k a p') Q E F) E F → post (bind m k p) Q E F.
Proof. unfold bind. by destruct (m p). Qed.

Lemma post_mono {A} (r : Result A) (Q Q' : A → Parser → Prop)
    (E E' : Exception → Parser → Prop) (F F' : Prop) :
  post r Q E F → (∀ a p, Q a p → Q' a p) → (∀ e p, E e p → E' e p) →
  (F → F') → post r Q' E' F'.
Proof. destruct r; simpl; eauto. Qed.

(** Every primitive acts on what [tokens !! current] is. *)
Lemma isAtEnd_eq p :
  isAtEnd tokens p =
    match tokens !! current p with
    | Some t => Ok (bool_decide (type t = EOF)) p
    | None => Thrown TypeError p
    end.
Proof. unfold isAtEnd, bind, peek, defined. by destruct (tokens !! current p). Qed.

Lemma check_eq ty p :
  check tokens ty p =
    match tokens !! current p with
    | Some t => Ok (bool_decide (type t ≠ EOF ∧ type t = ty)) p
    | None => Thrown TypeError p
    end.
Proof.
  unfold check, bind. rewrite isAtEnd_eq. unfold peek, defined, ret.
  destruct (tokens !! current p) as [t|] eqn:Ht; [|done].
  case_bool_decide as Heof; simpl.
  - by rewrite bool_decide_eq_false_2 by naive_solver.
  - rewrite Ht. f_equal. apply bool_decide_ext. naive_solver.
Qed.

Lemma advance_eq p :
  advance tokens p =
    match tokens !! current p with
    | Some t =>
        if bool_decide (type t = EOF)
        then Ok (match current p with O => None | S i => tokens !! i end) p
        else Ok (Some t) (stepped p)
    | None => Thrown TypeError p
    end.
Proof.
  unfold advance, bind. rewrite isAtEnd_eq.
  destruct (tokens !! current p) as [t|] eqn:Ht; [|done].
  case_bool_decide; simpl; [done|].
  unfold previous, stepped. cbn [current]. by rewrite Ht.
Qed.

Lemma matchAny_eq ty types p :
  matchAny tokens (ty :: types) p =
    match tokens !! current p with
    | Some t =>
        if bool_decide (type t ≠ EOF ∧ type t ∈ ty :: types)
        then Ok true (stepped p) else Ok false p
    | None => Thrown TypeError p
    end.
Proof.
  assert (∀ ty types, matchAny tokens (ty :: types) =
            bind (check tokens ty) (λ found,
              if found then bind (advance tokens) (λ _, ret true)
              else matchAny tokens types)) as Hcons by done.
  revert ty. induction types as [|ty' types IH]; intros ty;
    rewrite Hcons; unfold bind; rewrite check_eq;
    destruct (tokens !! current p) as [t|] eqn:Ht; try done.
  - case_bool_decide as Hty.
    + rewrite advance_eq, Ht. destruct Hty as [Heof Hty].
      rewrite bool_decide_eq_false_2 by done. unfold ret.
      by rewrite bool_decide_eq_true_2 by set_solver.
    + unfold ret. by rewrite bool_decide_eq_false_2 by set_solver.
  - case_bool_decide as Hty.
    + rewrite advance_eq, Ht. destruct Hty as [Heof Hty].
      rewrite bool_decide_eq_false_2 by done. unfold ret.
      by rewrite bool_decide_eq_true_2 by set_solver.
    + rewrite IH.
      destruct (decide (type t = EOF)).
      * by rewrite !bool_decide_eq_false_2 by naive_solver.
      * case_bool_decide; case_bool_decide; try done; set_solver.
Qed.

Lemma previous_stepped p :
  previous tokens (stepped p) = Ok (tokens !! current p) (stepped p).
Proof. done. Qed.


Lemma failed_moved p p1 e p2 :
  errors p1 = errors p → failed p1 e p2 → failed p e p2.
Proof. unfold failed. by intros ->. Qed.

Lemma lookup_in_range p t : tokens !! current p = Some t → current p < length tokens.
Proof. apply lookup_lt_Some. Qed.

Lemma expect_eq ty message p :
  expect tokens ty message p =
    match tokens !! current p with
    | Some t =>
        if bool_decide (type t ≠ EOF ∧ type t = ty)
        then Ok (Some t) (stepped p)
        else Thrown (Error message)
               (mkParser (current p)
                  (errors p ++
                   [mkCompilerError syntax message (position t)
                      (Some (tokenTypeName ty))
                      (Some (tokenTypeName (type t))) None]))
    | None => Thrown TypeError p
    end.
Proof.
  unfold expect, bind. rewrite check_eq.
  destruct (tokens !! current p) as [t|] eqn:Ht; [|done].
  case_bool_decide as Hty.
  - rewrite advance_eq, Ht. destruct Hty as [Heof _].
    by rewrite bool_decide_eq_false_2 by done.
  - unfold peek. by rewrite Ht.
Qed.

Ltac facts :=
  unfold moved, failed, remaining, stepped in *; cbn [current errors] in *.

(** Closing a leaf of a symbolic run: the induction hypotheses are dropped,
    equal error lists identified, and arithmetic left to [lia]. *)
Ltac close :=
  cbn [ret throw post];
  repeat match goal with H : ∀ _ : Parser, _ |- _ => clear H end;
  facts;
  repeat match goal with
         | H : _ ∧ _ |- _ => destruct H
         | H : errors ?a = errors ?b |- _ => rewrite H in *; clear H
         | H : errors ?a = _ ++ _ |- _ => rewrite H in *; clear H
         | H : _ ∨ _ |- _ => destruct H as [H|[? H]]
         end;
  first [ done | lia
        | split_and!; first [done | lia]
        | left; done
        | right; eexists; done ].

Ltac case_token :=
  lazymatch goal with
  | Ht : tokens !! current ?p = Some _ |- context [tokens !! current ?p] =>
      rewrite Ht
  | |- context [tokens !! current ?p] =>
      let t := fresh "t" in let Ht := fresh "Ht" in
      destruct (tokens !! current p) as [t|] eqn:Ht;
      [ pose proof (lookup_in_range _ _ Ht) | try close ]
  end.

Ltac run_match :=
  apply post_bind; rewrite matchAny_eq; case_token;
  [ let Hty := fresh "Hty" in case_bool_decide as Hty; cbn [post] | .. ].

Ltac run_previous :=
  apply post_bind; rewrite previous_stepped; cbn [post];
  apply post_bind;
  lazymatch goal with
  | Ht : tokens !! current ?p = Some ?t
    |- context [defined (tokens !! current ?p)] =>
      rewrite Ht; cbn [defined ret post]
  end.

Ltac call IH :=
  apply post_bind; eapply post_mono;
  [ apply IH; facts; lia
  | let a := fresh "a" in let p := fresh "p" in let Hm := fresh "Hm" in
    intros a p Hm; cbn beta
  | let e := fresh "e" in let p := fresh "p" in let Hf := fresh "Hf" in
    intros e p Hf; close
  | done ].

Ltac tail_call IH :=
  eapply post_mono;
  [ apply IH; facts; lia
  | let a := fresh "a" in let p := fresh "p" in let Hm := fresh "Hm" in
    intros a p Hm; close
  | let e := fresh "e" in let p := fresh "p" in let Hf := fresh "Hf" in
    intros e p Hf; close
  | done ].

Lemma expr_post n :
  (∀ p, 8 * remaining tokens p + 1 ≤ n →
     post (parsePrimary tokens n p) (moved 1 (S (length tokens)) p) (failed p) False)
  ∧ (∀ p, 8 * remaining tokens p + 2 ≤ n →
     post (parseUnary tokens n p) (moved 1 (S (length tokens)) p) (failed p) False)
  ∧ (∀ p, 8 * remaining tokens p + 3 ≤ n →
     post (parsePower tokens n p) (moved 1 (length tokens) p) (failed p) False)
  ∧ (∀ p left, 8 * remaining tokens p + 4 ≤ n →
     post (multiplicativeLoop tokens n left p) (moved 0 (length tokens) p) (failed p) False)
  ∧ (∀ p, 8 * remaining tokens p + 5 ≤ n →
     post (parseMultiplicative tokens n p) (moved 1 (length tokens) p) (failed p) False)
  ∧ (∀ p left, 8 * remaining tokens p + 6 ≤ n →
     post (additiveLoop tokens n left p) (moved 0 (length tokens) p) (failed p) False)
  ∧ (∀ p, 8 * remaining tokens p + 7 ≤ n →
     post (parseAdditive tokens n p) (moved 1 (length tokens) p) (failed p) False)
  ∧ (∀ p, 8 * remaining tokens p + 8 ≤ n →
     post (parseExpression tokens n p) (moved 1 (length tokens) p) (failed p) False).
Proof.
  induction n as [|n (IHprimary & IHunary & IHpower & IHmloop & IHmult & IHaloop
                      & IHadd & IHexpr)].
  { repeat split; intros; lia. }
  repeat split.
  - (* parsePrimary *)
    intros p Hn. cbn [parsePrimary].
    run_match; [run_previous; close|].
    run_match; [run_previous; close|].
    run_match; [run_previous; close|].
    run_match.
    + call IHexpr. destruct Hm as (He & Hc & Hb).
      apply post_bind. rewrite expect_eq. case_token.
      case_bool_decide; cbn [post]; close.
    + apply post_bind. unfold peek. cbn [post]. rewrite Ht. close.
  - (* parseUnary *)
    intros p Hn. cbn [parseUnary].
    run_match.
    + run_previous. call IHunary. close.
    + tail_call IHprimary.
  - (* parsePower *)
    intros p Hn. cbn [parsePower].
    call IHunary. destruct Hm as (He & Hc & Hb).
    run_match.
    + run_previous. call IHpower. close.
    + close.
  - (* multiplicativeLoop *)
    intros p left Hn. cbn [multiplicativeLoop].
    run_match.
    + run_previous. call IHpower. tail_call IHmloop.
    + close.
  - (* parseMultiplicative *)
    intros p Hn. cbn [parseMultiplicative].
    call IHpower. tail_call IHmloop.
  - (* additiveLoop *)
    intros p left Hn. cbn [additiveLoop].
    run_match.
    + run_previous. call IHmult. tail_call IHaloop.
    + close.
  - (* parseAdditive *)
    intros p Hn. cbn [parseAdditive].
    call IHmult. tail_call IHaloop.
  - (* parseExpression *)
    intros p Hn. cbn [parseExpression]. tail_call IHadd.
Qed.


Lemma expr_post_expression n p :
  8 * remaining tokens p + 8 ≤ n →
  post (parseExpression tokens n p) (moved 1 (length tokens) p) (failed p) False.
Proof. apply expr_post. Qed.

Lemma skipErrors_post n : ∀ p,
  remaining tokens p + 1 ≤ n →
  post (skipErrors tokens n p) (moved 0 (length tokens) p) (failed p) False.
Proof.
  induction n as [|n IH]; intros p Hn; [lia|].
  cbn [skipErrors]. apply post_bind. rewrite check_eq. case_token.
  cbn [post]. case_bool_decide; [|close].
  apply post_bind. rewrite advance_eq, Ht.
  rewrite bool_decide_eq_false_2 by naive_solver. cbn [post].
  tail_call IH.
Qed.

Lemma nextIsEquals_state p :
  ∃ b, nextIsEquals tokens p = Ok b p.
Proof. unfold nextIsEquals, bind, lookAhead, ret. eauto. Qed.

Lemma parseAssignment_post n p t :
  8 * remaining tokens p + 8 ≤ n →
  tokens !! current p = Some t → type t ≠ EOF →
  post (parseAssignment tokens n p) (moved 1 (length tokens) p) (failed p) False.
Proof.
  intros Hn Ht Heof. unfold parseAssignment.
  pose proof (lookup_in_range _ _ Ht).
  apply post_bind. rewrite advance_eq, Ht.
  rewrite bool_decide_eq_false_2 by done. cbn [post defined ret].
  apply post_bind. cbn [post ret]. apply post_bind.
  rewrite advance_eq. case_token.
  case_bool_decide; cbn [post].
  - call (expr_post_expression n). close.
  - call (expr_post_expression n). close.
Qed.

Lemma parseStatement_post n p :
  8 * remaining tokens p + 8 ≤ n →
  post (parseStatement tokens n p) (statementDone tokens p) (failed p) False.
Proof.
  intros Hn. unfold parseStatement.
  call skipErrors_post. destruct Hm as (He & Hc & Hb).
  apply post_bind. rewrite isAtEnd_eq. case_token. cbn [post].
  case_bool_decide as Heof.
  { cbn [ret post]. unfold statementDone. split_and!; [done|done|lia|eauto]. }
  apply post_bind. rewrite check_eq, Ht. cbn [post].
  apply post_bind.
  assert (∃ b, (if bool_decide (type t ≠ EOF ∧ type t = IDENTIFIER)
                then nextIsEquals tokens else ret false) p0 = Ok b p0)
    as [isAssignment ->].
  { case_bool_decide; [apply nextIsEquals_state|by eexists]. }
  cbn [post]. destruct isAssignment.
  - apply post_bind. eapply post_mono;
      [ apply (parseAssignment_post n p0 t); [facts; lia|done|done]
      | intros stmt p1 Hm; cbn [ret post]; unfold statementDone; close
      | intros e p1 Hf; close
      | done ].
  - call (expr_post_expression n).
    cbn [ret post]. unfold statementDone. close.
Qed.

Lemma parseLoop_errors n : ∀ loopFuel statements p,
  8 * length tokens + 8 ≤ n →
  remaining tokens p + 2 ≤ loopFuel →
  current p < length tokens →
  errors p = [] →
  match parseLoop tokens n loopFuel statements p with
  | Returns r => length (ParseResult.errors r) ≤ 1
  | Raises _ | Unfinished => False
  end.
Proof.
  induction loopFuel as [|loopFuel IH]; intros statements p Hn Hfuel Hin Herr;
    [lia|].
  cbn [parseLoop]. rewrite isAtEnd_eq.
  destruct (lookup_lt_is_Some_2 tokens (current p) Hin) as [t Ht]. rewrite Ht.
  case_bool_decide as Heof; [cbn; rewrite Herr; simpl; lia|].
  pose proof (parseStatement_post n p) as Hstmt.
  destruct (parseStatement tokens n p) as [[stmt|] p'|e p'|]; cbn [post] in Hstmt.
  - destruct Hstmt as (He & Hb & Hc); [unfold remaining; lia|].
    apply IH; unfold remaining in *; try done; try lia. congruence.
  - destruct Hstmt as (He & Hb & Hc & t' & Ht' & Heof');
      [unfold remaining; lia|].
    assert (current p ≠ current p') by (intros Heq; congruence).
    apply IH; unfold remaining in *; try done; try lia. congruence.
  - destruct Hstmt as [He|[err He]]; [unfold remaining; lia|..];
      cbn [ParseResult.errors]; rewrite He, Herr; simpl; lia.
  - apply Hstmt. unfold remaining; lia.
Qed.

(** *** The parser builds trees without [resolvedType] *)

Ltac call_plain IH :=
  apply post_bind; eapply post_mono;
  [ apply IH; try done
  | let a := fresh "a" in let p := fresh "p" in let Hm := fresh "Hm" in
    intros a p Hm; unfold plain in Hm; cbn beta
  | done
  | done ].

Ltac close_plain :=
  cbn [ret throw post]; unfold plain, createLiteralNode, createVariableNode,
    makeBinary in *;
  cbn [unannotated];
  repeat match goal with H : unannotated _ = true |- _ => rewrite H end;
  done.

Lemma expr_plain n :
  (∀ p, post (parsePrimary tokens n p) plain (λ _ _, True) True)
  ∧ (∀ p, post (parseUnary tokens n p) plain (λ _ _, True) True)
  ∧ (∀ p, post (parsePower tokens n p) plain (λ _ _, True) True)
  ∧ (∀ p left, unannotated left = true →
       post (multiplicativeLoop tokens n left p) plain (λ _ _, True) True)
  ∧ (∀ p, post (parseMultiplicative tokens n p) plain (λ _ _, True) True)
  ∧ (∀ p left, unannotated left = true →
       post (additiveLoop tokens n left p) plain (λ _ _, True) True)
  ∧ (∀ p, post (parseAdditive tokens n p) plain (λ _ _, True) True)
  ∧ (∀ p, post (parseExpression tokens n p) plain (λ _ _, True) True).
Proof.
  induction n as [|n (IHprimary & IHunary & IHpower & IHmloop & IHmult & IHaloop
                      & IHadd & IHexpr)]; [by repeat split|].
  repeat split.
  - intros p. cbn [parsePrimary].
    run_match; [run_previous; close_plain|].
    run_match; [run_previous; close_plain|].
    run_match; [run_previous; close_plain|].
    run_match; [|apply post_bind; unfold peek; cbn [post]; rewrite Ht; done].
    call_plain IHexpr.
    apply post_bind. rewrite expect_eq.
    destruct (tokens !! current p0); [|done].
    case_bool_decide; [close_plain|done].
  - intros p. cbn [parseUnary].
    run_match; [|apply IHprimary].
    run_previous. call_plain IHunary. close_plain.
  - intros p. cbn [parsePower].
    call_plain IHunary. run_match; [|close_plain].
    run_previous. call_plain IHpower. close_plain.
  - intros p left Hleft. cbn [multiplicativeLoop].
    run_match; [|close_plain].
    run_previous. call_plain IHpower. apply IHmloop. close_plain.
  - intros p. cbn [parseMultiplicative].
    call_plain IHpower. by apply IHmloop.
  - intros p left Hleft. cbn [additiveLoop].
    run_match; [|close_plain].
    run_previous. call_plain IHmult. apply IHaloop. close_plain.
  - intros p. cbn [parseAdditive].
    call_plain IHmult. by apply IHaloop.
  - intros p. cbn [parseExpression]. apply IHadd.
Qed.

Lemma parseStatement_plain n p :
  post (parseStatement tokens n p)
    (λ r _, from_option (λ node, unannotated node = true) True r)
    (λ _ _, True) True.
Proof.
  unfold parseStatement. apply post_bind.
  destruct (skipErrors tokens n p) as [[] p0| |]; cbn [post]; try done.
  apply post_bind. rewrite isAtEnd_eq.
  destruct (tokens !! current p0) as [t|] eqn:Ht; [|done]. cbn [post].
  case_bool_decide; [done|].
  apply post_bind. rewrite check_eq, Ht. cbn [post]. apply post_bind.
  assert (∃ b, (if bool_decide (type t ≠ EOF ∧ type t = IDENTIFIER)
                then nextIsEquals tokens else ret false) p0 = Ok b p0)
    as [isAssignment ->].
  { case_bool_decide; [apply nextIsEquals_state|by eexists]. }
  cbn [post]. destruct isAssignment.
  - apply post_bind. unfold parseAssignment. apply post_bind.
    destruct (advance tokens p0) as [[nameToken|] p1| |]; cbn [post]; try done.
    apply post_bind. cbn [defined ret post]. apply post_bind.
    destruct (advance tokens p1) as [? p2| |]; cbn [post]; try done.
    call_plain (proj2 (proj2 (proj2 (proj2 (proj2 (proj2 (proj2
                  (expr_plain n)))))))).
    close_plain.
  - call_plain (proj2 (proj2 (proj2 (proj2 (proj2 (proj2 (proj2
                  (expr_plain n)))))))).
    close_plain.
Qed.

Lemma parseLoop_plain n : ∀ loopFuel statements p r,
  forallb unannotated statements = true →
  parseLoop tokens n loopFuel statements p = Returns r →
  forallb unannotated (ParseResult.ast r) = true.
Proof.
  induction loopFuel as [|loopFuel IH]; intros statements p r Hplain Hrun;
    [done|].
  cbn [parseLoop] in Hrun.
  destruct (isAtEnd tokens p) as [[] p0| |]; try done.
  { by injection Hrun as <-. }
  pose proof (parseStatement_plain n p0) as Hstmt.
  destruct (parseStatement tokens n p0) as [[stmt|] p1|e p1|];
    cbn [post from_option] in Hstmt; try done.
  - eapply IH; [|exact Hrun].
    rewrite forallb_app. simpl. by rewrite Hplain, Hstmt.
  - by apply (IH _ _ _ Hplain Hrun).
  - by injection Hrun as <-.
Qed.

Lemma skipErrors_run count : ∀ n p,
  count < n → errorRun tokens p count →
  skipErrors tokens n p = Ok () (mkParser (current p + count) (errors p)).
Proof.
  induction count as [|count IH]; intros [|n] p Hn [Hrun (t & Ht & Hty)];
    try lia; cbn [skipErrors]; unfold bind; rewrite check_eq.
  - rewrite Nat.add_0_r in *. rewrite Ht.
    rewrite bool_decide_eq_false_2 by naive_solver.
    unfold ret. by destruct p.
  - destruct (Hrun 0) as (t0 & Ht0 & Hty0); [lia|].
    rewrite Nat.add_0_r in Ht0. rewrite Ht0.
    rewrite bool_decide_eq_true_2 by (by rewrite Hty0).
    rewrite advance_eq, Ht0, bool_decide_eq_false_2 by (by rewrite Hty0).
    rewrite (IH n (stepped p)); [| lia |].
    + cbn [stepped current errors]. do 2 f_equal. lia.
    + split.
      * intros i Hi. destruct (Hrun (S i)) as (ti & Hti & Htyi); [lia|].
        exists ti. split; [|done]. rewrite <- Hti. f_equal. cbn. lia.
      * exists t. split; [|done]. rewrite <- Ht. f_equal. cbn. lia.
Qed.

Lemma parseStatement_skips count n p :
  count < n → errorRun tokens p count →
  parseStatement tokens n p
  = parseStatement tokens n (mkParser (current p + count) (errors p)).
Proof.
  intros Hn Hrun. unfold parseStatement, bind.
  rewrite (skipErrors_run count) by done.
  rewrite (skipErrors_run 0 n (mkParser (current p + count) (errors p))).
  - cbn [current errors]. by rewrite Nat.add_0_r.
  - lia.
  - destruct Hrun as [_ Hnext]. split; [intros; lia|].
    cbn [current]. by rewrite Nat.add_0_r.
Qed.

Lemma parsePrimary_error n p t :
  tokens !! current p = Some t → type t = ERROR →
  parsePrimary tokens (S n) p
  = Thrown (Error "Expected expression")
      (mkParser (current p)
         (errors p ++
          [mkCompilerError syntax "Expected expression" (position t)
             (Some "expression") (Some "ERROR") None])).
Proof.
  intros Ht Hty. cbn [parsePrimary]. unfold bind.
  repeat (rewrite matchAny_eq, Ht;
          rewrite bool_decide_eq_false_2 by (rewrite Hty; set_solver)).
  unfold peek, defined, ret, addError, throw. rewrite Ht. by rewrite Hty.
Qed.

(** Every level of the expression grammar started on an [ERROR] token ends
    in [parsePrimary] there. *)
Lemma operand_error n p t :
  tokens !! current p = Some t → type t = ERROR →
  let thrown : Result ASTNode :=
    Thrown (Error "Expected expression")
      (mkParser (current p)
         (errors p ++
          [mkCompilerError syntax "Expected expression" (position t)
             (Some "expression") (Some "ERROR") None])) in
  parseUnary tokens (2 + n) p = thrown
  ∧ parsePower tokens (3 + n) p = thrown
  ∧ parseMultiplicative tokens (4 + n) p = thrown
  ∧ parseAdditive tokens (5 + n) p = thrown
  ∧ parseExpression tokens (6 + n) p = thrown.
Proof.
  intros Ht Hty thrown.
  assert (parseUnary tokens (2 + n) p = thrown) as Hunary.
  { cbn [Nat.add parseUnary]. unfold bind. rewrite matchAny_eq, Ht.
    rewrite bool_decide_eq_false_2 by (rewrite Hty; set_solver).
    by apply parsePrimary_error. }
  assert (parsePower tokens (3 + n) p = thrown) as Hpower.
  { change (3 + n) with (S (2 + n)). cbn [parsePower]. unfold bind.
    by rewrite Hunary. }
  assert (parseMultiplicative tokens (4 + n) p = thrown) as Hmul.
  { change (4 + n) with (S (3 + n)). cbn [parseMultiplicative]. unfold bind.
    by rewrite Hpower. }
  assert (parseAdditive tokens (5 + n) p = thrown) as Hadd.
  { change (5 + n) with (S (4 + n)). cbn [parseAdditive]. unfold bind.
    by rewrite Hmul. }
  by split_and!.
Qed.

(** The statement behind a run of [ERROR] tokens: the parser returns or
    throws, and what it returns has recorded no error and left the run
    behind. *)
Lemma parseStatement_behind count n p :
  8 * remaining tokens p + 8 ≤ n → errorRun tokens p count →
  count < n
  ∧ post (parseStatement tokens n p)
      (λ _ p', errors p' = errors p ∧ current p + count ≤ current p')
      (failed p) False.
Proof.
  intros Hn Hrun.
  assert (count < n) as Hcount.
  { destruct Hrun as [_ (t & Ht & _)]. apply lookup_lt_Some in Ht.
    unfold remaining in Hn. lia. }
  split; [done|]. rewrite (parseStatement_skips count) by done.
  set (q := mkParser (current p + count) (errors p)).
  pose proof (parseStatement_post n q) as Hpost.
  assert (8 * remaining tokens q + 8 ≤ n) as Hq
    by (unfold remaining, q in *; simpl; lia).
  specialize (Hpost Hq).
  destruct (parseStatement tokens n q) as [stmt p'|e p'|]; cbn [post] in *.
  - destruct Hpost as (Herr & _ & Hcur). split; [done|].
    unfold q in Hcur. simpl in Hcur. destruct stmt; lia.
  - done.
  - done.
Qed.

End ParserFacts.

Ltac operand_cases a Ha :=
  let ty := fresh "ty" in
  destruct a as [ty ? ? ?]; cbn in Ha; destruct ty; try discriminate Ha;
  clear Ha.

(** C4. With [a], [b] and [c] operands: [a ^ b ^ c] is parsed as
    [a ^ (b ^ c)], [a - b - c] as [(a - b) - c], [a + b * c] as
    [a + (b * c)] and [a - b / c] as [a - (b / c)]; parentheses decide
    otherwise, [(a ^ b) ^ c], [a - (b - c)] and [(a + b) * c] being parsed
    as written.  Evaluating the first four trees therefore gives
    [a ^ (b ^ c)], [(a - b) - c], [a + b * c] and [a - b / c], whatever the
    arithmetic of numbers is. *)
Theorem precedence_and_associativity `{JsNumber} (a b c eof : Token)
    (p1 p2 q1 q2 : Position) :
  isOperandToken a = true → isOperandToken b = true →
  isOperandToken c = true → type eof = EOF →
  let A := operandNode a in
  let B := operandNode b in
  let C := operandNode c in
  let op ty lexeme pos := symbolToken ty lexeme pos in
  let lparen := symbolToken LPAREN "(" q1 in
  let rparen := symbolToken RPAREN ")" q2 in
  (parsesTo [a; op CARET "^" p1; b; op CARET "^" p2; c; eof]
     (binary "^" p1 A (binary "^" p2 B C))
   ∧ parsesTo [a; op MINUS "-" p1; b; op MINUS "-" p2; c; eof]
       (binary "-" p2 (binary "-" p1 A B) C)
   ∧ parsesTo [a; op PLUS "+" p1; b; op STAR "*" p2; c; eof]
       (binary "+" p1 A (binary "*" p2 B C))
   ∧ parsesTo [a; op MINUS "-" p1; b; op SLASH "/" p2; c; eof]
       (binary "-" p1 A (binary "/" p2 B C))
   ∧ parsesTo
       [lparen; a; op CARET "^" p1; b; rparen; op CARET "^" p2; c; eof]
       (binary "^" p2 (binary "^" p1 A B) C)
   ∧ parsesTo
       [a; op MINUS "-" p1; lparen; b; op MINUS "-" p2; c; rparen; eof]
       (binary "-" p1 A (binary "-" p2 B C))
   ∧ parsesTo
       [lparen; a; op PLUS "+" p1; b; rparen; op STAR "*" p2; c; eof]
       (binary "*" p2 (binary "+" p1 A B) C))
  ∧ ∀ (add sub mul div pow : number → number → number)
      (neg : number → number) (variables : gmap string number),
      let evaluate := ParserTest.evaluate add sub mul div pow neg variables in
      let operands (f : number → number → number → number) :=
        va ← evaluate A; vb ← evaluate B; vc ← evaluate C;
        Some (f va vb vc) in
      evaluate (binary "^" p1 A (binary "^" p2 B C))
        = operands (λ va vb vc, pow va (pow vb vc))
      ∧ evaluate (binary "-" p2 (binary "-" p1 A B) C)
        = operands (λ va vb vc, sub (sub va vb) vc)
      ∧ evaluate (binary "+" p1 A (binary "*" p2 B C))
        = operands (λ va vb vc, add va (mul vb vc))
      ∧ evaluate (binary "-" p1 A (binary "/" p2 B C))
        = operands (λ va vb vc, sub va (div vb vc)).
Proof.
  intros Ha Hb Hc Heof A B C op lparen rparen. split.
  - subst A B C op lparen rparen.
    destruct eof as [tye ? ? ?]. simpl in Heof. subst tye.
    unfold isOperandToken in *.
    operand_cases a Ha; operand_cases b Hb; operand_cases c Hc;
      unfold parsesTo; split_and!; vm_compute; reflexivity.
  - intros add sub mul div pow neg variables evaluate operands.
    subst evaluate operands. unfold binary. cbn [ParserTest.evaluate].
    generalize (ParserTest.evaluate add sub mul div pow neg variables A),
      (ParserTest.evaluate add sub mul div pow neg variables B),
      (ParserTest.evaluate add sub mul div pow neg variables C).
    intros [va|] [vb|] [vc|]; split_and!; reflexivity.
Qed.

(** The tokens of ["2 ^ 3 ^ 2"]. *)
Lemma precedence_and_associativity_witness :
  let number lexeme value column :=
    mkToken (H:=decimalNumber) INTEGER lexeme (mkPosition 1 column)
      (Some value) in
  let literal value column :=
    LiteralNode (H:=decimalNumber) value Integer (mkPosition 1 column) None in
  parsesTo
    [number "2" 2%Q 1; symbolToken CARET "^" (mkPosition 1 3);
     number "3" 3%Q 5; symbolToken CARET "^" (mkPosition 1 7);
     number "2" 2%Q 9; mkToken EOF "" (mkPosition 1 10) None]
    (binary "^" (mkPosition 1 3) (literal 2%Q 1)
       (binary "^" (mkPosition 1 7) (literal 3%Q 5) (literal 2%Q 9))).
Proof.
  intros number literal.
  exact (proj1 (proj1 (precedence_and_associativity
                         (number "2" 2%Q 1) (number "3" 3%Q 5)
                         (number "2" 2%Q 9)
                         (mkToken EOF "" (mkPosition 1 10) None)
                         (mkPosition 1 3) (mkPosition 1 7)
                         (mkPosition 1 1) (mkPosition 1 1)
                         eq_refl eq_refl eq_refl eq_refl))).
Defined.

(** The trees of ["2 ^ 3 ^ 2"] and ["10 - 4 - 3"], evaluated over the
    rationals: 2 ^ 9 and 3, not 8 ^ 2 and 9. *)
Example power_of_power_evaluated :
  let evaluate :=
    ParserTest.evaluate (H:=decimalNumber) Qplus Qminus Qmult Qdiv
      (λ x y, Qpower x (Qnum y)) Qopp ∅ in
  let value source :=
    match Parser.parse <$> Lexer.tokenize source with
    | Some (Parser.Returns (ParseResult.mk [tree] [])) => evaluate tree
    | _ => None
    end in
  value "2 ^ 3 ^ 2" = Some 512%Q ∧ value "10 - 4 - 3" = Some 3%Q.
Proof. split; vm_compute; reflexivity. Qed.

(** Every tree [parse] returns is without [resolvedType]. *)
Lemma parse_unannotated `{JsNumber} (tokens : list Token) r :
  Parser.parse tokens = Parser.Returns r →
  forallb unannotated (ParseResult.ast r) = true.
Proof. unfold Parser.parse. by apply parseLoop_plain. Qed.

(** C3. Whatever the tokens, [parse] comes to an end; when it returns, the
    list of errors it returns has at most one element; and it raises only
    on the empty array, which has no token to look at. *)
Theorem parse_errors_at_most_one `{JsNumber} (tokens : list Token) :
  match Parser.parse tokens with
  | Parser.Returns r => length (ParseResult.errors r) ≤ 1
  | Parser.Raises e => tokens = [] ∧ e = Parser.TypeError
  | Parser.Unfinished => False
  end.
Proof.
  destruct tokens as [|t tokens]; [done|].
  pose proof (parseLoop_errors (t :: tokens) (Parser.parseFuel (t :: tokens))
                (Parser.parseFuel (t :: tokens)) [] (Parser.mkParser 0 [])) as Hloop.
  unfold Parser.parse.
  destruct (Parser.parseLoop _ _ _ _ _); [|exfalso..]; apply Hloop;
    unfold Parser.parseFuel, remaining; simpl; try done; lia.
Qed.


(** ** The semantic analyser *)

Section SemanticFacts.
Context `{JsNumber}.
Import Semantic.

Lemma unannotated_freshVariables node :
  unannotated node = true → freshVariables node = true.
Proof.
  induction node as [name value IH pos|op l IHl r IHr pos rt|op operand IH pos rt
                    |value dt pos rt|name pos rt]; simpl; try done.
  - intros [[Hl Hr]%andb_prop _]%andb_prop. by rewrite IHl, IHr.
  - intros [Hoperand _]%andb_prop. by apply IH.
Qed.

Lemma forallb_freshVariables ast :
  forallb unannotated ast = true → forallb freshVariables ast = true.
Proof.
  induction ast as [|node ast IH]; [done|]. simpl.
  intros [Hnode Hast]%andb_prop.
  by rewrite (unannotated_freshVariables node Hnode), IH.
Qed.

(** The analyser follows [resolve], whatever the forest carries. *)
Lemma analyzeNode_resolve node : ∀ a,
  let '(annotated, a') := analyzeNode node a in
  let '(ty, undefined, table) := resolve (symbolTable a) node in
  getResolvedType annotated = ty
  ∧ symbolTable a' = table
  ∧ errors a' = errors a ++ (undefinedError <$> undefined).
Proof.
  induction node as [name value IH pos|op l IHl r IHr pos rt|op operand IH pos rt
                    |value dt pos rt|name pos rt]; intros a.
  - cbn [analyzeNode resolve]. unfold analyzeAssignment.
    specialize (IH a).
    destruct (analyzeNode value a) as [annotated a1].
    destruct (resolve (symbolTable a) value) as [[ty undefined] table].
    destruct IH as (Hty & Htable & Herr). cbn [getResolvedType].
    rewrite Hty. destruct ty; simpl; by rewrite ?Htable.
  - cbn [analyzeNode resolve]. unfold analyzeBinaryExpr.
    specialize (IHl a).
    destruct (analyzeNode l a) as [annotatedLeft a1].
    destruct (resolve (symbolTable a) l) as [[tl ul] table1].
    destruct IHl as (Htl & Htable1 & Herr1).
    specialize (IHr a1). rewrite Htable1 in IHr.
    destruct (analyzeNode r a1) as [annotatedRight a2].
    destruct (resolve table1 r) as [[tr ur] table2].
    destruct IHr as (Htr & Htable2 & Herr2).
    cbn [getResolvedType]. rewrite Htl, Htr. split_and!; [|done|].
    + destruct tl as [[]|], tr as [[]|]; try done;
        unfold binaryResultType, promote; by case_bool_decide.
    + by rewrite Herr2, Herr1, fmap_app, app_assoc.
  - cbn [analyzeNode resolve]. unfold analyzeUnaryExpr.
    specialize (IH a).
    destruct (analyzeNode operand a) as [annotated a1].
    by destruct (resolve (symbolTable a) operand) as [[ty undefined] table].
  - cbn. by rewrite app_nil_r.
  - cbn [analyzeNode resolve]. unfold analyzeVariable.
    destruct (symbolTable a !! name); cbn; [by rewrite app_nil_r|done].
Qed.

(** When no [Variable] node carried a type, the ones returned without a
    type are the undefined occurrences. *)
Lemma analyzeNode_unresolved node : ∀ a,
  freshVariables node = true →
  untypedVariables (analyzeNode node a).1
  = (resolve (symbolTable a) node).1.2.
Proof.
  induction node as [name value IH pos|op l IHl r IHr pos rt|op operand IH pos rt
                    |value dt pos rt|name pos rt]; intros a Hun; simpl in Hun.
  - cbn [analyzeNode resolve]. unfold analyzeAssignment.
    specialize (IH a Hun).
    destruct (analyzeNode value a) as [annotated a1].
    by destruct (resolve (symbolTable a) value) as [[ty undefined] table].
  - cbn [analyzeNode resolve]. unfold analyzeBinaryExpr.
    apply andb_prop in Hun as [Hl Hr].
    specialize (IHl a Hl).
    pose proof (analyzeNode_resolve l a) as Hleft.
    destruct (analyzeNode l a) as [annotatedLeft a1].
    destruct (resolve (symbolTable a) l) as [[tl ul] table1].
    destruct Hleft as (_ & Htable1 & _).
    specialize (IHr a1 Hr). rewrite Htable1 in IHr.
    destruct (analyzeNode r a1) as [annotatedRight a2].
    destruct (resolve table1 r) as [[tr ur] table2].
    simpl in *. by rewrite IHl, IHr.
  - cbn [analyzeNode resolve]. unfold analyzeUnaryExpr.
    specialize (IH a Hun).
    destruct (analyzeNode operand a) as [annotated a1].
    by destruct (resolve (symbolTable a) operand) as [[ty undefined] table].
  - done.
  - cbn [analyzeNode resolve]. unfold analyzeVariable.
    apply bool_decide_eq_true in Hun as ->.
    by destruct (symbolTable a !! name).
Qed.

Lemma untypedOccurrences_app ast1 ast2 :
  untypedOccurrences (ast1 ++ ast2)
  = untypedOccurrences ast1 ++ untypedOccurrences ast2.
Proof. unfold untypedOccurrences. by rewrite fmap_app, concat_app. Qed.

Lemma analyzeAll_errors ast : ∀ annotatedAst a,
  let '(annotatedAst', a') := analyzeAll ast annotatedAst a in
  errors a' = errors a ++ (undefinedError <$> undefinedOccurrences (symbolTable a) ast)
  ∧ length annotatedAst' = length annotatedAst + length ast.
Proof.
  induction ast as [|node ast IH]; intros annotatedAst a; simpl in *.
  - by rewrite app_nil_r.
  - pose proof (analyzeNode_resolve node a) as Hnode'.
    destruct (analyzeNode node a) as [annotated a1].
    destruct (resolve (symbolTable a) node) as [[ty undefined] table].
    destruct Hnode' as (_ & Htable & Herr).
    specialize (IH (annotatedAst ++ [annotated]) a1).
    destruct (analyzeAll ast _ a1) as [annotatedAst' a'].
    destruct IH as [IHerr IHlen]. rewrite Htable in IHerr.
    rewrite IHerr, Herr, fmap_app, app_assoc, IHlen, length_app. simpl.
    split; [done|lia].
Qed.

Lemma analyzeAll_unresolved ast : ∀ annotatedAst a,
  forallb freshVariables ast = true →
  untypedOccurrences (analyzeAll ast annotatedAst a).1
  = untypedOccurrences annotatedAst
    ++ undefinedOccurrences (symbolTable a) ast.
Proof.
  induction ast as [|node ast IH]; intros annotatedAst a Hun; simpl in *.
  - by rewrite app_nil_r.
  - apply andb_prop in Hun as [Hnode Hast].
    pose proof (analyzeNode_resolve node a) as Hnode'.
    pose proof (analyzeNode_unresolved node a Hnode) as Huntyped.
    destruct (analyzeNode node a) as [annotated a1].
    destruct (resolve (symbolTable a) node) as [[ty undefined] table].
    destruct Hnode' as (_ & Htable & _). simpl in Huntyped.
    rewrite (IH (annotatedAst ++ [annotated]) a1 Hast), Htable.
    rewrite untypedOccurrences_app. unfold untypedOccurrences at 2.
    simpl. by rewrite app_nil_r, Huntyped, app_assoc.
Qed.

(** Analysing an expression never writes to the symbol table. *)
Lemma analyzeNode_expression node : ∀ a,
  isExpression node = true → symbolTable (analyzeNode node a).2 = symbolTable a.
Proof.
  induction node as [name value IH pos|op l IHl r IHr pos rt|op operand IH pos rt
                    |value dt pos rt|name pos rt]; intros a Hex; simpl in Hex;
    try done.
  - cbn [analyzeNode]. unfold analyzeBinaryExpr.
    apply andb_prop in Hex as [Hl Hr].
    specialize (IHl a Hl). destruct (analyzeNode l a) as [annotatedLeft a1].
    specialize (IHr a1 Hr). destruct (analyzeNode r a1) as [annotatedRight a2].
    simpl in *. congruence.
  - cbn [analyzeNode]. unfold analyzeUnaryExpr.
    specialize (IH a Hex). by destruct (analyzeNode operand a).
  - cbn [analyzeNode]. unfold analyzeVariable. by destruct (symbolTable a !! name).
Qed.

End SemanticFacts.

(** ** The semantic analyser over the store *)

Section StoreFacts.
Context `{JsNumber}.
Import Store.

Lemma represents_app objects more node tree :
  represents objects node tree → represents (objects ++ more) node tree.
Proof.
  induction 1; econstructor; eauto using lookup_app_l_Some.
Qed.

Lemma getResolvedType_represents objects node tree :
  represents objects node tree → ∀ fuel, depth tree ≤ fuel →
  getResolvedType fuel objects node = Some (Semantic.getResolvedType tree).
Proof.
  induction 1 as [node name value pos valueTree Hnode Hvalue IH| | | |];
    intros [|fuel] Hfuel; simpl in Hfuel; try lia;
    cbn [getResolvedType]; rewrite H0 || rewrite Hnode; cbn; try done.
  apply IH. lia.
Qed.

Lemma analyzeNode_depth tree : ∀ b,
  depth (Semantic.analyzeNode tree b).1 = depth tree.
Proof.
  induction tree as [name value IH pos|op l IHl r IHr pos rt|op operand IH pos rt
                    |value dt pos rt|name pos rt]; intros b;
    cbn [Semantic.analyzeNode].
  - unfold Semantic.analyzeAssignment. specialize (IH b).
    destruct (Semantic.analyzeNode value b). simpl in *. by rewrite IH.
  - unfold Semantic.analyzeBinaryExpr. specialize (IHl b).
    destruct (Semantic.analyzeNode l b) as [? b1]. specialize (IHr b1).
    destruct (Semantic.analyzeNode r b1). simpl in *. by rewrite IHl, IHr.
  - unfold Semantic.analyzeUnaryExpr. specialize (IH b).
    destruct (Semantic.analyzeNode operand b). simpl in *. by rewrite IH.
  - done.
  - unfold Semantic.analyzeVariable. by destruct (_ !! _).
Qed.

Lemma lookup_allocated (objects more : list Object) o :
  (objects ++ more ++ [o]) !! length (objects ++ more) = Some o.
Proof. rewrite app_assoc. apply list_lookup_middle. done. Qed.

Lemma analyzeNode_represents tree : ∀ fuel node a,
  represents (objects a) node tree → depth tree ≤ fuel →
  ∃ annotated a' new,
    analyzeNode fuel node a = Some (annotated, a')
    ∧ objects a' = objects a ++ new
    ∧ represents (objects a') annotated (Semantic.analyzeNode tree (forget a)).1
    ∧ forget a' = (Semantic.analyzeNode tree (forget a)).2
    ∧ returnedAs a node annotated.
Proof.
  induction tree as [name value IH pos|op l IHl r IHr pos rt|op operand IH pos rt
                    |value dt pos rt|name pos rt];
    intros [|fuel] node a Hrep Hfuel; simpl in Hfuel; try lia;
    inversion Hrep as [? ? v ? ? Hnode Hv|? ? ln rn ? ? ? ? Hnode Hl Hr
                      |? ? on ? ? ? Hnode Ho|? ? ? ? ? Hnode|? ? ? ? Hnode];
    subst; cbn [analyzeNode]; rewrite Hnode; cbn [mbind option_bind].
  - (* Assignment *)
    destruct (IH fuel v a Hv) as (annotatedValue & a1 & new1 & -> & Hobj1 & Hrep1
                                  & Hforget1 & _); [lia|].
    cbn [mbind option_bind].
    rewrite (getResolvedType_represents _ _ _ Hrep1)
      by (rewrite analyzeNode_depth; lia).
    cbn [mbind option_bind Semantic.analyzeNode].
    unfold Semantic.analyzeAssignment.
    destruct (Semantic.analyzeNode value (forget a)) as [tv b1] eqn:Hpure.
    cbn [fst snd] in *. subst b1.
    eexists _, _, (new1 ++ [_]). split; [done|].
    split_and!.
    + destruct (Semantic.getResolvedType tv); simpl; by rewrite Hobj1, app_assoc.
    + assert (∀ a2, objects a2 = objects a1 →
                represents (objects (allocate (AssignmentObject name annotatedValue pos) a2).2)
                  (allocate (AssignmentObject name annotatedValue pos) a2).1
                  (AssignmentNode name tv pos)) as Halloc.
      { intros a2 Ha2. simpl. rewrite Ha2. econstructor.
        - by apply list_lookup_middle.
        - by apply represents_app. }
      destruct (Semantic.getResolvedType tv); by apply Halloc.
    + by destruct (Semantic.getResolvedType tv).
    + right. split.
      * destruct (Semantic.getResolvedType tv); simpl; rewrite Hobj1, length_app; lia.
      * intros (? & ? & ? & ? & _). congruence.
  - (* BinaryExpr *)
    destruct (IHl fuel ln a Hl) as (annotatedLeft & a1 & new1 & -> & Hobj1 & Hrep1
                                    & Hforget1 & _); [lia|].
    cbn [mbind option_bind].
    assert (represents (objects a1) rn r) as Hr1
      by (rewrite Hobj1; by apply represents_app).
    destruct (IHr fuel rn a1 Hr1) as (annotatedRight & a2 & new2 & -> & Hobj2
                                      & Hrep2 & Hforget2 & _); [lia|].
    cbn [mbind option_bind Semantic.analyzeNode].
    unfold Semantic.analyzeBinaryExpr.
    destruct (Semantic.analyzeNode l (forget a)) as [tl b1] eqn:Hpure1.
    cbn [fst snd] in *. subst b1.
    destruct (Semantic.analyzeNode r (forget a1)) as [tr b2] eqn:Hpure2.
    cbn [fst snd] in *. subst b2.
    assert (represents (objects a2) annotatedLeft tl) as Hrep1'
      by (rewrite Hobj2; by apply represents_app).
    rewrite (getResolvedType_represents _ _ _ Hrep1').
    2:{ replace tl with (Semantic.analyzeNode l (forget a)).1 by (by rewrite Hpure1).
        rewrite analyzeNode_depth. lia. }
    rewrite (getResolvedType_represents _ _ _ Hrep2).
    2:{ replace tr with (Semantic.analyzeNode r (forget a1)).1 by (by rewrite Hpure2).
        rewrite analyzeNode_depth. lia. }
    cbn [mbind option_bind].
    eexists _, _, (new1 ++ new2 ++ [_]). split; [done|].
    split_and!.
    + simpl. by rewrite Hobj2, Hobj1, <- !app_assoc.
    + simpl. econstructor.
      * by apply list_lookup_middle.
      * by apply represents_app.
      * by apply represents_app.
    + done.
    + right. split.
      * simpl. rewrite Hobj2, Hobj1, !length_app; lia.
      * intros (? & ? & ? & ? & _). congruence.
  - (* UnaryExpr *)
    destruct (IH fuel on a Ho) as (annotatedOperand & a1 & new1 & -> & Hobj1
                                   & Hrep1 & Hforget1 & _); [lia|].
    cbn [mbind option_bind].
    rewrite (getResolvedType_represents _ _ _ Hrep1)
      by (rewrite analyzeNode_depth; lia).
    cbn [mbind option_bind Semantic.analyzeNode].
    unfold Semantic.analyzeUnaryExpr.
    destruct (Semantic.analyzeNode operand (forget a)) as [to b1] eqn:Hpure.
    cbn [fst snd] in *. subst b1.
    eexists _, _, (new1 ++ [_]). split; [done|].
    split_and!.
    + simpl. by rewrite Hobj1, app_assoc.
    + simpl. econstructor; [by apply list_lookup_middle|by apply represents_app].
    + done.
    + right. split.
      * simpl. rewrite Hobj1, length_app; lia.
      * intros (? & ? & ? & ? & _). congruence.
  - (* Literal *)
    eexists _, _, [_]. split; [done|]. split_and!; [done| |done|].
    + simpl. econstructor. by apply list_lookup_middle.
    + right. split; [done|]. intros (? & ? & ? & ? & _). congruence.
  - (* Variable *)
    cbn [Semantic.analyzeNode]. unfold Semantic.analyzeVariable.
    cbn [forget Semantic.symbolTable].
    destruct (symbolTable a !! name) as [entry|] eqn:Hentry.
    + eexists _, _, [_]. split; [done|]. split_and!; [done| |done|].
      * simpl. econstructor. by apply list_lookup_middle.
      * right. split; [done|]. intros (? & ? & ? & ? & ?). congruence.
    + eexists _, _, []. split; [done|]. split_and!.
      * simpl. by rewrite app_nil_r.
      * simpl. by constructor.
      * done.
      * left. split; [done|]. unfold undefinedVariableAt. eauto.
Qed.

End StoreFacts.

(** ** The semantic analyser and the pipeline *)

(** C1. A [BinaryExpr] node whose two operands resolved to the types
    [leftType] and [rightType] is given the type [Float] when its operator
    is ["/"], and otherwise [Float] if one of the two is [Float] and
    [Integer] if both are [Integer]. *)
Theorem binary_expression_type `{JsNumber} (operator : string)
    (l r : ASTNode) (pos : Position) (resolvedType : option DataType)
    (a : Semantic.SemanticAnalyzer) (leftType rightType : DataType) :
  Semantic.getResolvedType (Semantic.analyzeNode l a).1 = Some leftType →
  Semantic.getResolvedType
    (Semantic.analyzeNode r (Semantic.analyzeNode l a).2).1
    = Some rightType →
  Semantic.getResolvedType
    (Semantic.analyzeNode (BinaryExprNode operator l r pos resolvedType) a).1
  = Some (if bool_decide (operator = "/") then Float
          else match leftType, rightType with
               | Integer, Integer => Integer
               | _, _ => Float
               end).
Proof.
  intros Hl Hr. cbn [Semantic.analyzeNode].
  unfold Semantic.analyzeBinaryExpr.
  destruct (Semantic.analyzeNode l a) as [annotatedLeft a1].
  cbn [fst snd] in *.
  destruct (Semantic.analyzeNode r a1) as [annotatedRight a2].
  cbn [fst snd Semantic.getResolvedType] in *. rewrite Hl, Hr.
  unfold Semantic.binaryResultType.
  by destruct leftType, rightType; case_bool_decide.
Qed.

(** The program ["4 / 2"]: two [Integer] literals, and a root of type
    [Float]. *)
Lemma binary_expression_type_witness :
  Semantic.getResolvedType
    (Semantic.analyzeNode
       (BinaryExprNode (H:=decimalNumber) "/"
          (LiteralNode 4%Q Integer (mkPosition 1 1) None)
          (LiteralNode 2%Q Integer (mkPosition 1 5) None)
          (mkPosition 1 3) None)
       (Semantic.mkAnalyzer ∅ [])).1
  = Some Float.
Proof.
  apply (binary_expression_type "/" _ _ _ _ _ Integer Integer); reflexivity.
Defined.

Example four_divided_by_two `{JsNumber} :
  CompilationResult.annotatedAst <$> Compiler.compile "4 / 2"
  = Some (Some
      [BinaryExprNode "/"
         (LiteralNode (parseFloat "4") Integer (mkPosition 1 1) (Some Integer))
         (LiteralNode (parseFloat "2") Integer (mkPosition 1 5) (Some Integer))
         (mkPosition 1 3) (Some Float)]).
Proof. vm_compute. reflexivity. Qed.

(** C2. The tokens of ["1 + 2 3"] and of ["x + y w * 2"] are parsed into
    two expression statements each, and no syntax error is recorded for the
    token that trails the first expression. *)
Theorem trailing_token_starts_a_statement `{JsNumber} :
  Parser.parse <$> Lexer.tokenize "1 + 2 3"
  = Some (Parser.Returns (ParseResult.mk
      [BinaryExprNode "+"
         (LiteralNode (parseFloat "1") Integer (mkPosition 1 1) None)
         (LiteralNode (parseFloat "2") Integer (mkPosition 1 5) None)
         (mkPosition 1 3) None;
       LiteralNode (parseFloat "3") Integer (mkPosition 1 7) None]
      []))
  ∧ Parser.parse <$> Lexer.tokenize "x + y w * 2"
    = Some (Parser.Returns (ParseResult.mk
        [BinaryExprNode "+"
           (VariableNode "x" (mkPosition 1 1) None)
           (VariableNode "y" (mkPosition 1 5) None)
           (mkPosition 1 3) None;
         BinaryExprNode "*"
           (VariableNode "w" (mkPosition 1 7) None)
           (LiteralNode (parseFloat "2") Integer (mkPosition 1 11) None)
           (mkPosition 1 9) None]
        [])).
Proof. split; vm_compute; reflexivity. Qed.

(** C6. An assignment whose value is an expression of type [T] leaves the
    symbol table with the entry [{name, T, definedAt}] written over whatever
    the name had; when the value has no type the symbol table is left as it
    was, so that a name that was undefined stays undefined. *)
Theorem assignment_updates_symbol_table `{JsNumber}
    (a : Semantic.SemanticAnalyzer) (name : string) (value : ASTNode)
    (pos : Position) :
  isExpression value = true →
  Semantic.symbolTable
    (Semantic.analyzeNode (AssignmentNode name value pos) a).2
  = match Semantic.getResolvedType (Semantic.analyzeNode value a).1 with
    | Some valueType =>
        <[name := mkSymbolEntry name valueType pos]> (Semantic.symbolTable a)
    | None => Semantic.symbolTable a
    end.
Proof.
  intros Hexpr. pose proof (analyzeNode_expression value a Hexpr) as Htable.
  cbn [Semantic.analyzeNode]. unfold Semantic.analyzeAssignment.
  destruct (Semantic.analyzeNode value a) as [annotatedValue a1].
  cbn [fst snd] in *.
  destruct (Semantic.getResolvedType annotatedValue); simpl; by rewrite Htable.
Qed.

(** The second statement of ["x = 5\nx = 3.14"], analysed in the state the
    first one leaves: a single entry for [x], of type [Float]. *)
Lemma assignment_updates_symbol_table_witness :
  Semantic.symbolTable
    (Semantic.analyzeNode
       (AssignmentNode (H:=decimalNumber) "x"
          (LiteralNode (157 # 50)%Q Float (mkPosition 2 5) None)
          (mkPosition 2 1))
       (Semantic.mkAnalyzer
          {[ "x" := mkSymbolEntry "x" Integer (mkPosition 1 1) ]} [])).2
  = {[ "x" := mkSymbolEntry "x" Float (mkPosition 2 1) ]}.
Proof.
  rewrite assignment_updates_symbol_table by reflexivity.
  cbn. apply insert_singleton_eq.
Defined.

Example reassignment_overwrites `{JsNumber} :
  CompilationResult.symbolTable <$> Compiler.compile "x = 5
x = 3.14"
  = Some (Some {[ "x" := mkSymbolEntry "x" Float (mkPosition 2 1) ]}).
Proof. vm_compute. reflexivity. Qed.

Example undefined_value_defines_nothing `{JsNumber} :
  CompilationResult.symbolTable <$> Compiler.compile "y = x + 1
z = y"
  = Some (Some ∅).
Proof. vm_compute. reflexivity. Qed.




(** The same for whatever [parse] returns. *)
Lemma parsed_program_errors `{JsNumber} (tokens : list Token) r :
  Parser.parse tokens = Parser.Returns r →
  SemanticResult.errors (Semantic.analyze (ParseResult.ast r))
  = undefinedError <$> undefinedOccurrences ∅ (ParseResult.ast r).
Proof.
  intros _. unfold Semantic.analyze.
  pose proof (analyzeAll_errors (ParseResult.ast r) []
                (Semantic.mkAnalyzer ∅ [])) as Hall.
  destruct (Semantic.analyzeAll _ [] _) as [annotatedAst a]. apply Hall.
Qed.

(** What [parse] returns carries no [resolvedType], so the nodes left
    without one by [analyze] are the undefined occurrences. *)
Lemma parsed_program_unresolved `{JsNumber} (tokens : list Token) r :
  Parser.parse tokens = Parser.Returns r →
  untypedOccurrences
    (SemanticResult.annotatedAst (Semantic.analyze (ParseResult.ast r)))
  = undefinedOccurrences ∅ (ParseResult.ast r).
Proof.
  intros Hparse%parse_unannotated%forallb_freshVariables.
  unfold Semantic.analyze.
  pose proof (analyzeAll_unresolved (ParseResult.ast r) []
                (Semantic.mkAnalyzer ∅ []) Hparse) as Hall.
  by destruct (Semantic.analyzeAll _ [] _) as [annotatedAst a].
Qed.

Example three_references_three_errors `{JsNumber} :
  length <$> (CompilationResult.errors <$> Compiler.compile "y = x + x + x")
  = Some 3.
Proof. vm_compute. reflexivity. Qed.

Example error_token_before_statement `{JsNumber} :
  Parser.parse <$> Lexer.tokenize "@ 1 + 2"
  = Some (Parser.Returns (ParseResult.mk
      [BinaryExprNode "+"
         (LiteralNode (parseFloat "1") Integer (mkPosition 1 3) None)
         (LiteralNode (parseFloat "2") Integer (mkPosition 1 7) None)
         (mkPosition 1 5) None]
      [])).
Proof. vm_compute. reflexivity. Qed.

Example error_token_inside_expression `{JsNumber} :
  Parser.parse <$> Lexer.tokenize "1 + @ 2"
  = Some (Parser.Returns (ParseResult.mk []
      [mkCompilerError syntax "Expected expression" (mkPosition 1 5)
         (Some "expression") (Some "ERROR") None])).
Proof. vm_compute. reflexivity. Qed.

(** C10. A run of [ERROR] tokens in front of a statement is skipped: with
    the fuel [parse] gives it, the statement is parsed, with the same result
    and the same errors, as if the cursor had been behind the run; the parser
    returns or throws, and when it returns it has recorded no error and has
    left the run behind.  An [ERROR] token where an operand is expected, at
    whatever level of the expression grammar, is the syntax error "Expected
    expression", and an [ERROR] token where a closing parenthesis is
    expected is the syntax error "Expected ')' after expression", each about
    that token.  The tokens of ["@ 1 + 2"] parse to the one expression
    [1 + 2] without error, those of ["1 + @ 2"] to "Expected expression". *)
Theorem error_tokens_skipped_between_statements `{JsNumber}
    (tokens : list Token) (p : Parser.Parser) (count fuel : nat) :
  8 * remaining tokens p + 8 ≤ fuel → errorRun tokens p count →
  Parser.parseStatement tokens fuel p
  = Parser.parseStatement tokens fuel
      (Parser.mkParser (Parser.current p + count) (Parser.errors p))
  ∧ post (Parser.parseStatement tokens fuel p)
      (λ _ p', Parser.errors p' = Parser.errors p
               ∧ Parser.current p + count ≤ Parser.current p')
      (failed p) False
  ∧ (∀ q t n,
       tokens !! Parser.current q = Some t → type t = ERROR →
       let thrown message expected : Parser.Result ASTNode :=
         Parser.Thrown (Parser.Error message)
           (Parser.mkParser (Parser.current q)
              (Parser.errors q ++
               [mkCompilerError syntax message (position t)
                  (Some expected) (Some "ERROR") None])) in
       Parser.parsePrimary tokens (1 + n) q
       = thrown "Expected expression" "expression"
       ∧ Parser.parseUnary tokens (2 + n) q
         = thrown "Expected expression" "expression"
       ∧ Parser.parsePower tokens (3 + n) q
         = thrown "Expected expression" "expression"
       ∧ Parser.parseMultiplicative tokens (4 + n) q
         = thrown "Expected expression" "expression"
       ∧ Parser.parseAdditive tokens (5 + n) q
         = thrown "Expected expression" "expression"
       ∧ Parser.parseExpression tokens (6 + n) q
         = thrown "Expected expression" "expression"
       ∧ Parser.expect tokens RPAREN "Expected ')' after expression" q
         = Parser.Thrown (Parser.Error "Expected ')' after expression")
             (Parser.mkParser (Parser.current q)
                (Parser.errors q ++
                 [mkCompilerError syntax "Expected ')' after expression"
                    (position t) (Some "RPAREN") (Some "ERROR") None])))
  ∧ Parser.parse <$> Lexer.tokenize "@ 1 + 2"
    = Some (Parser.Returns (ParseResult.mk
        [BinaryExprNode "+"
           (LiteralNode (parseFloat "1") Integer (mkPosition 1 3) None)
           (LiteralNode (parseFloat "2") Integer (mkPosition 1 7) None)
           (mkPosition 1 5) None]
        []))
  ∧ Parser.parse <$> Lexer.tokenize "1 + @ 2"
    = Some (Parser.Returns (ParseResult.mk []
        [mkCompilerError syntax "Expected expression" (mkPosition 1 5)
           (Some "expression") (Some "ERROR") None])).
Proof.
  intros Hfuel Hrun.
  destruct (parseStatement_behind tokens count fuel p Hfuel Hrun)
    as [Hcount Hpost].
  split_and!;
    [by apply parseStatement_skips|done|
    |apply error_token_before_statement
    |apply error_token_inside_expression].
  intros q t n Ht Hty thrown.
  destruct (operand_error tokens n q t Ht Hty)
    as (Hunary & Hpower & Hmul & Hadd & Hexpr).
  split_and!; try done.
  - by apply parsePrimary_error.
  - rewrite expect_eq, Ht.
    rewrite bool_decide_eq_false_2 by (rewrite Hty; naive_solver).
    by rewrite Hty.
Qed.

Lemma error_tokens_skipped_between_statements_witness :
  let tokens :=
    [mkToken (H:=decimalNumber) ERROR "@" (mkPosition 1 1) None;
     mkToken ERROR "#" (mkPosition 1 3) None;
     mkToken INTEGER "1" (mkPosition 1 5) (Some 1%Q);
     mkToken EOF "" (mkPosition 1 6) None] in
  Parser.parseStatement tokens 40 (Parser.mkParser 0 [])
  = Parser.parseStatement tokens 40 (Parser.mkParser 2 [])
  ∧ post (Parser.parseStatement tokens 40 (Parser.mkParser 0 []))
      (λ _ p', Parser.errors p' = [] ∧ 2 ≤ Parser.current p')
      (failed (Parser.mkParser 0 [])) False.
Proof.
  intros tokens.
  destruct (error_tokens_skipped_between_statements tokens
              (Parser.mkParser 0 []) 2 40) as (Hskip & Hpost & _).
  - unfold remaining. simpl. lia.
  - split.
    + intros [|[|i]] Hi; [eexists; split; reflexivity..|lia].
    + eexists. split; [reflexivity|done].
  - split; [exact Hskip|exact Hpost].
Defined.

Example error_token_for_parenthesis `{JsNumber} :
  Parser.parse <$> Lexer.tokenize "(1 @)"
  = Some (Parser.Returns (ParseResult.mk []
      [mkCompilerError syntax "Expected ')' after expression"
         (mkPosition 1 4) (Some "RPAREN") (Some "ERROR") None])).
Proof. vm_compute. reflexivity. Qed.

Example error_token_behind_expression `{JsNumber} :
  Parser.parse <$> Lexer.tokenize "1 @ + 2"
  = Some (Parser.Returns (ParseResult.mk
      [LiteralNode (parseFloat "1") Integer (mkPosition 1 1) None;
       UnaryExprNode "+"
         (LiteralNode (parseFloat "2") Integer (mkPosition 1 7) None)
         (mkPosition 1 5) None]
      [])).
Proof. vm_compute. reflexivity. Qed.

(** C10, as the specification has it, fails for an [ERROR] token inside an
    expression where no operand is expected: in ["(1 @)"] the token is where
    the closing parenthesis should be, and the error is "Expected ')' after
    expression"; in ["1 @ + 2"] it follows a complete expression, which ends
    the statement, and is skipped in front of the next one, without any
    error. *)
Lemma error_token_where_no_operand_is_expected :
  let expectedExpression (outcome : option Parser.Outcome) : Prop :=
    ∃ r e, outcome = Some (Parser.Returns r)
           ∧ e ∈ ParseResult.errors r
           ∧ message e = "Expected expression" in
  Parser.parse <$> Lexer.tokenize (H:=decimalNumber) "(1 @)"
  = Some (Parser.Returns (ParseResult.mk []
      [mkCompilerError syntax "Expected ')' after expression"
         (mkPosition 1 4) (Some "RPAREN") (Some "ERROR") None]))
  ∧ Parser.parse <$> Lexer.tokenize (H:=decimalNumber) "1 @ + 2"
    = Some (Parser.Returns (ParseResult.mk
        [LiteralNode 1%Q Integer (mkPosition 1 1) None;
         UnaryExprNode "+"
           (LiteralNode 2%Q Integer (mkPosition 1 7) None)
           (mkPosition 1 5) None]
        []))
  ∧ ¬ expectedExpression
        (Parser.parse <$> Lexer.tokenize (H:=decimalNumber) "(1 @)")
  ∧ ¬ expectedExpression
        (Parser.parse <$> Lexer.tokenize (H:=decimalNumber) "1 @ + 2").
Proof.
  intros expectedExpression.
  pose proof (error_token_for_parenthesis (H:=decimalNumber)) as Hinside.
  pose proof (error_token_behind_expression (H:=decimalNumber)) as Hbehind.
  split_and!; [exact Hinside|exact Hbehind|..].
  - intros (r & e & Heq & He & Hmessage). rewrite Hinside in Heq.
    injection Heq as <-. by apply list_elem_of_singleton in He as ->.
  - intros (r & e & Heq & He & _). rewrite Hbehind in Heq.
    injection Heq as <-. by apply elem_of_nil in He.
Qed.

(** C8. Scanning from the first digit of a number, in front of which [pre]
    has been consumed: [whole] being the maximal run of digits there and
    [rest] what follows it, one token is added, of the type and with the
    lexeme that [numberToken] gives ([FLOAT] only for a dot followed by a
    digit), its literal is the value of its lexeme, and the cursor stops
    behind the lexeme, in front of a dot that is not followed by a digit.
    The tokens of ["42."] are [INTEGER] ["42"], [ERROR] ["."] and [EOF]. *)
Theorem number_rule `{JsNumber} (source pre whole rest : string)
    (lx : Lexer.Lexer) :
  source = pre +:+ whole +:+ rest →
  Lexer.current lx = String.length pre →
  whole ≠ "" → allDigits whole = true → digitRun rest = "" →
  Lexer.scanToken source (Lexer.beginToken lx)
  = Some (afterNumber lx (numberToken whole rest).1 (numberToken whole rest).2)
  ∧ ((numberToken whole rest).1 = FLOAT ↔
     ∃ d rest', rest = String "."%char (String d rest')
                ∧ Lexer.isDigit d = true)
  ∧ Lexer.tokenize "42."
    = Some [mkToken INTEGER "42" (mkPosition 1 1) (Some (parseFloat "42"));
            mkToken ERROR "." (mkPosition 1 3) None;
            mkToken EOF "" (mkPosition 1 4) None].
Proof.
  intros Hsrc Hcur Hne Hall Hrest. split_and!.
  - by apply (number_rule_general source pre).
  - unfold numberToken. split.
    + destruct rest as [|c rest1]; [done|].
      destruct (Ascii.eqb_spec c "."%char) as [->|Hdot].
      * destruct rest1 as [|d rest2]; [done|]. cbn [digitRun].
        destruct (Lexer.isDigit d) eqn:Hd; [|done]. eauto.
      * destruct c as [[] [] [] [] [] [] [] []]; done.
    + intros (d & rest' & -> & Hd). cbn [digitRun]. by rewrite Hd.
  - vm_compute. reflexivity.
Qed.

(** ["42."] from its first character: [INTEGER] with the value 42, the dot
    left for the next step. *)
Lemma number_rule_witness :
  Lexer.scanToken (H:=decimalNumber) "42." (Lexer.beginToken Lexer.initial)
  = Some (Lexer.mkLexer
            [mkToken INTEGER "42" (mkPosition 1 1) (Some 42%Q)] 0 2 1 3 1).
Proof.
  exact (proj1 (number_rule "42." "" "42" "." Lexer.initial
                  eq_refl eq_refl ltac:(discriminate) eq_refl eq_refl)).
Defined.

Example float_then_dot `{JsNumber} :
  Lexer.tokenize "3.14.5"
  = Some [mkToken FLOAT "3.14" (mkPosition 1 1) (Some (parseFloat "3.14"));
          mkToken ERROR "." (mkPosition 1 5) None;
          mkToken INTEGER "5" (mkPosition 1 6) (Some (parseFloat "5"));
          mkToken EOF "" (mkPosition 1 7) None].
Proof. vm_compute. reflexivity. Qed.

(** ** Copies and the input *)

Section StoreForest.
Context `{JsNumber}.
Import Store.

Lemma analyzeAll_represents fuel ast : ∀ trees annotatedAst a,
  Forall2 (represents (objects a)) ast trees →
  Forall (λ tree, depth tree ≤ fuel) trees →
  ∃ annotatedAst' a' new,
    analyzeAll fuel ast annotatedAst a = Some (annotatedAst', a')
    ∧ objects a' = objects a ++ new
    ∧ length annotatedAst' = length annotatedAst + length ast.
Proof.
  induction ast as [|node ast IH]; intros trees annotatedAst a Hrep Hdepth.
  - exists annotatedAst, a, []. cbn. by rewrite app_nil_r, Nat.add_0_r.
  - inversion Hrep as [|? tree ? trees' Hnode Hast]; subst.
    inversion Hdepth as [|? ? Htree Htrees]; subst.
    destruct (analyzeNode_represents tree fuel node a Hnode Htree)
      as (annotated & a1 & new1 & Hrun & Hobj1 & _).
    cbn [analyzeAll]. rewrite Hrun. cbn [mbind option_bind].
    destruct (IH trees' (annotatedAst ++ [annotated]) a1)
      as (annotatedAst' & a' & new & -> & Hobj & Hlen); [|done|].
    { rewrite Hobj1. eapply Forall2_impl; [done|].
      intros. by apply represents_app. }
    exists annotatedAst', a', (new1 ++ new). split_and!; [done| |].
    + by rewrite Hobj, Hobj1, app_assoc.
    + rewrite Hlen, length_app. simpl. lia.
Qed.

(** [analyze] on a forest held in the store returns, and the objects that
    were in the store are still there, unchanged. *)
Lemma analyze_extends_store fuel initial ast trees :
  Forall2 (represents initial) ast trees →
  Forall (λ tree, depth tree ≤ fuel) trees →
  ∃ r new, analyze fuel initial ast = Some r ∧ store r = initial ++ new
           ∧ length (annotatedAst r) = length ast.
Proof.
  intros Hrep Hdepth. unfold analyze.
  destruct (analyzeAll_represents fuel ast trees [] (mkAnalyzer initial ∅ [])
              Hrep Hdepth) as (annotatedAst' & a' & new & -> & Hobj & Hlen).
  cbn [mbind option_bind]. eexists _, new. split_and!; [done|done|].
  cbn. by rewrite Hlen.
Qed.

End StoreForest.



Example sum_copied_variable_shared :
  Store.analyzeNode 2 2
    (Store.mkAnalyzer
       [Store.VariableObject (H:=decimalNumber) "x" (mkPosition 1 1) None;
        Store.LiteralObject 1%Q Integer (mkPosition 1 5) None;
        Store.BinaryExprObject "+" 0 1 (mkPosition 1 3) None] ∅ [])
  = Some (4,
      Store.mkAnalyzer
        [Store.VariableObject "x" (mkPosition 1 1) None;
         Store.LiteralObject 1%Q Integer (mkPosition 1 5) None;
         Store.BinaryExprObject "+" 0 1 (mkPosition 1 3) None;
         Store.LiteralObject 1%Q Integer (mkPosition 1 5) (Some Integer);
         Store.BinaryExprObject "+" 0 3 (mkPosition 1 3) None] ∅
        [mkCompilerError semantic "Undefined variable 'x'" (mkPosition 1 1)
           None None (Some "x")]).
Proof. reflexivity. Qed.


(** ** The pipeline *)

(** [compile] returns for every source: the lexer ends its tokens with
    [EOF], so [parse] has a token to look at and returns. *)
Lemma compile_returns `{JsNumber} (source : string) :
  ∃ r, Compiler.compile source = Some r.
Proof.
  unfold Compiler.compile, Lexer.tokenize.
  destruct (scanLoop_runs source (Lexer.scanFuel source) Lexer.initial)
    as (lx & -> & _); [apply scanFuel_enough|].
  cbn [mbind option_bind].
  set (tokens := Lexer.tokens lx ++ [Lexer.eofToken lx]).
  assert (0 < length tokens) as Hlen.
  { unfold tokens. rewrite length_app. simpl. lia. }
  pose proof (parseLoop_errors tokens (Parser.parseFuel tokens)
                (Parser.parseFuel tokens) [] (Parser.mkParser 0 [])) as Hloop.
  unfold Parser.parse.
  destruct (Parser.parseLoop _ _ _ _ _) as [r| |].
  - case_bool_decide; eauto.
  - destruct Hloop; unfold Parser.parseFuel, remaining; simpl; try done; lia.
  - destruct Hloop; unfold Parser.parseFuel, remaining; simpl; try done; lia.
Qed.

(** * Further properties *)

Section LexerTiles.
Context `{JsNumber}.
Variable source : string.
Import Lexer.

Ltac sizes :=
  cbn [Lexer.current Lexer.advance advanceBy Lexer.beginToken snd
       String.length] in *;
  repeat (rewrite string_length_app in *; cbn [String.length] in * );
  cbn [Lexer.current Lexer.advance advanceBy Lexer.beginToken snd
       String.length] in *;
  try lia.

Lemma run_split p (s : string) : s = run p s +:+ afterRun p s.
Proof.
  induction s as [|c s IH]; [done|]. simpl. destruct (p c); [|done].
  simpl. by rewrite <- IH.
Qed.

Lemma run_allChars p (s : string) : allChars p (run p s) = true.
Proof.
  induction s as [|c s IH]; [done|]. simpl.
  destruct (p c) eqn:Hc; [|done]. simpl. by rewrite Hc.
Qed.

Lemma run_length p (s : string) : String.length (run p s) ≤ String.length s.
Proof.
  induction s as [|c s IH]; [done|]. simpl. destruct (p c); simpl; lia.
Qed.

Lemma run_digits (s : string) : run isDigit s = digitRun s.
Proof. induction s as [|c s IH]; [done|]. simpl. by rewrite IH. Qed.

Lemma afterRun_digits (s : string) : afterRun isDigit s = afterDigits s.
Proof. induction s as [|c s IH]; [done|]. simpl. by rewrite IH. Qed.

Lemma allChars_digits (s : string) : allChars isDigit s = allDigits s.
Proof. induction s as [|c s IH]; [done|]. simpl. by rewrite IH. Qed.

Lemma run_all p (s : string) : allChars p s = true → run p s = s.
Proof.
  induction s as [|c s IH]; [done|]. simpl. intros [-> Hs]%andb_prop.
  by rewrite IH.
Qed.

Lemma afterRun_all p (s rest : string) :
  allChars p s = true → afterRun p (s +:+ rest) = afterRun p rest.
Proof.
  induction s as [|c s IH]; [done|]. simpl. intros [-> Hs]%andb_prop. auto.
Qed.

Lemma run_app p (s rest : string) :
  allChars p s = true → run p (s +:+ rest) = s +:+ run p rest.
Proof.
  induction s as [|c s IH]; [done|]. simpl. intros [-> Hs]%andb_prop.
  by rewrite IH.
Qed.

Lemma allChars_app p (s1 s2 : string) :
  allChars p (s1 +:+ s2) = allChars p s1 && allChars p s2.
Proof.
  induction s1 as [|c s1 IH]; [done|]. simpl. by rewrite IH, andb_assoc.
Qed.

Lemma allChars_impl (p q : ascii → bool) (s : string) :
  (∀ c, p c = true → q c = true) → allChars p s = true → allChars q s = true.
Proof.
  intros Hpq. induction s as [|c s IH]; [done|]. simpl.
  intros [Hc Hs]%andb_prop. by rewrite (Hpq c Hc), IH.
Qed.

(** A loop of [advance] stops at the end of the run the cursor is in. *)
Lemma advanceWhile_run (p : ascii → bool) :
  p "000"%char = false →
  ∀ rest pre fuel lx,
    source = pre +:+ rest → current lx = String.length pre →
    String.length (run p rest) < fuel →
    advanceWhile p source fuel lx
    = Some (advanceBy (String.length (run p rest)) lx).
Proof.
  intros Hnul. induction rest as [|c rest IH]; intros pre fuel lx Hsrc Hcur Hfuel.
  - destruct fuel as [|fuel]; [simpl in Hfuel; lia|]. cbn [advanceWhile].
    rewrite (peek_at source pre "" lx) by done. by rewrite Hnul, advanceBy_0.
  - destruct fuel as [|fuel]; [simpl in Hfuel; lia|]. cbn [advanceWhile].
    rewrite (peek_at source pre (String c rest) lx) by done.
    cbn [run] in *. destruct (p c); [|by rewrite advanceBy_0].
    cbn [String.length] in *.
    rewrite (IH (pre +:+ String c "")).
    + by rewrite (advanceBy_S source).
    + by rewrite Hsrc, app_cons_shift.
    + sizes.
    + lia.
Qed.

(** No line feed in a lexeme: the position moves along the line. *)
Lemma positionFrom_app line column (s1 s2 : string) :
  positionFrom line column (s1 +:+ s2)
  = positionFrom (Types.line (positionFrom line column s1))
      (Types.column (positionFrom line column s1)) s2.
Proof.
  revert line column. induction s1 as [|c s1 IH]; intros line column; [done|].
  simpl. destruct (Ascii.eqb c "010"); apply IH.
Qed.

Lemma positionFrom_line line column (s : string) :
  allChars (λ c, negb (Ascii.eqb c "010")) s = true →
  positionFrom line column s = mkPosition line (column + String.length s).
Proof.
  revert column. induction s as [|c s IH]; intros column; simpl.
  - intros _. f_equal. lia.
  - intros [Hc Hs]%andb_prop. apply negb_true_iff in Hc. rewrite Hc, IH by done.
    f_equal. lia.
Qed.

Lemma lexemeFits_line ty (lexeme : string) :
  lexemeFits ty lexeme = true →
  allChars (λ c, negb (Ascii.eqb c "010")) lexeme = true.
Proof.
  assert (∀ c, isDigit c = true → negb (Ascii.eqb c "010") = true) as Hdigit.
  { intros c. by destruct c as [[] [] [] [] [] [] [] []]. }
  assert (∀ c, isAlphaNumeric c = true → negb (Ascii.eqb c "010") = true)
    as Halnum.
  { intros c. by destruct c as [[] [] [] [] [] [] [] []]. }
  assert (∀ c ty', symbolType c = Some ty' → negb (Ascii.eqb c "010") = true)
    as Hsymbol.
  { intros c ty'. by destruct c as [[] [] [] [] [] [] [] []]. }
  assert (∀ ty', ty' ∉ [INTEGER; FLOAT; IDENTIFIER; ERROR; EOF] →
            match lexeme with
            | String c "" => bool_decide (symbolType c = Some ty')
            | _ => false
            end = true →
            allChars (λ c, negb (Ascii.eqb c "010")) lexeme = true)
    as Hone.
  { intros ty' _. destruct lexeme as [|c [|]]; try done.
    intros Hc%bool_decide_eq_true. simpl. by rewrite (Hsymbol c ty'). }
  destruct ty; simpl; try (apply Hone; set_solver).
  - intros [_ Hall]%andb_prop. exact (allChars_impl _ _ _ Hdigit Hall).
  - intros [_ Hrest]%andb_prop. rewrite (run_split isDigit lexeme).
    rewrite allChars_app.
    rewrite (allChars_impl _ _ _ Hdigit (run_allChars isDigit lexeme)).
    destruct (afterRun isDigit lexeme) as [|c fraction]; [done|].
    destruct (Ascii.eqb_spec c "."%char) as [->|]; cycle 1.
    { by destruct c as [[] [] [] [] [] [] [] []]. }
    apply andb_prop in Hrest as [_ Hfraction]. simpl.
    exact (allChars_impl _ _ _ Hdigit Hfraction).
  - destruct lexeme as [|c rest]; [done|]. intros [Hc Hrest]%andb_prop.
    simpl. rewrite (Halnum c) by (unfold isAlphaNumeric; by rewrite Hc).
    exact (allChars_impl _ _ _ Halnum Hrest).
  - done.
  - destruct lexeme as [|c [|]]; try done. unfold isUnexpected. simpl.
    by destruct c as [[] [] [] [] [] [] [] []].
Qed.

(** What [scanToken] does with the character under the cursor. *)
Lemma scanToken_at lx c :
  String.get (current lx) source = Some c →
  scanToken source lx =
    let lx1 := (advance source lx).2 in
    match symbolType c with
    | Some ty => Some (addToken source ty None lx1)
    | None =>
        if isSkipped c
        then Some (if Ascii.eqb c "010" then newline lx1 else lx1)
        else if isDigit c then scanNumber source lx1
        else if isAlpha c then identifier source lx1
        else Some (addErrorToken source lx1)
    end.
Proof.
  intros Hget. unfold scanToken, advance. rewrite Hget.
  by destruct c as [[] [] [] [] [] [] [] []].
Qed.

Lemma append_nil_r (s : string) : s +:+ "" = s.
Proof. induction s; simpl; congruence. Qed.

Lemma get_at (pre rest : string) c :
  String.get (String.length pre) (pre +:+ String c rest) = Some c.
Proof.
  replace (String.length pre) with (String.length pre + 0) by lia.
  by rewrite get_app_skip.
Qed.

Lemma addToken_afterToken lx lx1 ty lit (lexeme : string) :
  tokens lx1 = tokens lx → start lx1 = current lx →
  current lx1 = current lx + String.length lexeme →
  line lx1 = line lx → column lx1 = column lx + String.length lexeme →
  startColumn lx1 = column lx →
  jsSubstring source (current lx) (current lx + String.length lexeme) = lexeme →
  addToken source ty lit lx1
  = afterToken lx (mkToken ty lexeme (mkPosition (line lx) (column lx)) lit).
Proof.
  destruct lx1. cbn [tokens start current line column startColumn].
  intros -> -> -> -> -> -> Hsub.
  unfold addToken, afterToken, pushToken, getPosition.
  cbn [tokens start current line column startColumn Types.lexeme].
  by rewrite Hsub.
Qed.

Lemma isAlpha_only c :
  isAlpha c = true →
  symbolType c = None ∧ isSkipped c = false ∧ isDigit c = false.
Proof. by destruct c as [[] [] [] [] [] [] [] []]. Qed.

Lemma isDigit_only c :
  isDigit c = true → symbolType c = None ∧ isSkipped c = false.
Proof. by destruct c as [[] [] [] [] [] [] [] []]. Qed.

(** From a letter or an underscore on, the longest run of letters, digits
    and underscores is one [IDENTIFIER]. *)
Lemma identifier_rule_general (pre rest : string) c lx :
  source = pre +:+ String c rest → current lx = String.length pre →
  isAlpha c = true →
  scanToken source (beginToken lx) = Some (afterToken lx (identifierToken lx c rest)).
Proof.
  intros Hsrc Hcur Hc.
  rewrite (scanToken_at _ c) by (cbn [beginToken current]; by rewrite Hsrc, Hcur, get_at).
  destruct (isAlpha_only c Hc) as (-> & -> & ->). rewrite Hc. cbn zeta.
  unfold identifier.
  rewrite (advanceWhile_run isAlphaNumeric isAlphaNumeric_nul rest
             (pre +:+ String c "")).
  2:{ by rewrite Hsrc, app_cons_shift. }
  2:{ sizes. }
  2:{ unfold scanFuel. rewrite Hsrc. pose proof (run_length isAlphaNumeric rest).
      sizes. }
  cbn [mbind option_bind]. f_equal. unfold identifierToken.
  apply addToken_afterToken; simpl; try done; try lia.
  rewrite Hcur.
  replace source
    with (pre +:+ String c (run isAlphaNumeric rest)
          +:+ afterRun isAlphaNumeric rest);
    [apply (jsSubstring_app_mid pre (String c (run isAlphaNumeric rest)))|].
  rewrite Hsrc. simpl. by rewrite <- run_split.
Qed.

(** One more token, whose lexeme is what follows the text read so far. *)
Lemma scanned_token (pre rest : string) lx t :
  scanned pre lx → wellFormed t →
  position t = mkPosition (line lx) (column lx) →
  scanned (pre +:+ lexeme t) (afterToken lx t).
Proof.
  intros (Hcur & Hpos & Hcov) Hwf Ht. unfold scanned, afterToken.
  cbn [current line column tokens]. split_and!.
  - rewrite string_length_app. lia.
  - unfold positionAfter in *. rewrite positionFrom_app, <- Hpos. simpl.
    symmetry. apply positionFrom_line. eapply lexemeFits_line, Hwf.
  - apply covers_token; [done..|]. by rewrite Ht.
Qed.

Lemma scanToken_scanned (pre rest : string) c lx :
  source = pre +:+ String c rest → scanned pre lx →
  ∃ lx' consumed rest',
    scanToken source (beginToken lx) = Some lx'
    ∧ source = (pre +:+ consumed) +:+ rest'
    ∧ String.length rest' ≤ String.length rest
    ∧ scanned (pre +:+ consumed) lx'.
Proof.
  intros Hsrc Hscanned. pose proof Hscanned as (Hcur & Hpos & Hcov).
  assert (String.get (current (beginToken lx)) source = Some c) as Hget.
  { cbn [beginToken current]. by rewrite Hsrc, Hcur, get_at. }
  assert (jsSubstring source (current lx) (current lx + 1) = String c "")
    as Hsub.
  { rewrite Hcur, Hsrc. apply (jsSubstring_app_mid pre (String c "") rest). }
  assert (∀ ty, wellFormed (mkToken ty (String c "")
                              (mkPosition (line lx) (column lx)) None) →
          ∃ lx' consumed rest',
            Some (addToken source ty None (advance source (beginToken lx)).2)
            = Some lx'
            ∧ source = (pre +:+ consumed) +:+ rest'
            ∧ String.length rest' ≤ String.length rest
            ∧ scanned (pre +:+ consumed) lx') as Hone.
  { intros ty Hwf. eexists _, (String c ""), rest. split; [done|].
    split; [by rewrite Hsrc, app_cons_shift|]. split; [done|].
    rewrite (addToken_afterToken lx _ ty None (String c ""));
      simpl; try done; try lia.
    by apply (scanned_token pre rest lx
                (mkToken ty (String c "") (mkPosition (line lx) (column lx))
                   None)). }
  destruct (symbolType c) as [ty|] eqn:Hsymbol.
  { rewrite (scanToken_at _ c Hget), Hsymbol. cbn zeta. apply Hone.
    split; simpl.
    - destruct ty; try (by apply bool_decide_eq_true);
        by destruct c as [[] [] [] [] [] [] [] []].
    - destruct ty; try done; by destruct c as [[] [] [] [] [] [] [] []]. }
  destruct (isSkipped c) eqn:Hskip.
  { rewrite (scanToken_at _ c Hget), Hsymbol, Hskip. cbn zeta.
    eexists _, (String c ""), rest. split; [done|].
    split; [by rewrite Hsrc, app_cons_shift|]. split; [done|].
    unfold scanned. split_and!.
    - rewrite string_length_app. destruct (Ascii.eqb c "010"); simpl; lia.
    - unfold positionAfter in *. rewrite positionFrom_app, <- Hpos.
      simpl. by destruct (Ascii.eqb c "010").
    - destruct (Ascii.eqb c "010"); by apply covers_skip. }
  destruct (isDigit c) eqn:Hdigit.
  { pose proof (number_rule_general source pre (String c (digitRun rest))
                  (afterDigits rest) lx) as Hnumber.
    rewrite Hnumber; try done.
    2:{ rewrite Hsrc. simpl. by rewrite <- digitRun_split. }
    2:{ simpl. by rewrite Hdigit, digitRun_allDigits. }
    2:{ apply digitRun_afterDigits. }
    clear Hnumber Hone.
    set (whole := String c (digitRun rest)).
    assert (allChars isDigit whole = true) as Hwhole.
    { unfold whole. simpl. by rewrite Hdigit, allChars_digits, digitRun_allDigits. }
    assert (∃ ty lexeme rest',
              numberToken whole (afterDigits rest) = (ty, lexeme)
              ∧ String c rest = lexeme +:+ rest'
              ∧ lexemeFits ty lexeme = true ∧ ty ∈ [INTEGER; FLOAT])
      as (ty & lexeme & rest' & -> & Hsplit & Hfits & Hty).
    { assert (String c rest = whole +:+ afterDigits rest) as Hint.
      { unfold whole. simpl. by rewrite <- digitRun_split. }
      assert (lexemeFits INTEGER whole = true) as Hfits
        by (by cbn [lexemeFits]; rewrite Hwhole).
      unfold numberToken.
      destruct (afterDigits rest) as [|dot rest1] eqn:Hafter;
        [exists INTEGER, whole, ""; split_and!; [done..|set_solver]|].
      destruct (Ascii.eqb_spec dot "."%char) as [->|Hdot]; cycle 1.
      { exists INTEGER, whole, (String dot rest1).
        split_and!; [|done..|set_solver].
        by destruct dot as [[] [] [] [] [] [] [] []]. }
      destruct (digitRun rest1) as [|d fraction] eqn:Hfraction;
        [exists INTEGER, whole, (String "."%char rest1);
         split_and!; [done..|set_solver]|].
      exists FLOAT, (whole +:+ "." +:+ String d fraction), (afterDigits rest1).
      split_and!; [done| | |set_solver].
      - rewrite Hint.
        transitivity (whole +:+ String "."%char
                                  (digitRun rest1 +:+ afterDigits rest1));
          [by rewrite <- digitRun_split|].
        by rewrite Hfraction, !app_assoc'.
      - assert (allChars isDigit (String d fraction) = true) as Hfr.
        { rewrite <- Hfraction, allChars_digits. apply digitRun_allDigits. }
        cbn [lexemeFits]. rewrite (run_app _ _ _ Hwhole), (afterRun_all _ _ _ Hwhole).
        simpl in *. rewrite Hfr. done. }
    cbn [fst snd]. eexists _, lexeme, rest'. split; [done|].
    split; [by rewrite Hsrc, Hsplit, app_assoc'|].
    split.
    { apply (f_equal String.length) in Hsplit. rewrite string_length_app in Hsplit.
      simpl in Hsplit. destruct lexeme; [|simpl in Hsplit; lia].
      by destruct ty; simpl in Hfits. }
    apply (scanned_token pre rest lx
             (mkToken ty lexeme (mkPosition (line lx) (column lx))
                (Some (parseFloat lexeme)))); [done| |done].
    split; [done|]. simpl. set_unfold in Hty. by destruct Hty as [->|[->|[]]]. }
  destruct (isAlpha c) eqn:Halpha.
  { rewrite (identifier_rule_general pre rest c lx Hsrc Hcur Halpha).
    eexists _, (String c (run isAlphaNumeric rest)), (afterRun isAlphaNumeric rest).
    split; [done|].
    split; [by rewrite Hsrc, (run_split isAlphaNumeric rest) at 1;
            rewrite app_assoc'|].
    split.
    { rewrite (run_split isAlphaNumeric rest) at 2. sizes. }
    apply (scanned_token pre rest lx (identifierToken lx c rest)); [done| |done].
    split; [|done]. simpl. by rewrite Halpha, run_allChars. }
  rewrite (scanToken_at _ c Hget), Hsymbol, Hskip, Hdigit, Halpha. cbn zeta.
  apply (Hone ERROR). split; [|done]. simpl. unfold isUnexpected.
  by rewrite Hsymbol, Hskip, Hdigit, Halpha.
Qed.

Lemma scanLoop_scanned fuel : ∀ (rest pre : string) lx,
  source = pre +:+ rest → scanned pre lx → String.length rest < fuel →
  ∃ lx', scanLoop source fuel lx = Some lx' ∧ scanned source lx'.
Proof.
  induction fuel as [|fuel IH]; intros rest pre lx Hsrc Hscanned Hfuel; [lia|].
  cbn [scanLoop]. unfold isAtEnd.
  destruct Hscanned as (Hcur & Hscanned). rewrite Hcur.
  destruct rest as [|c rest].
  - rewrite append_nil_r in Hsrc. subst pre.
    rewrite bool_decide_eq_true_2 by done. by exists lx.
  - rewrite bool_decide_eq_false_2 by (rewrite Hsrc; sizes).
    destruct (scanToken_scanned pre rest c lx Hsrc (conj Hcur Hscanned))
      as (lx1 & consumed & rest' & -> & Hsrc' & Hlen & Hscanned').
    cbn [mbind option_bind]. apply (IH rest' (pre +:+ consumed)); [done..|].
    simpl in Hfuel. lia.
Qed.

End LexerTiles.

(** [tokenize] returns the tokens that cover the source, and [EOF] behind
    them. *)
Lemma tokenize_covers `{JsNumber} (source : string) :
  ∃ body,
    Lexer.tokenize source
    = Some (body ++ [mkToken EOF "" (positionAfter source) None])
    ∧ covers body source.
Proof.
  unfold Lexer.tokenize.
  destruct (scanLoop_scanned source (Lexer.scanFuel source) source ""
              Lexer.initial) as (lx & -> & Hcur & Hpos & Hcov).
  - done.
  - split_and!; [done..|constructor].
  - unfold Lexer.scanFuel. lia.
  - exists (Lexer.tokens lx). split; [|done].
    cbn [mbind option_bind]. unfold Lexer.eofToken. by rewrite Hpos.
Qed.

(** X1. The tokens [tokenize] returns cover the source: the source is their
    lexemes in order with skipped characters (space, tab, carriage return,
    line feed) around them; every lexeme fits the type of its token, number
    tokens alone have a literal, the value of their lexeme; every token is at
    the line and column of its first character, and the final [EOF] at the
    position behind the last character. *)
Theorem tokens_cover_source `{JsNumber} (source : string) :
  ∃ body,
    Lexer.tokenize source
    = Some (body ++ [mkToken EOF "" (positionAfter source) None])
    ∧ covers body source.
Proof. apply tokenize_covers. Qed.

(** X2. From a letter or an underscore on, the lexer takes the longest run
    of letters, digits and underscores as one [IDENTIFIER] token, without a
    literal, at the line and column of the first character. *)
Theorem identifier_rule `{JsNumber} (source pre rest : string) (c : ascii)
    (lx : Lexer.Lexer) :
  source = pre +:+ String c rest → Lexer.current lx = String.length pre →
  Lexer.isAlpha c = true →
  Lexer.scanToken source (Lexer.beginToken lx)
  = Some (afterToken lx (identifierToken lx c rest)).
Proof. apply identifier_rule_general. Qed.

Lemma identifier_rule_witness :
  Lexer.scanToken (H:=decimalNumber) "x1 = 2" (Lexer.beginToken Lexer.initial)
  = Some (Lexer.mkLexer [mkToken IDENTIFIER "x1" (mkPosition 1 1) None]
            0 2 1 3 1).
Proof.
  exact (identifier_rule "x1 = 2" "" "1 = 2" "x"%char Lexer.initial
           eq_refl eq_refl eq_refl).
Defined.

Section LexerLocates.
Context `{JsNumber}.

Lemma holds_more (text more before lexeme : string) :
  holds text before lexeme → holds (text +:+ more) before lexeme.
Proof.
  intros [rest ->]. exists (rest +:+ more). by rewrite !app_assoc'.
Qed.

(** Every token is at its lexeme in the text. *)
Lemma covers_locates body (text : string) :
  covers body text →
  Forall (λ t, wellFormed t
               ∧ ∃ before, holds text before (lexeme t)
                           ∧ position t = positionAfter before) body.
Proof.
  induction 1 as [|body text c Hcov IH Hc|body text t Hcov IH Hwf Hpos].
  - done.
  - eapply Forall_impl; [exact IH|]. intros t (Hwf & before & Hholds & Hpos).
    split; [done|]. exists before. split; [|done]. by apply holds_more.
  - apply Forall_app. split.
    + eapply Forall_impl; [exact IH|]. intros t' (Hwf' & before & Hholds & Hpos').
      split; [done|]. exists before. split; [|done]. by apply holds_more.
    + constructor; [|done]. split; [done|]. exists text. split; [|done].
      exists "". by rewrite append_nil_r.
Qed.

Lemma holds_allChars p (text before lexeme : string) :
  holds text before lexeme → allChars p text = true →
  allChars p lexeme = true.
Proof.
  intros [rest ->]. rewrite !allChars_app.
  intros [_ [Hlexeme _]%andb_prop]%andb_prop. done.
Qed.

End LexerLocates.

(** X3. A source without unexpected characters (every character is a
    digit, a letter, an underscore, one of [+ - * / ^ ( ) =] or skipped
    white space) has no token of type [ERROR]. *)
Theorem expected_characters_no_error_token `{JsNumber} (source : string) :
  allChars (λ c, negb (isUnexpected c)) source = true →
  ∃ tokens,
    Lexer.tokenize source = Some tokens
    ∧ Forall (λ t, type t ≠ ERROR) tokens
    ∧ Compiler.collectLexicalErrors tokens = [].
Proof.
  intros Hsource. destruct (tokenize_covers source) as (body & -> & Hcov).
  eexists. split; [done|].
  assert (Forall (λ t, type t ≠ ERROR)
            (body ++ [mkToken EOF "" (positionAfter source) None])) as Htypes.
  { apply Forall_app. split; [|by repeat constructor].
    eapply Forall_impl; [exact (covers_locates _ _ Hcov)|].
    intros t ([Hfits _] & before & Hholds & _) Herror.
    pose proof (holds_allChars _ _ _ _ Hholds Hsource) as Hlexeme.
    rewrite Herror in Hfits. simpl in Hfits.
    destruct (lexeme t) as [|c [|]]; try done. simpl in Hlexeme.
    by rewrite Hfits in Hlexeme. }
  split; [done|]. unfold Compiler.collectLexicalErrors.
  induction Htypes as [|t tokens Ht _ IH]; [done|].
  by rewrite filter_cons_False.
Qed.

Lemma expected_characters_no_error_token_witness :
  ∃ tokens,
    Lexer.tokenize (H:=decimalNumber) "x_1 = (2 + 3) ^ 2" = Some tokens
    ∧ Forall (λ t, type t ≠ ERROR) tokens
    ∧ Compiler.collectLexicalErrors tokens = [].
Proof.
  apply (expected_characters_no_error_token "x_1 = (2 + 3) ^ 2").
  reflexivity.
Defined.

(** X4. Every lexical error is about an unexpected character [c] of the
    source: its message quotes [c], and its position is the line and column
    of [c]. *)
Theorem lexical_errors_locate_characters `{JsNumber} (source : string) :
  ∃ tokens,
    Lexer.tokenize source = Some tokens
    ∧ Forall (λ e, ∃ before c,
                 holds source before (String c "")
                 ∧ isUnexpected c = true
                 ∧ e = unexpectedCharacter before c)
        (Compiler.collectLexicalErrors tokens).
Proof.
  destruct (tokenize_covers source) as (body & -> & Hcov).
  eexists. split; [done|]. unfold Compiler.collectLexicalErrors.
  rewrite filter_app, fmap_app, (filter_cons_False _ _ []) by done.
  rewrite filter_nil, app_nil_r. apply Forall_fmap.
  pose proof (covers_locates _ _ Hcov) as Hlocated. clear Hcov.
  induction Hlocated as [|t body' Ht _ IH]; [done|].
  destruct (decide (type t = ERROR)) as [Herror|Hother];
    [rewrite filter_cons_True by done|by rewrite filter_cons_False].
  constructor; [|done].
  destruct Ht as ([Hfits _] & before & Hholds & Hpos).
  rewrite Herror in Hfits. simpl in Hfits.
  destruct (lexeme t) as [|c [|]] eqn:Hlexeme; try done.
  exists before, c. split_and!; [done..|].
  unfold unexpectedCharacter. simpl. by rewrite Hlexeme, Hpos.
Qed.

Section ValidationFacts.
Context `{JsNumber}.
Import Validation.

Lemma trimEnd_whitespace (s : string) :
  allChars removed s = true → trimEnd s = "".
Proof.
  induction s as [|c s IH]; [done|]. simpl. intros [Hc Hs]%andb_prop.
  by rewrite IH, Hc.
Qed.

Lemma trimEnd_empty (s : string) :
  trimEnd s = "" → allChars removed s = true.
Proof.
  induction s as [|c s IH]; [done|]. simpl.
  destruct (trimEnd s); [|done]. destruct (removed c); [|done]. auto.
Qed.

Lemma trimStart_keeps (s : string) :
  allChars removed (trimStart s) = allChars removed s.
Proof.
  induction s as [|c s IH]; [done|]. simpl.
  destruct (removed c) eqn:Hc; [done|]. simpl. by rewrite Hc.
Qed.

(** [trim] leaves nothing exactly of the strings made of white space. *)
Lemma isEmptyOrWhitespace_spec (input : string) :
  isEmptyOrWhitespace input = allChars removed input.
Proof.
  unfold isEmptyOrWhitespace, trim. rewrite <- trimStart_keeps.
  destruct (allChars removed (trimStart input)) eqn:Hall.
  - rewrite (trimEnd_whitespace _ Hall). by apply bool_decide_eq_true.
  - apply bool_decide_eq_false. intros Hlen.
    assert (trimEnd (trimStart input) = "") as Hempty
      by (by destruct (trimEnd (trimStart input))).
    apply trimEnd_empty in Hempty. congruence.
Qed.

Lemma isSkipped_isWhiteSpace c : isSkipped c = true → removed c = true.
Proof. by destruct c as [[] [] [] [] [] [] [] []]. Qed.

Lemma covers_nothing body (text : string) :
  covers body text → body = [] → allChars isSkipped text = true.
Proof.
  induction 1 as [|body text c Hcov IH Hc|body text t Hcov IH Hwf Hpos];
    intros Hbody; [done| |by destruct body].
  rewrite allChars_app, IH by done. simpl. by rewrite Hc.
Qed.

Lemma covers_types body (text : string) :
  covers body text → Forall (λ t, type t ≠ EOF) body.
Proof.
  induction 1 as [|body text c Hcov IH Hc|body text t Hcov IH Hwf Hpos];
    [done..|].
  apply Forall_app. split; [done|]. constructor; [|done].
  destruct Hwf as [Hfits _]. intros Heof. by rewrite Heof in Hfits.
Qed.

(** A lexeme made of white space is one stray white space character, in a
    token of type [ERROR]. *)
Lemma lexemeFits_whitespace ty (lexeme : string) :
  lexemeFits ty lexeme = true → allChars removed lexeme = true →
  ty = ERROR ∧ ∃ c, lexeme = String c "" ∧ strayWhiteSpace c = true.
Proof.
  assert (∀ c, Lexer.isDigit c = true → removed c = false) as Hdigit.
  { intros c. by destruct c as [[] [] [] [] [] [] [] []]. }
  assert (∀ c, Lexer.isAlpha c = true → removed c = false) as Halpha.
  { intros c. by destruct c as [[] [] [] [] [] [] [] []]. }
  assert (∀ c ty', symbolType c = Some ty' → removed c = false)
    as Hsymbol.
  { intros c ty'. by destruct c as [[] [] [] [] [] [] [] []]. }
  assert (∀ ty',
            match lexeme with
            | String c "" => bool_decide (symbolType c = Some ty')
            | _ => false
            end = true →
            allChars removed lexeme = true → False) as Hone.
  { intros ty'. destruct lexeme as [|c [|]]; try done.
    intros Hc%bool_decide_eq_true. simpl. by rewrite (Hsymbol c ty'). }
  destruct ty; simpl; try (intros Hfits Hall; by destruct (Hone _ Hfits Hall)).
  - destruct lexeme as [|c rest]; [done|]. simpl.
    intros [Hc _]%andb_prop. by rewrite (Hdigit c Hc).
  - destruct lexeme as [|c rest]; [done|]. simpl.
    destruct (Lexer.isDigit c) eqn:Hc; [|done]. by rewrite (Hdigit c Hc).
  - destruct lexeme as [|c rest]; [done|]. simpl.
    intros [Hc _]%andb_prop. by rewrite (Halpha c Hc).
  - done.
  - destruct lexeme as [|c [|]]; try done. intros Hc Hws. split; [done|].
    simpl in Hws. rewrite andb_true_r in Hws. exists c. split; [done|].
    unfold strayWhiteSpace. rewrite Hws. simpl.
    unfold isUnexpected in Hc. destruct (isSkipped c); [|done].
    by rewrite orb_true_r in Hc.
Qed.

Lemma covers_whitespace body (text : string) :
  covers body text → allChars removed text = true →
  Forall (λ t, type t = ERROR
               ∧ ∃ c, lexeme t = String c "" ∧ strayWhiteSpace c = true)
    body.
Proof.
  induction 1 as [|body text c Hcov IH Hc|body text t Hcov IH Hwf Hpos];
    [done|..]; rewrite allChars_app; intros [Htext Hlast]%andb_prop; [auto|].
  apply Forall_app. split; [auto|]. constructor; [|done].
  destruct Hwf as [Hfits _]. by apply lexemeFits_whitespace.
Qed.

End ValidationFacts.

(** X5. An input that [validateInput] accepts has a token: its tokens do not
    start with [EOF]. *)
Theorem valid_input_has_a_token `{JsNumber} (input : string) :
  Validation.isValid (Validation.validateInput input) = true →
  ∃ t rest, Lexer.tokenize input = Some (t :: rest) ∧ type t ≠ EOF.
Proof.
  intros Hvalid. destruct (tokenize_covers input) as (body & -> & Hcov).
  pose proof (covers_types _ _ Hcov) as Htypes.
  destruct body as [|t rest].
  - unfold Validation.validateInput in Hvalid.
    rewrite isEmptyOrWhitespace_spec in Hvalid.
    rewrite (allChars_impl _ _ _ isSkipped_isWhiteSpace
               (covers_nothing _ _ Hcov eq_refl)) in Hvalid.
    done.
  - eexists t, _. split; [done|]. by apply Forall_cons in Htypes as [Ht _].
Qed.

Lemma valid_input_has_a_token_witness :
  ∃ t rest, Lexer.tokenize (H:=decimalNumber) "x" = Some (t :: rest)
            ∧ type t ≠ EOF.
Proof. apply (valid_input_has_a_token "x"). reflexivity. Defined.

(** X6. An input that [isEmptyOrWhitespace] holds of has no token but
    [ERROR] tokens, each for one character of white space that [trim]
    removes and the lexer does not skip; the lexer skips space, tab,
    carriage return and line feed only. *)
Theorem whitespace_input_tokens `{JsNumber} (input : string) :
  Validation.isEmptyOrWhitespace input = true →
  ∃ body eof,
    Lexer.tokenize input = Some (body ++ [eof]) ∧ type eof = EOF
    ∧ Forall (λ t, type t = ERROR
                   ∧ ∃ c, lexeme t = String c ""
                          ∧ Validation.isWhiteSpace (N_of_ascii c) = true
                          ∧ isSkipped c = false) body.
Proof.
  rewrite isEmptyOrWhitespace_spec. intros Hinput.
  destruct (tokenize_covers input) as (body & -> & Hcov).
  eexists body, _. split_and!; [done..|].
  eapply Forall_impl; [by apply (covers_whitespace _ input)|].
  intros t (Hty & c & Hlexeme & [Hws Hskip%negb_true_iff]%andb_prop).
  split; [done|]. by exists c.
Qed.

Lemma whitespace_input_tokens_witness :
  ∃ body eof,
    Lexer.tokenize (H:=decimalNumber) (String " " (String "012" ""))
    = Some (body ++ [eof]) ∧ type eof = EOF
    ∧ Forall (λ t, type t = ERROR
                   ∧ ∃ c, lexeme t = String c ""
                          ∧ Validation.isWhiteSpace (N_of_ascii c) = true
                          ∧ isSkipped c = false) body.
Proof.
  apply (whitespace_input_tokens (String " " (String "012" ""))). reflexivity.
Defined.

Section ParserBuilds.
Context `{JsNumber}.
Variable tokens : list Token.
Variable recorded : list CompilerError.
Import Parser.

Ltac here p :=
  let t := fresh "t" in let Ht := fresh "Ht" in
  lazymatch goal with
  | Ht : tokens !! current p = Some _ |- _ => rewrite Ht
  | |- _ =>
      destruct (tokens !! current p) as [t|] eqn:Ht;
      [ pose proof (list_elem_of_lookup_2 _ _ _ Ht)
      | by (cbn [post]; left) ]
  end.

Ltac try_match p :=
  apply post_bind; rewrite matchAny_eq; here p;
  let Hty := fresh "Hty" in case_bool_decide as Hty; cbn [post].

Ltac take_previous :=
  apply post_bind; rewrite previous_stepped; cbn [post]; apply post_bind;
  lazymatch goal with
  | Ht : tokens !! current ?p = Some _
    |- context [defined (tokens !! current ?p)] =>
      rewrite Ht; cbn [defined ret post]
  end.

Ltac sub_call IH :=
  apply post_bind; eapply post_mono;
  [ apply IH; try done
  | let a := fresh "a" in let p := fresh "p" in
    let Ha := fresh "Ha" in let He := fresh "He" in
    intros a p [Ha He]; cbn beta
  | done
  | done ].

Ltac is_built :=
  cbn [ret post]; (split; [|done]);
  first [ done
        | constructor; first [done | set_solver] ].

Lemma expr_built n :
  (∀ p, errors p = recorded →
     (∀ t, tokens !! current p = Some t → type t ∉ [MINUS; PLUS]) →
     post (parsePrimary tokens n p) (built tokens recorded)
       (reported tokens recorded) True)
  ∧ (∀ p, errors p = recorded →
       post (parseUnary tokens n p) (built tokens recorded)
         (reported tokens recorded) True)
  ∧ (∀ p, errors p = recorded →
       post (parsePower tokens n p) (built tokens recorded)
         (reported tokens recorded) True)
  ∧ (∀ p left, errors p = recorded → builtFrom tokens left →
       post (multiplicativeLoop tokens n left p) (built tokens recorded)
         (reported tokens recorded) True)
  ∧ (∀ p, errors p = recorded →
       post (parseMultiplicative tokens n p) (built tokens recorded)
         (reported tokens recorded) True)
  ∧ (∀ p left, errors p = recorded → builtFrom tokens left →
       post (additiveLoop tokens n left p) (built tokens recorded)
         (reported tokens recorded) True)
  ∧ (∀ p, errors p = recorded →
       post (parseAdditive tokens n p) (built tokens recorded)
         (reported tokens recorded) True)
  ∧ (∀ p, errors p = recorded →
       post (parseExpression tokens n p) (built tokens recorded)
         (reported tokens recorded) True).
Proof.
  induction n as [|n (IHprimary & IHunary & IHpower & IHmloop & IHmult & IHaloop
                      & IHadd & IHexpr)]; [by repeat split|].
  repeat split.
  - intros p Hp Hsign. cbn [parsePrimary].
    try_match p; [take_previous; is_built|].
    try_match p; [take_previous; is_built|].
    try_match p; [take_previous; is_built|].
    try_match p.
    + sub_call IHexpr. apply post_bind. rewrite expect_eq.
      here p0. case_bool_decide as Hparen; cbn [post]; [is_built|].
      right. exists t0, (syntaxError "Expected ')' after expression" "RPAREN" t0).
      split_and!; [done|by rewrite He|done|]. right. split; [done|].
      intros Hrp. apply Hparen. by rewrite Hrp.
    + apply post_bind. unfold peek. cbn [post]. rewrite Ht.
      cbn [defined ret post bind addError throw].
      right. exists t, (syntaxError "Expected expression" "expression" t).
      split_and!; [done|by rewrite Hp|done|]. left. split; [done|].
      specialize (Hsign t eq_refl). unfold expressionStart.
      destruct (type t); set_solver.
  - intros p Hp. cbn [parseUnary].
    try_match p.
    + take_previous. sub_call IHunary. is_built.
    + apply IHprimary; [done|]. intros t' Ht'. rewrite Ht in Ht'.
      injection Ht' as <-. destruct (type t); set_solver.
  - intros p Hp. cbn [parsePower].
    sub_call IHunary. try_match p0; [|is_built].
    take_previous. sub_call IHpower. is_built.
  - intros p left Hp Hleft. cbn [multiplicativeLoop].
    try_match p; [|is_built].
    take_previous. sub_call IHpower. apply IHmloop; [done|].
    constructor; first [done | set_solver].
  - intros p Hp. cbn [parseMultiplicative].
    sub_call IHpower. by apply IHmloop.
  - intros p left Hp Hleft. cbn [additiveLoop].
    try_match p; [|is_built].
    take_previous. sub_call IHmult. apply IHaloop; [done|].
    constructor; first [done | set_solver].
  - intros p Hp. cbn [parseAdditive].
    sub_call IHmult. by apply IHaloop.
  - intros p Hp. cbn [parseExpression]. by apply IHadd.
Qed.

Lemma skipErrors_quiet n : ∀ p,
  errors p = recorded →
  post (skipErrors tokens n p) (λ _ p', errors p' = recorded)
    (reported tokens recorded) True.
Proof.
  induction n as [|n IH]; intros p Hp; [done|].
  cbn [skipErrors]. apply post_bind. rewrite check_eq. here p. cbn [post].
  case_bool_decide as Herror; [|done].
  apply post_bind. rewrite advance_eq, Ht.
  rewrite bool_decide_eq_false_2 by naive_solver. cbn [post]. by apply IH.
Qed.

Lemma parseStatement_built n p :
  errors p = recorded →
  post (parseStatement tokens n p)
    (λ r p', from_option (statementFrom tokens) True r ∧ errors p' = recorded)
    (reported tokens recorded) True.
Proof.
  intros Hp. unfold parseStatement.
  apply post_bind. eapply post_mono; [by apply skipErrors_quiet| |done|done].
  intros [] p0 Hp0. cbn beta.
  apply post_bind. rewrite isAtEnd_eq. here p0. cbn [post].
  case_bool_decide as Heof; [done|].
  apply post_bind. rewrite check_eq, Ht. cbn [post]. apply post_bind.
  destruct (nextIsEquals_state tokens p0) as [isEquals HisEquals].
  case_bool_decide as Hidentifier;
    [rewrite HisEquals; destruct isEquals|]; cbn [ret post].
  - apply post_bind. unfold parseAssignment. apply post_bind.
    rewrite advance_eq, Ht, bool_decide_eq_false_2 by done.
    cbn [post]. apply post_bind. cbn [defined ret post]. apply post_bind.
    rewrite advance_eq.
    destruct (tokens !! current (stepped p0)) as [t1|] eqn:Ht1;
      [|by cbn [post]; left].
    destruct Hidentifier as [_ Hidentifier].
    case_bool_decide; cbn [post].
    + sub_call (proj2 (proj2 (proj2 (proj2 (proj2 (proj2 (proj2
                  (expr_built n)))))))).
      cbn [ret post]. split; [|done]. by constructor 2.
    + sub_call (proj2 (proj2 (proj2 (proj2 (proj2 (proj2 (proj2
                  (expr_built n)))))))).
      cbn [ret post]. split; [|done]. by constructor 2.
  - sub_call (proj2 (proj2 (proj2 (proj2 (proj2 (proj2 (proj2
                (expr_built n)))))))).
    cbn [ret post]. split; [|done]. by constructor 1.
  - sub_call (proj2 (proj2 (proj2 (proj2 (proj2 (proj2 (proj2
                (expr_built n)))))))).
    cbn [ret post]. split; [|done]. by constructor 1.
Qed.

Lemma parseLoop_built n : ∀ loopFuel statements p r,
  Forall (statementFrom tokens) statements →
  errors p = recorded →
  parseLoop tokens n loopFuel statements p = Returns r →
  Forall (statementFrom tokens) (ParseResult.ast r)
  ∧ (ParseResult.errors r = recorded
     ∨ ∃ t err, t ∈ tokens ∧ ParseResult.errors r = recorded ++ [err]
                ∧ syntaxErrorAt t err).
Proof.
  induction loopFuel as [|loopFuel IH]; intros statements p r Hdone Hp Hrun;
    [done|].
  cbn [parseLoop] in Hrun. rewrite isAtEnd_eq in Hrun.
  destruct (tokens !! current p) as [t|] eqn:Ht; [|done].
  case_bool_decide as Heof.
  { injection Hrun as <-. split; [done|by left]. }
  pose proof (parseStatement_built n p Hp) as Hstmt.
  destruct (parseStatement tokens n p) as [[stmt|] p1|e p1|];
    cbn [post from_option] in Hstmt; try done.
  - destruct Hstmt as [Hstmt Hp1]. eapply IH; [|exact Hp1|exact Hrun].
    apply Forall_app. by split; [|constructor].
  - destruct Hstmt as [_ Hp1]. by apply (IH _ _ _ Hdone Hp1 Hrun).
  - injection Hrun as <-. split; [done|]. cbn [ParseResult.errors].
    destruct Hstmt as [(_ & Herr & _)|(t' & err & Ht' & Herr & _ & Hat)];
      [by left|].
    right. exists t', err. split_and!; [|done..].
    by eapply list_elem_of_lookup_2.
Qed.

End ParserBuilds.

(** X7. Every statement [parse] returns is built from the tokens: each node
    comes from one token of a fitting type, which gives it its position and
    its value, name or operator; a statement is an expression, or the
    assignment of an expression to the name of an [IDENTIFIER] token. *)
Theorem parse_builds_from_tokens `{JsNumber} (tokens : list Token)
    (r : ParseResult.t) :
  Parser.parse tokens = Parser.Returns r →
  Forall (statementFrom tokens) (ParseResult.ast r).
Proof.
  intros Hparse.
  by destruct (parseLoop_built tokens [] _ _ [] (Parser.mkParser 0 []) r
                 (Forall_nil_2 _) eq_refl Hparse).
Qed.

Lemma parse_builds_from_tokens_witness :
  let tokens :=
    [mkToken (H:=decimalNumber) IDENTIFIER "x" (mkPosition 1 1) None;
     mkToken EQUALS "=" (mkPosition 1 3) None;
     mkToken MINUS "-" (mkPosition 1 5) None;
     mkToken INTEGER "1" (mkPosition 1 6) (Some 1%Q);
     mkToken EOF "" (mkPosition 1 7) None] in
  let tree :=
    AssignmentNode (H:=decimalNumber) "x"
      (UnaryExprNode "-" (LiteralNode 1%Q Integer (mkPosition 1 6) None)
         (mkPosition 1 5) None)
      (mkPosition 1 1) in
  Forall (statementFrom tokens) [tree].
Proof.
  intros tokens tree.
  apply (parse_builds_from_tokens tokens (ParseResult.mk [tree] [])).
  reflexivity.
Defined.

(** X8. [parse] records either no error, or one error about a token [t] of
    the input: ["Expected expression"] when no expression can start with
    [t], or ["Expected ')' after expression"] when [t] is not a [')']; the
    error carries the position of [t] and names its type as [actual]. *)
Theorem syntax_error_names_a_token `{JsNumber} (tokens : list Token)
    (r : ParseResult.t) :
  Parser.parse tokens = Parser.Returns r →
  ParseResult.errors r = []
  ∨ ∃ t err, t ∈ tokens ∧ ParseResult.errors r = [err] ∧ syntaxErrorAt t err.
Proof.
  intros Hparse.
  by destruct (parseLoop_built tokens [] _ _ [] (Parser.mkParser 0 []) r
                 (Forall_nil_2 _) eq_refl Hparse).
Qed.

Lemma syntax_error_names_a_token_witness :
  let tokens :=
    [mkToken (H:=decimalNumber) LPAREN "(" (mkPosition 1 1) None;
     mkToken INTEGER "1" (mkPosition 1 2) (Some 1%Q);
     mkToken EOF "" (mkPosition 1 3) None] in
  let r :=
    ParseResult.mk []
      [mkCompilerError syntax "Expected ')' after expression" (mkPosition 1 3)
         (Some "RPAREN") (Some "EOF") None] in
  ParseResult.errors r = []
  ∨ ∃ t err, t ∈ tokens ∧ ParseResult.errors r = [err] ∧ syntaxErrorAt t err.
Proof.
  intros tokens r. apply (syntax_error_names_a_token tokens r). reflexivity.
Defined.

(** X9. A sign binds tighter than every binary operator, [^] included:
    with [a] and [b] operands, [-a ^ b] is parsed as [(-a) ^ b] and
    [-a * b] as [(-a) * b]; a sign may follow an operator or a sign,
    [a ^ -b], [a - -b] and [-+a] being parsed as [a ^ (-b)], [a - (-b)]
    and [-(+a)].  Evaluating the tree of [-a ^ b] therefore gives
    [(-a) ^ b], and a [+] sign changes nothing. *)
Theorem sign_binds_tightest `{JsNumber} (a b eof : Token)
    (p1 p2 : Position) :
  isOperandToken a = true → isOperandToken b = true → type eof = EOF →
  let A := operandNode a in
  let B := operandNode b in
  let op ty lexeme pos := symbolToken ty lexeme pos in
  (parsesTo [op MINUS "-" p1; a; op CARET "^" p2; b; eof]
     (binary "^" p2 (unary "-" p1 A) B)
   ∧ parsesTo [op MINUS "-" p1; a; op STAR "*" p2; b; eof]
       (binary "*" p2 (unary "-" p1 A) B)
   ∧ parsesTo [a; op CARET "^" p1; op MINUS "-" p2; b; eof]
       (binary "^" p1 A (unary "-" p2 B))
   ∧ parsesTo [a; op MINUS "-" p1; op MINUS "-" p2; b; eof]
       (binary "-" p1 A (unary "-" p2 B))
   ∧ parsesTo [op MINUS "-" p1; op PLUS "+" p2; a; eof]
       (unary "-" p1 (unary "+" p2 A)))
  ∧ ∀ (add sub mul div pow : number → number → number)
      (neg : number → number) (variables : gmap string number),
      let evaluate := ParserTest.evaluate add sub mul div pow neg variables in
      evaluate (binary "^" p2 (unary "-" p1 A) B)
        = (va ← evaluate A; vb ← evaluate B; Some (pow (neg va) vb))
      ∧ evaluate (unary "-" p1 (unary "+" p2 A))
        = (va ← evaluate A; Some (neg va)).
Proof.
  intros Ha Hb Heof A B op. split.
  - subst A B op.
    destruct eof as [tye ? ? ?]. simpl in Heof. subst tye.
    unfold isOperandToken in *.
    operand_cases a Ha; operand_cases b Hb;
      unfold parsesTo; split_and!; vm_compute; reflexivity.
  - intros add sub mul div pow neg variables evaluate.
    subst evaluate. unfold binary, unary. cbn [ParserTest.evaluate].
    generalize (ParserTest.evaluate add sub mul div pow neg variables A),
      (ParserTest.evaluate add sub mul div pow neg variables B).
    intros [va|] [vb|]; split; reflexivity.
Qed.

Lemma sign_binds_tightest_witness :
  let number lexeme value column :=
    mkToken (H:=decimalNumber) INTEGER lexeme (mkPosition 1 column)
      (Some value) in
  let literal value column :=
    LiteralNode (H:=decimalNumber) value Integer (mkPosition 1 column) None in
  parsesTo
    [symbolToken MINUS "-" (mkPosition 1 1); number "2" 2%Q 2;
     symbolToken CARET "^" (mkPosition 1 4); number "2" 2%Q 6;
     mkToken EOF "" (mkPosition 1 7) None]
    (binary "^" (mkPosition 1 4) (unary "-" (mkPosition 1 1) (literal 2%Q 2))
       (literal 2%Q 6)).
Proof.
  intros number literal.
  exact (proj1 (proj1 (sign_binds_tightest
                         (number "2" 2%Q 2) (number "2" 2%Q 6)
                         (mkToken EOF "" (mkPosition 1 7) None)
                         (mkPosition 1 1) (mkPosition 1 4)
                         eq_refl eq_refl eq_refl))).
Defined.

Section SemanticMore.
Context `{JsNumber}.
Import Semantic.

Ltac node_induction node :=
  induction node as [name value IH pos|op l IHl r IHr pos rt
                    |op operand IH pos rt|value dt pos rt|name pos rt].

Lemma analyzeNode_erase node : ∀ a, erase (analyzeNode node a).1 = erase node.
Proof.
  node_induction node; intros a; cbn [analyzeNode].
  - unfold analyzeAssignment. specialize (IH a).
    destruct (analyzeNode value a) as [annotated a1]. simpl in *. by rewrite IH.
  - unfold analyzeBinaryExpr. specialize (IHl a).
    destruct (analyzeNode l a) as [annotatedLeft a1]. specialize (IHr a1).
    destruct (analyzeNode r a1) as [annotatedRight a2]. simpl in *.
    by rewrite IHl, IHr.
  - unfold analyzeUnaryExpr. specialize (IH a).
    destruct (analyzeNode operand a) as [annotated a1]. simpl in *. by rewrite IH.
  - done.
  - unfold analyzeVariable. by destruct (symbolTable a !! name).
Qed.

Lemma analyzeAll_erase ast : ∀ annotatedAst a,
  erase <$> (analyzeAll ast annotatedAst a).1
  = (erase <$> annotatedAst) ++ (erase <$> ast).
Proof.
  induction ast as [|node ast IH]; intros annotatedAst a; simpl.
  - by rewrite app_nil_r.
  - pose proof (analyzeNode_erase node a) as Hnode.
    destruct (analyzeNode node a) as [annotated a1]. simpl in Hnode.
    rewrite IH, fmap_app. simpl. by rewrite Hnode, <- app_assoc.
Qed.

(** Errors are only ever added, at the end. *)
Lemma analyzeNode_errors_grow node : ∀ a,
  ∃ new, errors (analyzeNode node a).2 = errors a ++ new.
Proof.
  node_induction node; intros a; cbn [analyzeNode].
  - unfold analyzeAssignment. destruct (IH a) as [new Hnew].
    destruct (analyzeNode value a) as [annotated a1]. simpl in *.
    exists new. by destruct (getResolvedType annotated).
  - unfold analyzeBinaryExpr. destruct (IHl a) as [new1 Hnew1].
    destruct (analyzeNode l a) as [annotatedLeft a1].
    destruct (IHr a1) as [new2 Hnew2].
    destruct (analyzeNode r a1) as [annotatedRight a2]. simpl in *.
    exists (new1 ++ new2). by rewrite Hnew2, Hnew1, app_assoc.
  - unfold analyzeUnaryExpr. destruct (IH a) as [new Hnew].
    destruct (analyzeNode operand a) as [annotated a1]. by exists new.
  - exists []. simpl. by rewrite app_nil_r.
  - unfold analyzeVariable. destruct (symbolTable a !! name); simpl.
    + exists []. by rewrite app_nil_r.
    + by eexists.
Qed.

Lemma analyzeAll_errors_grow ast : ∀ annotatedAst a,
  ∃ new, errors (analyzeAll ast annotatedAst a).2 = errors a ++ new.
Proof.
  induction ast as [|node ast IH]; intros annotatedAst a; simpl.
  - exists []. by rewrite app_nil_r.
  - destruct (analyzeNode_errors_grow node a) as [new1 Hnew1].
    destruct (analyzeNode node a) as [annotated a1]. simpl in Hnew1.
    destruct (IH (annotatedAst ++ [annotated]) a1) as [new2 Hnew2].
    exists (new1 ++ new2). by rewrite Hnew2, Hnew1, app_assoc.
Qed.

Lemma app_same_nil {A} (l new : list A) : l ++ new = l → new = [].
Proof.
  intros Heq. apply (f_equal length) in Heq. rewrite length_app in Heq.
  destruct new; [done|simpl in Heq; lia].
Qed.

Lemma typed_getResolvedType node :
  typed node = true → is_Some (getResolvedType node).
Proof.
  node_induction node; simpl; intros Hty; auto;
    repeat (apply andb_prop in Hty as [? Hty]);
    by apply bool_decide_eq_true in Hty.
Qed.

Lemma analyzeNode_typed node : ∀ a,
  errors (analyzeNode node a).2 = errors a → typed (analyzeNode node a).1 = true.
Proof.
  node_induction node; intros a; cbn [analyzeNode].
  - unfold analyzeAssignment. specialize (IH a).
    destruct (analyzeNode value a) as [annotated a1]. simpl in *.
    by destruct (getResolvedType annotated).
  - unfold analyzeBinaryExpr. specialize (IHl a).
    destruct (analyzeNode_errors_grow l a) as [new1 Hnew1].
    destruct (analyzeNode l a) as [annotatedLeft a1]. specialize (IHr a1).
    destruct (analyzeNode_errors_grow r a1) as [new2 Hnew2].
    destruct (analyzeNode r a1) as [annotatedRight a2]. simpl in *.
    intros Heq. rewrite Hnew2, Hnew1, <- app_assoc in Heq.
    apply app_same_nil, app_eq_nil in Heq as [-> ->].
    rewrite app_nil_r in *. rewrite IHl, IHr by congruence. simpl.
    destruct (typed_getResolvedType annotatedLeft) as [tl ->]; [by apply IHl|].
    destruct (typed_getResolvedType annotatedRight) as [tr ->];
      [apply IHr; congruence|].
    by apply bool_decide_eq_true.
  - unfold analyzeUnaryExpr. specialize (IH a).
    destruct (analyzeNode operand a) as [annotated a1]. simpl in *.
    intros Heq. rewrite IH by done. simpl.
    apply bool_decide_eq_true, typed_getResolvedType. by apply IH.
  - done.
  - unfold analyzeVariable. destruct (symbolTable a !! name); simpl; [done|].
    intros Heq. by apply app_same_nil in Heq.
Qed.

Lemma analyzeAll_typed ast : ∀ annotatedAst a,
  forallb typed annotatedAst = true →
  errors (analyzeAll ast annotatedAst a).2 = errors a →
  forallb typed (analyzeAll ast annotatedAst a).1 = true.
Proof.
  induction ast as [|node ast IH]; intros annotatedAst a Hdone; simpl; [done|].
  pose proof (analyzeNode_typed node a) as Hnode.
  destruct (analyzeNode_errors_grow node a) as [new1 Hnew1].
  destruct (analyzeNode node a) as [annotated a1]. simpl in *.
  destruct (analyzeAll_errors_grow ast (annotatedAst ++ [annotated]) a1)
    as [new2 Hnew2].
  intros Heq. rewrite Hnew2, Hnew1, <- app_assoc in Heq.
  apply app_same_nil, app_eq_nil in Heq as [-> ->]. rewrite app_nil_r in *.
  apply IH; [|congruence].
  rewrite forallb_app, Hdone. simpl. by rewrite Hnode.
Qed.


Lemma analyzeNode_untyped node : ∀ a,
  unannotated node = true → typed (analyzeNode node a).1 = true →
  errors (analyzeNode node a).2 = errors a.
Proof.
  node_induction node; intros a; cbn [analyzeNode]; simpl.
  - unfold analyzeAssignment. specialize (IH a).
    destruct (analyzeNode value a) as [annotated a1]. simpl in *.
    intros Hun Hty. destruct (getResolvedType annotated); simpl; auto.
  - unfold analyzeBinaryExpr. specialize (IHl a).
    destruct (analyzeNode l a) as [annotatedLeft a1]. specialize (IHr a1).
    destruct (analyzeNode r a1) as [annotatedRight a2]. simpl in *.
    intros Hun Hty. apply andb_prop in Hun as [Hun _].
    apply andb_prop in Hun as [Hl Hr]. apply andb_prop in Hty as [Hty _].
    apply andb_prop in Hty as [Htl Htr]. rewrite IHr, IHl; auto.
  - unfold analyzeUnaryExpr. specialize (IH a).
    destruct (analyzeNode operand a) as [annotated a1]. simpl in *.
    intros Hun Hty. apply andb_prop in Hun as [Hun _].
    apply andb_prop in Hty as [Hty _]. auto.
  - done.
  - unfold analyzeVariable. intros ->%bool_decide_eq_true.
    destruct (symbolTable a !! name); simpl; [done|].
    done.
Qed.

Lemma analyzeAll_untyped ast : ∀ annotatedAst a,
  forallb unannotated ast = true →
  forallb typed (analyzeAll ast annotatedAst a).1 = true →
  errors (analyzeAll ast annotatedAst a).2 = errors a.
Proof.
  induction ast as [|node ast IH]; intros annotatedAst a; simpl; [done|].
  intros [Hnode Hast]%andb_prop.
  pose proof (analyzeNode_untyped node a Hnode) as Herr.
  pose proof (analyzeAll_erase ast) as Hshape.
  destruct (analyzeNode node a) as [annotated a1]. simpl in *.
  intros Hty. rewrite IH by done. apply Herr.
  specialize (Hshape (annotatedAst ++ [annotated]) a1).
  assert (∃ rest, (analyzeAll ast (annotatedAst ++ [annotated]) a1).1
                  = annotatedAst ++ annotated :: rest) as [rest Hrest].
  { clear. revert annotatedAst annotated a1.
    induction ast as [|node ast IH]; intros annotatedAst annotated a1; simpl.
    - by exists [].
    - destruct (analyzeNode node a1) as [annotated' a2].
      destruct (IH (annotatedAst ++ [annotated]) annotated' a2) as [rest ->].
      exists (annotated' :: rest). by rewrite <- app_assoc. }
  rewrite Hrest, forallb_app in Hty. simpl in Hty.
  apply andb_prop in Hty as [_ Hty]. by apply andb_prop in Hty as [Hty _].
Qed.

Lemma definedBy_more (from more : list (string * Position)) table :
  definedBy from table → definedBy (from ++ more) table.
Proof.
  intros Hdef name entry Hentry. destruct (Hdef name entry Hentry).
  split; [done|]. apply elem_of_app. by left.
Qed.

Lemma analyzeNode_definedBy node : ∀ a from,
  definedBy from (symbolTable a) →
  definedBy (from ++ assignments node) (symbolTable (analyzeNode node a).2).
Proof.
  node_induction node; intros a from Hdef; cbn [analyzeNode assignments].
  - unfold analyzeAssignment. specialize (IH a from Hdef).
    destruct (analyzeNode value a) as [annotated a1]. simpl in *.
    rewrite app_assoc.
    destruct (getResolvedType annotated) as [valueType|]; simpl;
      [|by apply definedBy_more].
    intros name' entry.
    destruct (decide (name' = name)) as [->|Hne].
    + rewrite lookup_insert_eq. intros [= <-]. simpl. split; [done|].
      apply elem_of_app. right. by apply list_elem_of_singleton.
    + rewrite lookup_insert_ne by done. by apply definedBy_more.
  - unfold analyzeBinaryExpr. specialize (IHl a from Hdef).
    destruct (analyzeNode l a) as [annotatedLeft a1].
    specialize (IHr a1 _ IHl).
    destruct (analyzeNode r a1) as [annotatedRight a2]. simpl in *.
    by rewrite app_assoc.
  - unfold analyzeUnaryExpr. specialize (IH a from Hdef).
    by destruct (analyzeNode operand a) as [annotated a1].
  - simpl. by rewrite app_nil_r.
  - unfold analyzeVariable. rewrite app_nil_r.
    by destruct (symbolTable a !! name).
Qed.

Lemma analyzeAll_definedBy ast : ∀ annotatedAst a from,
  definedBy from (symbolTable a) →
  definedBy (from ++ concat (assignments <$> ast))
    (symbolTable (analyzeAll ast annotatedAst a).2).
Proof.
  induction ast as [|node ast IH]; intros annotatedAst a from Hdef; simpl.
  - by rewrite app_nil_r.
  - pose proof (analyzeNode_definedBy node a from Hdef) as Hnode.
    destruct (analyzeNode node a) as [annotated a1]. simpl in *.
    rewrite app_assoc. by apply IH.
Qed.

(** Analysing the result of an analysis, from the same symbol table, gives
    the same tree, the same table and the same new errors. *)
Lemma analyzeNode_again node : ∀ a,
  ∃ new, errors (analyzeNode node a).2 = errors a ++ new
  ∧ ∀ b, symbolTable b = symbolTable a →
      analyzeNode (analyzeNode node a).1 b
      = ((analyzeNode node a).1,
         mkAnalyzer (symbolTable (analyzeNode node a).2) (errors b ++ new)).
Proof.
  node_induction node; intros a; cbn [analyzeNode].
  - unfold analyzeAssignment. destruct (IH a) as (new & Hnew & Hagain).
    destruct (analyzeNode value a) as [annotated a1]. simpl in *.
    exists new. split; [by destruct (getResolvedType annotated)|].
    intros b Hb. cbn [analyzeNode]. unfold analyzeAssignment.
    rewrite (Hagain b Hb). by destruct (getResolvedType annotated).
  - unfold analyzeBinaryExpr. destruct (IHl a) as (new1 & Hnew1 & Hagain1).
    destruct (analyzeNode l a) as [annotatedLeft a1].
    destruct (IHr a1) as (new2 & Hnew2 & Hagain2).
    destruct (analyzeNode r a1) as [annotatedRight a2]. simpl in *.
    exists (new1 ++ new2). split; [by rewrite Hnew2, Hnew1, app_assoc|].
    intros b Hb. cbn [analyzeNode]. unfold analyzeBinaryExpr.
    rewrite (Hagain1 b Hb), Hagain2 by done. simpl. by rewrite app_assoc.
  - unfold analyzeUnaryExpr. destruct (IH a) as (new & Hnew & Hagain).
    destruct (analyzeNode operand a) as [annotated a1]. simpl in *.
    exists new. split; [done|].
    intros b Hb. cbn [analyzeNode]. unfold analyzeUnaryExpr.
    by rewrite (Hagain b Hb).
  - exists []. simpl. split; [by rewrite app_nil_r|].
    intros [table errs] Hb. simpl in *. unfold analyzeLiteral.
    by rewrite app_nil_r, Hb.
  - unfold analyzeVariable.
    destruct (symbolTable a !! name) as [entry|] eqn:Hentry; simpl.
    + exists []. split; [by rewrite app_nil_r|].
      intros [table errs] Hb. simpl in *. unfold analyzeVariable. simpl.
      by rewrite Hb, Hentry, app_nil_r.
    + eexists. split; [done|].
      intros [table errs] Hb. simpl in *. unfold analyzeVariable. simpl.
      by rewrite Hb, Hentry.
Qed.

Lemma analyzeAll_again ast : ∀ annotatedAst a,
  ∃ out new,
    (analyzeAll ast annotatedAst a).1 = annotatedAst ++ out
    ∧ errors (analyzeAll ast annotatedAst a).2 = errors a ++ new
    ∧ ∀ again b, symbolTable b = symbolTable a →
        analyzeAll out again b
        = (again ++ out,
           mkAnalyzer (symbolTable (analyzeAll ast annotatedAst a).2)
             (errors b ++ new)).
Proof.
  induction ast as [|node ast IH]; intros annotatedAst a; simpl.
  - exists [], []. rewrite !app_nil_r. split_and!; [done..|].
    intros again [table errs] Hb. simpl in *. by rewrite !app_nil_r, Hb.
  - destruct (analyzeNode_again node a) as (new1 & Hnew1 & Hagain1).
    destruct (analyzeNode node a) as [annotated a1]. simpl in *.
    destruct (IH (annotatedAst ++ [annotated]) a1)
      as (out & new2 & Hout & Hnew2 & Hagain2).
    exists (annotated :: out), (new1 ++ new2).
    split_and!.
    + by rewrite Hout, <- app_assoc.
    + by rewrite Hnew2, Hnew1, app_assoc.
    + intros again b Hb. simpl. rewrite (Hagain1 b Hb).
      rewrite Hagain2 by done. simpl. by rewrite <- !app_assoc.
Qed.

End SemanticMore.

(** X10. Analysis only annotates: with the [resolvedType] fields taken
    away, the annotated program [analyze] returns is the program it was
    given, statement by statement. *)
Theorem analyze_only_annotates `{JsNumber} (ast : list ASTNode) :
  erase <$> SemanticResult.annotatedAst (Semantic.analyze ast) = erase <$> ast.
Proof.
  unfold Semantic.analyze.
  pose proof (analyzeAll_erase ast [] (Semantic.mkAnalyzer ∅ [])) as Herase.
  by destruct (Semantic.analyzeAll ast [] _) as [annotatedAst a].
Qed.

(** X11. When [analyze] reports no error, every node of the annotated program
    that has a [resolvedType] field carries a type. *)
Theorem no_error_every_node_typed `{JsNumber} (ast : list ASTNode) :
  SemanticResult.errors (Semantic.analyze ast) = [] →
  forallb typed (SemanticResult.annotatedAst (Semantic.analyze ast)) = true.
Proof.
  unfold Semantic.analyze.
  pose proof (analyzeAll_typed ast [] (Semantic.mkAnalyzer ∅ [])) as Htyped.
  destruct (Semantic.analyzeAll ast [] _) as [annotatedAst a]. simpl in *.
  auto.
Qed.

Lemma no_error_every_node_typed_witness :
  let ast :=
    [AssignmentNode (H:=decimalNumber) "x"
       (LiteralNode 5%Q Integer (mkPosition 1 5) None) (mkPosition 1 1);
     BinaryExprNode "/" (VariableNode "x" (mkPosition 2 1) None)
       (LiteralNode 2%Q Integer (mkPosition 2 5) None) (mkPosition 2 3) None] in
  forallb typed (SemanticResult.annotatedAst (Semantic.analyze ast)) = true.
Proof. intros ast. apply (no_error_every_node_typed ast). reflexivity. Defined.

(** X12. For a program the parser returned, the analysis reports no error
    exactly when every node of the annotated program ends up typed. *)
Theorem parsed_program_typed_iff_no_error `{JsNumber} (tokens : list Token)
    (r : ParseResult.t) :
  Parser.parse tokens = Parser.Returns r →
  let result := Semantic.analyze (ParseResult.ast r) in
  SemanticResult.errors result = []
  ↔ forallb typed (SemanticResult.annotatedAst result) = true.
Proof.
  intros Hparse%parse_unannotated. unfold Semantic.analyze.
  pose proof (analyzeAll_typed (ParseResult.ast r) []
                (Semantic.mkAnalyzer ∅ [])) as Htyped.
  pose proof (analyzeAll_untyped (ParseResult.ast r) []
                (Semantic.mkAnalyzer ∅ []) Hparse) as Huntyped.
  destruct (Semantic.analyzeAll _ [] _) as [annotatedAst a]. simpl in *.
  split; auto.
Qed.

Lemma parsed_program_typed_iff_no_error_witness :
  let tokens :=
    [mkToken (H:=decimalNumber) IDENTIFIER "x" (mkPosition 1 1) None;
     mkToken PLUS "+" (mkPosition 1 3) None;
     mkToken INTEGER "1" (mkPosition 1 5) (Some 1%Q);
     mkToken EOF "" (mkPosition 1 6) None] in
  let tree :=
    BinaryExprNode "+" (VariableNode "x" (mkPosition 1 1) None)
      (LiteralNode 1%Q Integer (mkPosition 1 5) None) (mkPosition 1 3) None in
  let result := Semantic.analyze [tree] in
  SemanticResult.errors result = []
  ↔ forallb typed (SemanticResult.annotatedAst result) = true.
Proof.
  intros tokens tree.
  apply (parsed_program_typed_iff_no_error tokens (ParseResult.mk [tree] [])).
  reflexivity.
Defined.

(** X13. Every entry of the symbol table [analyze] returns is filed under its
    own name, and its position is that of an [Assignment] node of the program
    with that name. *)
Theorem symbol_table_entries_from_assignments `{JsNumber}
    (ast : list ASTNode) :
  definedBy (concat (assignments <$> ast))
    (SemanticResult.symbolTable (Semantic.analyze ast)).
Proof.
  unfold Semantic.analyze.
  pose proof (analyzeAll_definedBy ast [] (Semantic.mkAnalyzer ∅ []) []) as Hdef.
  destruct (Semantic.analyzeAll ast [] _) as [annotatedAst a]. simpl in *.
  apply Hdef. intros name entry. by rewrite lookup_empty.
Qed.

(** X14. Analysing an annotated program again changes nothing: the second
    analysis returns the same annotated program, symbol table and errors. *)
Theorem analyze_idempotent `{JsNumber} (ast : list ASTNode) :
  Semantic.analyze (SemanticResult.annotatedAst (Semantic.analyze ast))
  = Semantic.analyze ast.
Proof.
  unfold Semantic.analyze.
  destruct (analyzeAll_again ast [] (Semantic.mkAnalyzer ∅ []))
    as (out & new & Hout & Hnew & Hagain).
  destruct (Semantic.analyzeAll ast [] _) as [annotatedAst a]. simpl in *.
  subst annotatedAst. rewrite (Hagain [] (Semantic.mkAnalyzer ∅ [])) by done.
  simpl. by rewrite Hnew.
Qed.

Section EvaluateFacts.
Context `{JsNumber}.
Variables add sub mul div pow : number → number → number.
Variable neg : number → number.
Variable variables : gmap string number.

Lemma evaluate_erase node :
  ParserTest.evaluate add sub mul div pow neg variables (erase node)
  = ParserTest.evaluate add sub mul div pow neg variables node.
Proof.
  induction node as [name value IH pos|op l IHl r IHr pos rt
                    |op operand IH pos rt|value dt pos rt|name pos rt];
    simpl; by rewrite ?IH, ?IHl, ?IHr.
Qed.

End EvaluateFacts.

(** X15. What [evaluate] computes does not depend on the annotations: the
    tree [analyzeNode] returns evaluates as the tree it was given, to the
    same number or to the same failure. *)
Theorem evaluate_ignores_annotations `{JsNumber}
    (add sub mul div pow : number → number → number) (neg : number → number)
    (variables : gmap string number) (node : ASTNode)
    (a : Semantic.SemanticAnalyzer) :
  ParserTest.evaluate add sub mul div pow neg variables
    (Semantic.analyzeNode node a).1
  = ParserTest.evaluate add sub mul div pow neg variables node.
Proof.
  rewrite <- (evaluate_erase _ _ _ _ _ _ _ (Semantic.analyzeNode node a).1).
  by rewrite analyzeNode_erase, evaluate_erase.
Qed.

Section CompilerFacts.
Context `{JsNumber}.

(** [compile] runs the three phases one after the other. *)
Lemma compile_phases (source : string) :
  ∃ tokens parsed,
    Lexer.tokenize source = Some tokens
    ∧ Parser.parse tokens = Parser.Returns parsed
    ∧ Compiler.compile source
      = Some (let analysed := Semantic.analyze (ParseResult.ast parsed) in
              let errors :=
                Compiler.collectLexicalErrors tokens
                ++ ParseResult.errors parsed in
              match ParseResult.ast parsed with
              | [] => CompilationResult.mk tokens None None None errors
              | _ :: _ =>
                  CompilationResult.mk tokens (Some (ParseResult.ast parsed))
                    (Some (SemanticResult.symbolTable analysed))
                    (Some (SemanticResult.annotatedAst analysed))
                    (errors ++ SemanticResult.errors analysed)
              end).
Proof.
  unfold Compiler.compile, Lexer.tokenize.
  destruct (scanLoop_runs source (Lexer.scanFuel source) Lexer.initial)
    as (lx & -> & _); [apply scanFuel_enough|].
  cbn [mbind option_bind].
  set (tokens := Lexer.tokens lx ++ [Lexer.eofToken lx]).
  assert (0 < length tokens) as Hlen.
  { unfold tokens. rewrite length_app. simpl. lia. }
  pose proof (parseLoop_errors tokens (Parser.parseFuel tokens)
                (Parser.parseFuel tokens) [] (Parser.mkParser 0 [])) as Hloop.
  unfold Parser.parse.
  destruct (Parser.parseLoop _ _ _ _ _) as [parsed| |] eqn:Hrun;
    [|destruct Hloop; unfold Parser.parseFuel, remaining; simpl; try done; lia..].
  exists tokens, parsed. split_and!; [done..|]. f_equal.
  destruct parsed as [ast errors]. cbn [ParseResult.ast ParseResult.errors].
  assert ((if bool_decide (0 < length errors)
           then Compiler.collectLexicalErrors tokens ++ errors
           else Compiler.collectLexicalErrors tokens)
          = Compiler.collectLexicalErrors tokens ++ errors) as ->.
  { case_bool_decide; [done|]. destruct errors; [|simpl in *; lia].
    by rewrite app_nil_r. }
  destruct ast as [|node ast]; [done|].
  rewrite bool_decide_eq_true_2 by (simpl; lia). f_equal.
  case_bool_decide as Hsemantic; [done|].
  destruct (SemanticResult.errors _); [|simpl in *; lia]. by rewrite app_nil_r.
Qed.

Lemma syntaxErrorAt_phase (t : Token) err : syntaxErrorAt t err → phase err = syntax.
Proof. by intros [[-> _]|[-> _]]. Qed.

End CompilerFacts.

(** X16. [compile] returns for every source, with the tokens of the lexer,
    and its errors are those of the three phases in order: one lexical error
    for each [ERROR] token, then the syntax errors of [parse], then the
    semantic errors of [analyze]. *)
Theorem compile_errors_by_phase `{JsNumber} (source : string) :
  ∃ r tokens parsed,
    Compiler.compile source = Some r
    ∧ Lexer.tokenize source = Some tokens
    ∧ Parser.parse tokens = Parser.Returns parsed
    ∧ CompilationResult.tokens r = tokens
    ∧ let lexicalErrors := Compiler.collectLexicalErrors tokens in
      let syntaxErrors := ParseResult.errors parsed in
      let semanticErrors :=
        SemanticResult.errors (Semantic.analyze (ParseResult.ast parsed)) in
      CompilationResult.errors r
      = lexicalErrors ++ syntaxErrors ++ semanticErrors
      ∧ length lexicalErrors
        = length (filter (λ t, type t = ERROR) tokens)
      ∧ Forall (λ e, phase e = lexical) lexicalErrors
      ∧ Forall (λ e, phase e = syntax) syntaxErrors
      ∧ Forall (λ e, phase e = semantic) semanticErrors.
Proof.
  destruct (compile_phases source) as (tokens & parsed & Htokens & Hparse & ->).
  eexists _, tokens, parsed. do 3 (split; [done|]).
  split; [by destruct (ParseResult.ast parsed)|]. cbn zeta. split_and!.
  - destruct (ParseResult.ast parsed) as [|node ast] eqn:Hast; simpl.
    + by rewrite app_nil_r.
    + by rewrite app_assoc.
  - unfold Compiler.collectLexicalErrors. by rewrite length_fmap.
  - unfold Compiler.collectLexicalErrors. by apply Forall_fmap, Forall_true.
  - destruct (parseLoop_built tokens [] _ _ [] (Parser.mkParser 0 []) parsed
                (Forall_nil_2 _) eq_refl Hparse)
      as (_ & [->|(t & err & _ & -> & Hat)]); [done|].
    constructor; [|done]. by eapply syntaxErrorAt_phase.
  - rewrite (parsed_program_errors tokens parsed Hparse).
    by apply Forall_fmap, Forall_true.
Qed.

(** X17. In the result of [compile], [ast], [symbolTable] and [annotatedAst]
    are null together; otherwise [ast] holds at least one statement, every
    statement is built from the tokens, [annotatedAst] is [ast] with
    [resolvedType] fields filled in, and when the result has no error every
    node of [annotatedAst] is typed. *)
Theorem compile_trees `{JsNumber} (source : string) :
  ∃ r,
    Compiler.compile source = Some r
    ∧ match CompilationResult.ast r with
      | None =>
          CompilationResult.symbolTable r = None
          ∧ CompilationResult.annotatedAst r = None
      | Some ast =>
          ast ≠ []
          ∧ Forall (statementFrom (CompilationResult.tokens r)) ast
          ∧ ∃ table annotated,
              CompilationResult.symbolTable r = Some table
              ∧ CompilationResult.annotatedAst r = Some annotated
              ∧ erase <$> annotated = erase <$> ast
              ∧ (CompilationResult.errors r = [] →
                 forallb typed annotated = true)
      end.
Proof.
  destruct (compile_phases source) as (tokens & parsed & Htokens & Hparse & ->).
  eexists. split; [done|].
  destruct (parseLoop_built tokens [] _ _ [] (Parser.mkParser 0 []) parsed
              (Forall_nil_2 _) eq_refl Hparse) as [Hbuilt _].
  destruct (ParseResult.ast parsed) as [|node ast] eqn:Hast; [done|].
  cbn [CompilationResult.ast CompilationResult.symbolTable
       CompilationResult.annotatedAst CompilationResult.errors
       CompilationResult.tokens].
  split_and!; [done..|]. eexists _, _. split_and!; [done..| |].
  - unfold Semantic.analyze.
    pose proof (analyzeAll_erase (node :: ast) [] (Semantic.mkAnalyzer ∅ []))
      as Herase.
    by destruct (Semantic.analyzeAll (node :: ast) [] _).
  - intros [_ Hsemantic]%app_eq_nil. unfold Semantic.analyze in *.
    pose proof (analyzeAll_typed (node :: ast) [] (Semantic.mkAnalyzer ∅ []))
      as Htyped.
    destruct (Semantic.analyzeAll (node :: ast) [] _). simpl in *. auto.
Qed.

Section PrinterFacts.
Context `{JsNumberText}.

Lemma shape_relocate line column node :
  shape (relocate line column node) = shape node.
Proof.
  revert column.
  induction node as [name value IH pos|op l IHl r IHr pos rt
                    |op operand IH pos rt|value dt pos rt|name pos rt];
    intros column; simpl; by rewrite ?IH, ?IHl, ?IHr.
Qed.

End PrinterFacts.

(** *** The lexer on the text of an expression *)

Section PrinterLexer.
Context `{JsNumberText}.
Variable source : string.
Import Lexer.

Ltac sizes :=
  cbn [Lexer.current Lexer.advance advanceBy Lexer.beginToken snd
       String.length] in *;
  repeat (rewrite string_length_app in *; cbn [String.length] in * );
  cbn [Lexer.current Lexer.advance advanceBy Lexer.beginToken snd
       String.length] in *;
  try lia.

Lemma scansTo_trans lx1 lx2 lx3 :
  scansTo source lx1 lx2 → scansTo source lx2 lx3 → scansTo source lx1 lx3.
Proof.
  induction 1 as [|lx lx1 lx2 Hend Hscan _ IH]; [done|].
  intros Hrest. eapply scans_round; [done..|]. by apply IH.
Qed.

Lemma scansTo_one lx lx' (pre rest : string) c :
  source = pre +:+ String c rest → current lx = String.length pre →
  scanToken source (beginToken lx) = Some lx' → scansTo source lx lx'.
Proof.
  intros Hsrc Hcur Hscan. eapply scans_round; [|done|constructor].
  unfold isAtEnd. apply bool_decide_eq_false. rewrite Hsrc, Hcur. sizes.
Qed.

(** Reading [text1] and then [text2]. *)
Lemma scan_chain lx (text1 text2 : string) found1 found2 :
  (∃ lx1, scansTo source lx lx1 ∧ reads lx lx1 text1 found1) →
  (∀ lx1, current lx1 = current lx + String.length text1 →
          line lx1 = line lx →
          column lx1 = column lx + String.length text1 →
          ∃ lx2, scansTo source lx1 lx2 ∧ reads lx1 lx2 text2 found2) →
  ∃ lx2, scansTo source lx lx2 ∧ reads lx lx2 (text1 +:+ text2)
                                   (found1 ++ found2).
Proof.
  intros (lx1 & Hscan1 & Hcur1 & Hline1 & Hcol1 & Htok1) Hnext.
  destruct (Hnext lx1 Hcur1 Hline1 Hcol1)
    as (lx2 & Hscan2 & Hcur2 & Hline2 & Hcol2 & Htok2).
  exists lx2. split; [by eapply scansTo_trans|].
  unfold reads. rewrite string_length_app, Hcur2, Hline2, Hcol2, Htok2.
  rewrite Hcur1, Hline1, Hcol1, Htok1, app_assoc. split_and!; [lia|done|lia|done].
Qed.

Lemma reads_afterToken lx t :
  reads lx (afterToken lx t) (lexeme t) [t].
Proof. done. Qed.

Lemma scan_symbol (pre rest : string) c ty lx :
  source = pre +:+ String c rest → current lx = String.length pre →
  symbolType c = Some ty →
  ∃ lx', scansTo source lx lx'
         ∧ reads lx lx' (String c "")
             [mkToken ty (String c "") (mkPosition (line lx) (column lx)) None].
Proof.
  intros Hsrc Hcur Hsymbol.
  exists (afterToken lx (mkToken ty (String c "")
                           (mkPosition (line lx) (column lx)) None)).
  split; [|apply reads_afterToken].
  apply (scansTo_one _ _ pre rest c Hsrc Hcur).
  rewrite (scanToken_at source _ c)
    by (cbn [beginToken current]; by rewrite Hsrc, Hcur, get_at).
  rewrite Hsymbol. cbn zeta. f_equal.
  apply (addToken_afterToken source); simpl; try done; try lia.
  rewrite Hcur, Hsrc. apply (jsSubstring_app_mid pre (String c "") rest).
Qed.

Lemma scan_space (pre rest : string) lx :
  source = pre +:+ String " " rest → current lx = String.length pre →
  ∃ lx', scansTo source lx lx' ∧ reads lx lx' " " [].
Proof.
  intros Hsrc Hcur. exists (advance source (beginToken lx)).2.
  split.
  - apply (scansTo_one _ _ pre rest " "%char Hsrc Hcur).
    by rewrite (scanToken_at source _ " "%char)
      by (cbn [beginToken current]; by rewrite Hsrc, Hcur, get_at).
  - unfold reads. simpl. rewrite app_nil_r. split_and!; [lia|done|lia|done].
Qed.

Lemma delimited_digitRun (rest : string) :
  delimited rest = true → digitRun rest = "".
Proof.
  destruct rest as [|c rest]; [done|]. simpl.
  intros [->%Ascii.eqb_eq| ->%Ascii.eqb_eq]%orb_prop; done.
Qed.

Lemma delimited_alphaNumeric (rest : string) :
  delimited rest = true → run isAlphaNumeric rest = "".
Proof.
  destruct rest as [|c rest]; [done|]. simpl.
  intros [->%Ascii.eqb_eq| ->%Ascii.eqb_eq]%orb_prop; done.
Qed.

Lemma delimited_numberToken (whole rest : string) :
  delimited rest = true → numberToken whole rest = (INTEGER, whole).
Proof.
  destruct rest as [|c rest]; [done|]. simpl.
  intros [->%Ascii.eqb_eq| ->%Ascii.eqb_eq]%orb_prop; done.
Qed.

Lemma scan_number dataType (text pre rest : string) lx :
  source = pre +:+ text +:+ rest → current lx = String.length pre →
  lexemeFits (literalType dataType) text = true → delimited rest = true →
  ∃ lx', scansTo source lx lx'
         ∧ reads lx lx' text
             [mkToken (literalType dataType) text
                (mkPosition (line lx) (column lx)) (Some (parseFloat text))].
Proof.
  intros Hsrc Hcur Hfits Hrest.
  exists (afterToken lx (mkToken (literalType dataType) text
                           (mkPosition (line lx) (column lx))
                           (Some (parseFloat text)))).
  split; [|apply reads_afterToken].
  destruct dataType; simpl in Hfits.
  - apply andb_prop in Hfits as [Hne Hdigits].
    destruct text as [|c text]; [done|].
    apply (scansTo_one _ _ pre (text +:+ rest) c); [by rewrite Hsrc|done|].
    rewrite (number_rule_general source pre (String c text) rest lx);
      [|done|done|done|by rewrite <- allChars_digits
       |by apply delimited_digitRun].
    by rewrite delimited_numberToken.
  - apply andb_prop in Hfits as [Hwhole Hfraction].
    pose proof (run_split isDigit text) as Hsplit.
    pose proof (run_allChars isDigit text) as Hdigits.
    destruct (run isDigit text) as [|c whole] eqn:Hrun; [done|].
    destruct (afterRun isDigit text) as [|dot fraction]; [done|].
    destruct (Ascii.eqb_spec dot "."%char) as [->|Hdot]; cycle 1.
    { by destruct dot as [[] [] [] [] [] [] [] []]. }
    apply andb_prop in Hfraction as [Hne Hfraction].
    destruct fraction as [|d fraction]; [done|].
    apply (scansTo_one _ _ pre (whole +:+ String "." (String d fraction) +:+ rest) c);
      [by rewrite Hsrc, Hsplit; simpl; rewrite app_assoc'|done|].
    rewrite (number_rule_general source pre (String c whole)
               (String "."%char (String d fraction +:+ rest)) lx);
      [|by rewrite Hsrc, Hsplit, app_assoc'|done|done
       |by rewrite <- allChars_digits|done].
    cbn [numberToken]. rewrite <- run_digits.
    rewrite (run_app isDigit _ _ Hfraction), run_digits,
      (delimited_digitRun _ Hrest), append_nil_r.
    cbn [fst snd]. by rewrite Hsplit.
Qed.

Lemma scan_name (name pre rest : string) lx :
  source = pre +:+ name +:+ rest → current lx = String.length pre →
  lexemeFits IDENTIFIER name = true →
  run isAlphaNumeric rest = "" →
  ∃ lx', scansTo source lx lx'
         ∧ reads lx lx' name
             [mkToken IDENTIFIER name (mkPosition (line lx) (column lx)) None].
Proof.
  intros Hsrc Hcur Hfits Hrest. destruct name as [|c name]; [done|].
  simpl in Hfits. apply andb_prop in Hfits as [Hc Hname].
  exists (afterToken lx (identifierToken lx c (name +:+ rest))).
  assert (identifierToken lx c (name +:+ rest)
          = mkToken IDENTIFIER (String c name)
              (mkPosition (line lx) (column lx)) None) as Htoken.
  { unfold identifierToken.
    by rewrite (run_app _ _ _ Hname), Hrest, append_nil_r. }
  split; [|rewrite Htoken; apply reads_afterToken].
  apply (scansTo_one _ _ pre (name +:+ rest) c); [by rewrite Hsrc|done|].
  by apply (identifier_rule_general source pre (name +:+ rest) c lx).
Qed.

Lemma operator_symbol (operator : string) :
  operator ∈ ["+"; "-"; "*"; "/"; "^"] →
  ∃ c, operator = String c ""
       ∧ symbolType c = Some (operatorType operator)
       ∧ operatorType operator ∈ [PLUS; MINUS; STAR; SLASH; CARET].
Proof.
  intros Hop. set_unfold in Hop.
  destruct Hop as [->|[->|[->|[->|[->|[]]]]]]; eexists; split_and!;
    try done; vm_compute; set_solver.
Qed.

Lemma printAST_unary operator operand pos resolvedType :
  PrettyPrint.printAST (UnaryExprNode operator operand pos resolvedType)
  = if isBinary operand
    then operator +:+ "(" +:+ PrettyPrint.printAST operand +:+ ")"
    else operator +:+ PrettyPrint.printAST operand.
Proof. by destruct operand. Qed.

(** Every piece of a chain starts where the one before stopped. *)
Ltac piece Hsrc Hcur :=
  let lx1 := fresh "lx" in
  let Hcur1 := fresh "Hcur" in let Hline1 := fresh "Hline" in
  let Hcol1 := fresh "Hcol" in
  intros lx1 Hcur1 Hline1 Hcol1;
  rewrite Hcur, <- string_length_app in Hcur1;
  cbn [String.length] in Hcol1;
  rewrite <- Hline1, <- Hcol1.

Ltac texts Hsrc :=
  rewrite Hsrc, ?app_assoc'; simpl; rewrite ?app_assoc'; try done.

Lemma scan_expression node : ∀ (pre rest : string) lx,
  printable node →
  source = pre +:+ PrettyPrint.printAST node +:+ rest →
  current lx = String.length pre → delimited rest = true →
  ∃ lx', scansTo source lx lx'
         ∧ reads lx lx' (PrettyPrint.printAST node)
             (tokensAt (line lx) (column lx) node).
Proof.
  induction node as [name value IH pos|op l IHl r IHr pos rt
                    |op operand IH pos rt|value dt pos rt|name pos rt];
    intros pre rest lx Hnode Hsrc Hcur Hrest.
  - done.
  - destruct Hnode as (Hop & Hl & Hr).
    destruct (operator_symbol op Hop) as (c & -> & Hsymbol & _).
    cbn [PrettyPrint.printAST tokensAt] in *. unfold width.
    set (L := PrettyPrint.printAST l) in *.
    set (R := PrettyPrint.printAST r) in *.
    apply (scan_chain lx "("
             (L +:+ " " +:+ String c "" +:+ " " +:+ R +:+ ")") [_] _).
    { apply (scan_symbol pre
               (L +:+ " " +:+ String c "" +:+ " " +:+ R +:+ ")" +:+ rest)
               "("%char LPAREN); [texts Hsrc|done..]. }
    piece Hsrc Hcur.
    apply (scan_chain _ L (" " +:+ String c "" +:+ " " +:+ R +:+ ")")).
    { apply (IHl (pre +:+ "(")
               (" " +:+ String c "" +:+ " " +:+ R +:+ ")" +:+ rest));
        [done|texts Hsrc|done..]. }
    piece Hsrc Hcur0.
    apply (scan_chain _ " " (String c "" +:+ " " +:+ R +:+ ")") [] _).
    { apply (scan_space ((pre +:+ "(") +:+ L)
               (String c "" +:+ " " +:+ R +:+ ")" +:+ rest));
        [texts Hsrc|done]. }
    piece Hsrc Hcur1.
    apply (scan_chain _ (String c "") (" " +:+ R +:+ ")") [_] _).
    { apply (scan_symbol (((pre +:+ "(") +:+ L) +:+ " ")
               (" " +:+ R +:+ ")" +:+ rest) c); [texts Hsrc|done..]. }
    piece Hsrc Hcur2.
    apply (scan_chain _ " " (R +:+ ")") [] _).
    { apply (scan_space ((((pre +:+ "(") +:+ L) +:+ " ") +:+ String c "")
               (R +:+ ")" +:+ rest)); [texts Hsrc|done]. }
    piece Hsrc Hcur3.
    apply (scan_chain _ R ")").
    { apply (IHr (((((pre +:+ "(") +:+ L) +:+ " ") +:+ String c "") +:+ " ")
               (")" +:+ rest)); [done|texts Hsrc|done..]. }
    piece Hsrc Hcur4.
    apply (scan_symbol
             ((((((pre +:+ "(") +:+ L) +:+ " ") +:+ String c "") +:+ " ")
              +:+ R) rest ")"%char RPAREN); [texts Hsrc|done..].
  - destruct Hnode as (Hop & Hoperand).
    destruct (operator_symbol op) as (c & -> & Hsymbol & _); [set_solver|].
    rewrite printAST_unary in *. cbn [tokensAt]. unfold width.
    set (O := PrettyPrint.printAST operand) in *.
    destruct (isBinary operand).
    + apply (scan_chain lx (String c "") ("(" +:+ O +:+ ")") [_] _).
      { apply (scan_symbol pre ("(" +:+ O +:+ ")" +:+ rest) c);
          [texts Hsrc|done..]. }
      piece Hsrc Hcur.
      apply (scan_chain _ "(" (O +:+ ")") [_] _).
      { apply (scan_symbol (pre +:+ String c "") (O +:+ ")" +:+ rest)
                 "("%char LPAREN); [texts Hsrc|done..]. }
      piece Hsrc Hcur0.
      apply (scan_chain _ O ")").
      { apply (IH ((pre +:+ String c "") +:+ "(") (")" +:+ rest));
          [done|texts Hsrc|done..]. }
      piece Hsrc Hcur1.
      apply (scan_symbol (((pre +:+ String c "") +:+ "(") +:+ O) rest
               ")"%char RPAREN); [texts Hsrc|done..].
    + apply (scan_chain lx (String c "") O [_] _).
      { apply (scan_symbol pre (O +:+ rest) c); [texts Hsrc|done..]. }
      piece Hsrc Hcur.
      apply (IH (pre +:+ String c "") rest); [done|texts Hsrc|done..].
  - destruct Hnode as [Hfits Hvalue].
    by apply (scan_number dt (literalText value dt) pre rest).
  - by apply (scan_name name pre rest); [..|apply delimited_alphaNumeric].
Qed.

End PrinterLexer.

(** *** The parser on the tokens of an expression *)

Section PrinterParser.
Context `{JsNumberText}.
Variable tokens : list Token.
Import Parser.

Lemma bind_ok {A B} (m : M A) (k : A → M B) p a p' :
  m p = Ok a p' → bind m k p = k a p'.
Proof. unfold bind. by intros ->. Qed.

Lemma lookup_here p t rest :
  drop (current p) tokens = t :: rest → tokens !! current p = Some t.
Proof.
  intros Hdrop. rewrite <- (Nat.add_0_r (current p)), <- lookup_drop.
  by rewrite Hdrop.
Qed.

Lemma drop_stepped p p' t rest :
  drop (current p) tokens = t :: rest → current p' = current p + 1 →
  drop (current p') tokens = rest.
Proof.
  intros Hdrop ->. by rewrite <- drop_drop, Hdrop.
Qed.

Lemma drop_after p p' found rest :
  drop (current p) tokens = found ++ rest →
  current p' = current p + length found →
  drop (current p') tokens = rest.
Proof.
  intros Hdrop ->. rewrite <- drop_drop, Hdrop.
  by rewrite drop_app_length.
Qed.

Lemma match_miss types p t :
  tokens !! current p = Some t → type t ∉ types →
  matchAny tokens types p = Ok false p.
Proof.
  intros Ht Hty. destruct types as [|ty types]; [done|].
  rewrite matchAny_eq, Ht. by rewrite bool_decide_eq_false_2 by naive_solver.
Qed.

Lemma match_hit types p t :
  tokens !! current p = Some t → type t ≠ EOF → type t ∈ types →
  matchAny tokens types p = Ok true (stepped p).
Proof.
  intros Ht Heof Hty. destruct types as [|ty types]; [set_solver|].
  rewrite matchAny_eq, Ht. by rewrite bool_decide_eq_true_2.
Qed.

Lemma expect_hit ty message p t :
  tokens !! current p = Some t → type t ≠ EOF → type t = ty →
  expect tokens ty message p = Ok (Some t) (stepped p).
Proof.
  intros Ht Heof Hty. rewrite expect_eq, Ht.
  by rewrite bool_decide_eq_true_2.
Qed.

Lemma parsedTo_intro (tree : ASTNode) p p' count :
  current p' = current p + count → errors p' = errors p →
  parsedTo (Ok tree p') tree p count.
Proof. by exists p'. Qed.

(** A closed fact about token types. *)
Ltac decided := apply (bool_decide_unpack _); vm_compute; exact I.

(** The next step of the parser, which knows the token under the cursor. *)
Ltac miss Ht :=
  erewrite bind_ok by (eapply match_miss; [exact Ht|cbn; decided]);
  cbv beta iota.

Ltac hit Ht :=
  erewrite bind_ok by (eapply match_hit; [exact Ht|cbn; done|cbn; decided]);
  cbv beta iota;
  rewrite (bind_ok _ _ _ _ _ (previous_stepped tokens _)), Ht;
  cbn [defined ret bind].

Ltac returned :=
  cbn [ret default]; apply parsedTo_intro; [unfold stepped in *; simpl; lia|done].

Ltac fuel n := destruct n as [|n]; [exfalso; lia|].

(** Where the parser is after [parsedTo]. *)
Lemma lookup_after p p' count t :
  tokens !! (current p + count) = Some t → current p' = current p + count →
  tokens !! current p' = Some t.
Proof. by intros Ht ->. Qed.

Ltac miss_as Ht Hty :=
  erewrite bind_ok
    by (eapply match_miss; [exact Ht|rewrite ?Hty; cbn; first [decided|set_solver]]);
  cbv beta iota.

Ltac hit_as Ht Hty :=
  erewrite bind_ok
    by (eapply match_hit; [exact Ht|rewrite ?Hty; cbn; done
                          |rewrite ?Hty; cbn; decided]);
  cbv beta iota.

Ltac call Hcall n p' Heq Hcur Herr :=
  destruct (Hcall n) as (p' & Heq & Hcur & Herr); [lia|];
  rewrite (bind_ok _ _ _ _ _ Heq).

(** An operand followed by a token that is not [^] is a power, a power
    followed by neither [*] nor [/] is a product, and a product followed by
    neither [+] nor [-] is an expression. *)
Lemma power_passes p tree count n0 t :
  (∀ n, n0 ≤ n → parsedTo (parseUnary tokens n p) tree p count) →
  tokens !! (current p + count) = Some t → type t ≠ CARET →
  ∀ n, n0 + 1 ≤ n → parsedTo (parsePower tokens n p) tree p count.
Proof.
  intros Hunary Ht Hty n Hn. fuel n. cbn [parsePower].
  call Hunary n p' Heq Hcur Herr.
  pose proof (lookup_after _ _ _ _ Ht Hcur) as Ht'.
  miss_as Ht' Hty. by apply parsedTo_intro.
Qed.

Lemma multiplicative_passes p tree count n0 t :
  (∀ n, n0 ≤ n → parsedTo (parsePower tokens n p) tree p count) →
  tokens !! (current p + count) = Some t → type t ∉ [STAR; SLASH] →
  ∀ n, n0 + 2 ≤ n → parsedTo (parseMultiplicative tokens n p) tree p count.
Proof.
  intros Hpower Ht Hty n Hn. fuel n. cbn [parseMultiplicative].
  call Hpower n p' Heq Hcur Herr.
  pose proof (lookup_after _ _ _ _ Ht Hcur) as Ht'.
  fuel n. cbn [multiplicativeLoop].
  miss_as Ht' Hty. by apply parsedTo_intro.
Qed.

Lemma additive_passes p tree count n0 t :
  (∀ n, n0 ≤ n → parsedTo (parseMultiplicative tokens n p) tree p count) →
  tokens !! (current p + count) = Some t → type t ∉ [PLUS; MINUS] →
  ∀ n, n0 + 2 ≤ n → parsedTo (parseAdditive tokens n p) tree p count.
Proof.
  intros Hmult Ht Hty n Hn. fuel n. cbn [parseAdditive].
  call Hmult n p' Heq Hcur Herr.
  pose proof (lookup_after _ _ _ _ Ht Hcur) as Ht'.
  fuel n. cbn [additiveLoop].
  miss_as Ht' Hty. by apply parsedTo_intro.
Qed.

Lemma expression_is_additive p tree count n0 :
  (∀ n, n0 ≤ n → parsedTo (parseAdditive tokens n p) tree p count) →
  ∀ n, n0 + 1 ≤ n → parsedTo (parseExpression tokens n p) tree p count.
Proof. intros Hadd n Hn. fuel n. cbn [parseExpression]. apply Hadd. lia. Qed.

(** An operand that nothing follows but a closing token is an expression. *)
Lemma expression_passes p tree count n0 t :
  (∀ n, n0 ≤ n → parsedTo (parseUnary tokens n p) tree p count) →
  tokens !! (current p + count) = Some t →
  type t ∉ [CARET; STAR; SLASH; PLUS; MINUS] →
  ∀ n, n0 + 6 ≤ n → parsedTo (parseExpression tokens n p) tree p count.
Proof.
  intros Hunary Ht Hty n Hn.
  apply (expression_is_additive p tree count (n0 + 5)); [|lia].
  intros n1 Hn1.
  apply (additive_passes p tree count (n0 + 3) t); [|exact Ht|set_solver|lia].
  intros n2 Hn2.
  apply (multiplicative_passes p tree count (n0 + 1) t);
    [|exact Ht|set_solver|lia].
  intros n3 Hn3.
  apply (power_passes p tree count n0 t); [exact Hunary|exact Ht|set_solver|lia].
Qed.

Section Operation.
Variables (p : Parser) (L R : ASTNode) (kl kr n0l n0r : nat).
Variables (opTok closeTok : Token).
Hypothesis Hl : ∀ n, n0l ≤ n → parsedTo (parseUnary tokens n p) L p kl.
Hypothesis HopTok : tokens !! (current p + kl) = Some opTok.
Hypothesis Hr : ∀ p1, current p1 = current p + kl + 1 →
  ∀ n, n0r ≤ n → parsedTo (parseUnary tokens n p1) R p1 kr.
Hypothesis Hclose : tokens !! (current p + kl + 1 + kr) = Some closeTok.
Hypothesis Hclosing : type closeTok ∉ [CARET; STAR; SLASH; PLUS; MINUS].

Lemma lookup_close p1 p2 :
  current p1 = current p + kl → current p2 = current (stepped p1) + kr →
  tokens !! current p2 = Some closeTok.
Proof. intros Hp1 ->. rewrite <- Hclose. f_equal. simpl. lia. Qed.

Lemma lookup_right p1 :
  current p1 = current p + kl →
  tokens !! (current (stepped p1) + kr) = Some closeTok.
Proof. intros Hp1. rewrite <- Hclose. f_equal. simpl. lia. Qed.

Ltac both p1 p2 Hcur1 Hcur2 Herr1 Herr2 :=
  cbn [ret]; apply parsedTo_intro;
  [rewrite Hcur2; simpl; lia|by rewrite Herr2; simpl; rewrite Herr1].

(** [l ^ r], [l * r] and [l + r] between parentheses. *)
Lemma power_operation :
  type opTok = CARET →
  ∀ n, n0l + n0r + 3 ≤ n →
    parsedTo (parsePower tokens n p)
      (BinaryExprNode "^" L R (position opTok) None) p (kl + 1 + kr).
Proof.
  intros Hty n Hn. fuel n. cbn [parsePower].
  call Hl n p1 Heq1 Hcur1 Herr1.
  pose proof (lookup_after _ _ _ _ HopTok Hcur1) as Ht1.
  hit_as Ht1 Hty.
  rewrite (bind_ok _ _ _ _ _ (previous_stepped tokens _)), Ht1.
  cbn [defined ret bind].
  destruct (power_passes (stepped p1) R kr n0r closeTok) with (n := n)
    as (p2 & Heq2 & Hcur2 & Herr2);
    [apply Hr; simpl; lia|by apply lookup_right|set_solver|lia|].
  rewrite (bind_ok _ _ _ _ _ Heq2). both p1 p2 Hcur1 Hcur2 Herr1 Herr2.
Qed.

(** One script for [*] and [/], one for [+] and [-]. *)
Ltac product Hop n Hn :=
  fuel n; cbn [parseMultiplicative];
  let p1 := fresh "p1" in let Heq1 := fresh "Heq1" in
  let Hcur1 := fresh "Hcur1" in let Herr1 := fresh "Herr1" in
  let p2 := fresh "p2" in let Heq2 := fresh "Heq2" in
  let Hcur2 := fresh "Hcur2" in let Herr2 := fresh "Herr2" in
  let Ht1 := fresh "Ht1" in let Ht2 := fresh "Ht2" in
  destruct (power_passes p L kl n0l opTok Hl HopTok) with (n := n)
    as (p1 & Heq1 & Hcur1 & Herr1); [by rewrite Hop|lia|];
  rewrite (bind_ok _ _ _ _ _ Heq1);
  pose proof (lookup_after _ _ _ _ HopTok Hcur1) as Ht1;
  fuel n; cbn [multiplicativeLoop];
  hit_as Ht1 Hop;
  rewrite (bind_ok _ _ _ _ _ (previous_stepped tokens _)), Ht1;
  cbn [defined ret bind];
  destruct (power_passes (stepped p1) R kr n0r closeTok) with (n := n)
    as (p2 & Heq2 & Hcur2 & Herr2);
    [apply Hr; simpl; lia|by apply lookup_right|set_solver|lia|];
  rewrite (bind_ok _ _ _ _ _ Heq2); fuel n; cbn [multiplicativeLoop];
  pose proof (lookup_close p1 p2 Hcur1 Hcur2) as Ht2;
  erewrite bind_ok by (eapply match_miss; [exact Ht2|set_solver]);
  cbv beta iota; both p1 p2 Hcur1 Hcur2 Herr1 Herr2.

Lemma multiplicative_operation :
  type opTok ∈ [STAR; SLASH] →
  ∀ n, n0l + n0r + 5 ≤ n →
    parsedTo (parseMultiplicative tokens n p) (makeBinary opTok L R) p
      (kl + 1 + kr).
Proof.
  intros Hty n Hn.
  assert (type opTok = STAR ∨ type opTok = SLASH) as [Hop|Hop]
    by (set_unfold in Hty; tauto).
  - product Hop n Hn.
  - product Hop n Hn.
Qed.

Ltac sum Hop n Hn :=
  fuel n; cbn [parseAdditive];
  let p1 := fresh "p1" in let Heq1 := fresh "Heq1" in
  let Hcur1 := fresh "Hcur1" in let Herr1 := fresh "Herr1" in
  let p2 := fresh "p2" in let Heq2 := fresh "Heq2" in
  let Hcur2 := fresh "Hcur2" in let Herr2 := fresh "Herr2" in
  let Ht1 := fresh "Ht1" in let Ht2 := fresh "Ht2" in
  destruct (multiplicative_passes p L kl (n0l + 1) opTok) with (n := n)
    as (p1 & Heq1 & Hcur1 & Herr1);
    [apply (power_passes p L kl n0l opTok); [done..|by rewrite Hop]
    |done|rewrite Hop; decided|lia|];
  rewrite (bind_ok _ _ _ _ _ Heq1);
  pose proof (lookup_after _ _ _ _ HopTok Hcur1) as Ht1;
  fuel n; cbn [additiveLoop];
  hit_as Ht1 Hop;
  rewrite (bind_ok _ _ _ _ _ (previous_stepped tokens _)), Ht1;
  cbn [defined ret bind];
  destruct (multiplicative_passes (stepped p1) R kr (n0r + 1) closeTok)
    with (n := n) as (p2 & Heq2 & Hcur2 & Herr2);
    [apply (power_passes _ R kr n0r closeTok);
       [apply Hr; simpl; lia|by apply lookup_right|set_solver]
    |by apply lookup_right|set_solver|lia|];
  rewrite (bind_ok _ _ _ _ _ Heq2); fuel n; cbn [additiveLoop];
  pose proof (lookup_close p1 p2 Hcur1 Hcur2) as Ht2;
  erewrite bind_ok by (eapply match_miss; [exact Ht2|set_solver]);
  cbv beta iota; both p1 p2 Hcur1 Hcur2 Herr1 Herr2.

Lemma additive_operation :
  type opTok ∈ [PLUS; MINUS] →
  ∀ n, n0l + n0r + 8 ≤ n →
    parsedTo (parseAdditive tokens n p) (makeBinary opTok L R) p
      (kl + 1 + kr).
Proof.
  intros Hty n Hn.
  assert (type opTok = PLUS ∨ type opTok = MINUS) as [Hop|Hop]
    by (set_unfold in Hty; tauto).
  - sum Hop n Hn.
  - sum Hop n Hn.
Qed.

Lemma operation_expression :
  type opTok ∈ [PLUS; MINUS; STAR; SLASH; CARET] →
  (type opTok = CARET → lexeme opTok = "^") →
  ∀ n, n0l + n0r + 12 ≤ n →
    parsedTo (parseExpression tokens n p)
      (BinaryExprNode (lexeme opTok) L R (position opTok) None) p
      (kl + 1 + kr).
Proof.
  intros Hty Hcaret n Hn.
  assert (tokens !! (current p + (kl + 1 + kr)) = Some closeTok) as Hclose'.
  { rewrite <- Hclose. f_equal. lia. }
  assert (type opTok ∈ [PLUS; MINUS] ∨ type opTok ∈ [STAR; SLASH]
          ∨ type opTok = CARET) as [Hop|[Hop|Hop]]
    by (set_unfold in Hty; set_unfold; tauto).
  - apply (expression_is_additive p _ _ (n0l + n0r + 8)); [|lia].
    by apply additive_operation.
  - apply (expression_is_additive p _ _ (n0l + n0r + 5 + 2)); [|lia].
    apply (additive_passes p _ _ (n0l + n0r + 5) closeTok);
      [|done|set_solver].
    by apply multiplicative_operation.
  - apply (expression_is_additive p _ _ (n0l + n0r + 3 + 2 + 2)); [|lia].
    apply (additive_passes p _ _ (n0l + n0r + 3 + 2) closeTok);
      [|done|set_solver].
    apply (multiplicative_passes p _ _ (n0l + n0r + 3) closeTok);
      [|done|set_solver].
    rewrite (Hcaret Hop). by apply power_operation.
Qed.

End Operation.

(** An expression between parentheses is an operand. *)
Lemma parenthesised p tree count n0 openTok closeTok :
  tokens !! current p = Some openTok → type openTok = LPAREN →
  (∀ p1 n, current p1 = current p + 1 → n0 ≤ n →
     parsedTo (parseExpression tokens n p1) tree p1 count) →
  tokens !! (current p + 1 + count) = Some closeTok →
  type closeTok = RPAREN →
  ∀ n, n0 + 2 ≤ n → parsedTo (parseUnary tokens n p) tree p (1 + count + 1).
Proof.
  intros Ht Hopen Hinner Hclose Hclosing n Hn.
  fuel n. cbn [parseUnary]. miss_as Ht Hopen.
  fuel n. cbn [parsePrimary].
  miss_as Ht Hopen. miss_as Ht Hopen. miss_as Ht Hopen. hit_as Ht Hopen.
  destruct (Hinner (stepped p) n) as (p2 & Heq2 & Hcur2 & Herr2);
    [simpl; lia|lia|].
  rewrite (bind_ok _ _ _ _ _ Heq2).
  assert (tokens !! current p2 = Some closeTok) as Ht2.
  { rewrite <- Hclose. f_equal. rewrite Hcur2. simpl. lia. }
  erewrite bind_ok by (by eapply expect_hit; [exact Ht2|rewrite Hclosing|]).
  cbn [ret].
  apply parsedTo_intro; [simpl; rewrite Hcur2; simpl; lia|simpl; by rewrite Herr2].
Qed.

Lemma lookup_in_drop i before t rest j :
  drop i tokens = before ++ t :: rest → j = i + length before →
  tokens !! j = Some t.
Proof.
  intros Hdrop ->. rewrite <- lookup_drop, Hdrop.
  by rewrite lookup_app_r, Nat.sub_diag by lia.
Qed.

Lemma drop_in_drop i before rest j :
  drop i tokens = before ++ rest → j = i + length before →
  drop j tokens = rest.
Proof.
  intros Hdrop ->. rewrite <- drop_drop, Hdrop. by rewrite drop_app_length.
Qed.

Lemma parsedTo_count r tree p count count' :
  parsedTo r tree p count → count = count' → parsedTo r tree p count'.
Proof. by intros Hr <-. Qed.

Lemma operator_token (operator : string) line column :
  operator ∈ ["+"; "-"; "*"; "/"; "^"] →
  let t := mkToken (operatorType operator) operator (mkPosition line column)
             None in
  type t ∈ [PLUS; MINUS; STAR; SLASH; CARET]
  ∧ (type t = CARET → lexeme t = "^").
Proof.
  intros Hop. set_unfold in Hop.
  destruct Hop as [->|[->|[->|[->|[->|[]]]]]]; split;
    first [decided|done].
Qed.

Lemma parse_printed node :
  printable node →
  ∀ line column rest p n,
    drop (current p) tokens = tokensAt line column node ++ rest →
    8 * length (tokensAt line column node) ≤ n →
    parsedTo (parseUnary tokens n p) (relocate line column node) p
      (length (tokensAt line column node)).
Proof.
  induction node as [name value IH pos|op l IHl r IHr pos rt
                    |op operand IH pos rt|value dt pos rt|name pos rt];
    intros Hnode.
  - done.
  - destruct Hnode as (Hop & Hl & Hr).
    pose proof (IHl Hl) as IHl'. pose proof (IHr Hr) as IHr'.
    clear IHl IHr.
    intros line column rest p n Hdrop Hn. cbn [tokensAt relocate] in *.
    set (tl := tokensAt line (column + 1) l) in *.
    set (tr := tokensAt line (column + 1 + width l + 1 + 1 + 1) r) in *.
    set (opTok := mkToken (operatorType op) op
                    (mkPosition line (column + 1 + width l + 1)) None) in *.
    set (openTok := mkToken LPAREN "(" (mkPosition line column) None) in *.
    set (closeTok := mkToken RPAREN ")"
                       (mkPosition line
                          (column + 1 + width l + 1 + 1 + 1 + width r)) None)
      in *.
    destruct (operator_token op line (column + 1 + width l + 1) Hop)
      as [Hty Hcaret].
    assert (drop (current p) tokens
            = openTok :: tl ++ opTok :: tr ++ closeTok :: rest) as Hdrop0.
    { rewrite Hdrop.
      by rewrite <- ?app_comm_cons, <- ?app_assoc, <- ?app_comm_cons,
        <- ?app_assoc. }
    clear Hdrop.
    assert (length (openTok :: tl ++ opTok :: tr ++ [closeTok])
            = 1 + (length tl + 1 + length tr) + 1) as Hlen.
    { simpl. rewrite length_app. simpl. rewrite length_app. simpl. lia. }
    rewrite Hlen in *.
    apply (parenthesised p _ (length tl + 1 + length tr)
             (8 * length tl + 8 * length tr + 12)
             openTok closeTok); [exact (lookup_here _ _ _ Hdrop0)|done| | |done|lia].
    + intros p1 n1 Hp1 Hn1.
      pose proof (drop_stepped p p1 _ _ Hdrop0 Hp1) as Hdrop1.
      apply (operation_expression p1 _ _ (length tl) (length tr)
               (8 * length tl) (8 * length tr) opTok
               closeTok); [| | | |by simpl; decided|done..].
      * intros n2 Hn2. by eapply IHl'.
      * by apply (lookup_in_drop (current p1) tl opTok
                    (tr ++ closeTok :: rest)).
      * intros p2 Hp2 n2 Hn2. eapply IHr'; [|done].
        apply (drop_in_drop (current p1) (tl ++ [opTok]) (tr ++ closeTok :: rest));
          [by rewrite <- app_assoc|].
        rewrite length_app. simpl. lia.
      * apply (lookup_in_drop (current p1) (tl ++ opTok :: tr) closeTok rest);
          [by rewrite <- app_assoc|].
        rewrite length_app. simpl. lia.
    + apply (lookup_in_drop (current p) (openTok :: tl ++ opTok :: tr)
               closeTok rest); [by rewrite Hdrop0; simpl; rewrite <- app_assoc|].
      simpl. rewrite length_app. simpl. lia.
  - destruct Hnode as (Hop & Hoperand).
    pose proof (IH Hoperand) as IH'. clear IH.
    intros line column rest p n Hdrop Hn. cbn [tokensAt relocate] in *.
    set (opTok := mkToken (operatorType op) op (mkPosition line column) None)
      in *.
    assert (type opTok ≠ EOF ∧ type opTok ∈ [MINUS; PLUS]) as [Heof Hsign].
    { set_unfold in Hop. destruct Hop as [->|[->|[]]]; split;
        first [done|decided]. }
    pose proof (lookup_here _ _ _ Hdrop) as Ht.
    cbn [length] in Hn.
    fuel n. cbn [parseUnary].
    erewrite bind_ok by (by eapply match_hit).
    cbv beta iota.
    rewrite (bind_ok _ _ _ _ _ (previous_stepped tokens _)), Ht.
    cbn [defined ret bind].
    pose proof (drop_stepped p (stepped p) _ _ Hdrop) as Hdrop1.
    specialize (Hdrop1 ltac:(simpl; lia)).
    destruct (isBinary operand).
    + set (to := tokensAt line (column + 1 + 1) operand) in *.
      set (openTok := mkToken LPAREN "(" (mkPosition line (column + 1)) None)
        in *.
      set (closeTok := mkToken RPAREN ")"
                         (mkPosition line (column + 1 + 1 + width operand))
                         None) in *.
      assert (drop (current (stepped p)) tokens
              = openTok :: to ++ closeTok :: rest) as Hdrop2.
      { rewrite Hdrop1. f_equal. symmetry.
        apply (app_assoc to [closeTok] rest). }
      assert (length (openTok :: to ++ [closeTok]) = 1 + length to + 1)
        as Hlen.
      { simpl. rewrite length_app. simpl. lia. }
      rewrite Hlen in *.
      assert (parsedTo (parseUnary tokens n (stepped p))
                (relocate line (column + 1 + 1) operand) (stepped p)
                (1 + length to + 1)) as (p2 & Heq2 & Hcur2 & Herr2).
      { apply (parenthesised _ _ _ (8 * length to + 6) openTok closeTok);
          [exact (lookup_here _ _ _ Hdrop2)|done| | |done|lia].
        - intros p1 n1 Hp1 Hn1.
          pose proof (drop_stepped (stepped p) p1 _ _ Hdrop2 Hp1) as Hdrop3.
          apply (expression_passes p1 _ _ (8 * length to) closeTok);
            [|by apply (lookup_in_drop (current p1) to closeTok rest)
             |by simpl; decided|done].
          intros n2 Hn2. by eapply IH'.
        - by apply (lookup_in_drop (current (stepped p)) (openTok :: to)
                      closeTok rest); [|simpl; lia]. }
      rewrite (bind_ok _ _ _ _ _ Heq2). cbn [ret].
      apply parsedTo_intro; [|by rewrite Herr2].
      rewrite Hcur2. simpl. rewrite length_app. simpl. lia.
    + destruct (IH' line (column + 1) rest (stepped p) n)
        as (p2 & Heq2 & Hcur2 & Herr2); [done|lia|].
      rewrite (bind_ok _ _ _ _ _ Heq2). cbn [ret].
      apply parsedTo_intro; [|by rewrite Herr2].
      rewrite Hcur2. simpl. lia.
  - destruct Hnode as [Hfits Hvalue].
    intros line column rest p n Hdrop Hn. cbn [tokensAt relocate length] in *.
    pose proof (lookup_here _ _ _ Hdrop) as Ht.
    fuel n. fuel n. cbn [parseUnary]. destruct dt.
    + miss Ht. cbn [parsePrimary]. hit Ht.
      unfold createLiteralNode. cbn [literal position]. rewrite Hvalue.
      returned.
    + miss Ht. cbn [parsePrimary]. miss Ht. hit Ht.
      unfold createLiteralNode. cbn [literal position]. rewrite Hvalue.
      returned.
  - intros line column rest p n Hdrop Hn.
    cbn [tokensAt relocate length] in *.
    pose proof (lookup_here _ _ _ Hdrop) as Ht.
    fuel n. fuel n.
    cbn [parseUnary]. miss Ht. cbn [parsePrimary]. miss Ht. miss Ht. hit Ht.
    returned.
Qed.

End PrinterParser.

(** *** A printed statement through the lexer and the parser *)

Section PrinterStatement.
Context `{JsNumberText}.

Ltac decided := apply (bool_decide_unpack _); vm_compute; exact I.

Lemma scanLoop_scansTo source lx lx' :
  scansTo source lx lx' → Lexer.isAtEnd source lx' = true →
  ∀ fuel, String.length source - Lexer.current lx < fuel →
  Lexer.scanLoop source fuel lx = Some lx'.
Proof.
  induction 1 as [lx|lx lx1 lx2 Hend Hscan Hrest IH]; intros Hlast fuel Hfuel;
    (destruct fuel as [|fuel]; [lia|]); cbn [Lexer.scanLoop].
  - by rewrite Hlast.
  - rewrite Hend, Hscan. cbn [mbind option_bind]. apply IH; [done|].
    destruct (scanToken_runs source (Lexer.beginToken lx))
      as (lx1' & Hscan' & Hlt & _).
    rewrite Hscan in Hscan'. injection Hscan' as <-. simpl in Hlt.
    unfold Lexer.isAtEnd in Hend. apply bool_decide_eq_false in Hend. lia.
Qed.

Lemma scan_statement node :
  printableStatement node →
  ∃ lx, scansTo (PrettyPrint.printAST node) Lexer.initial lx
        ∧ reads Lexer.initial lx (PrettyPrint.printAST node)
            (tokensAt 1 1 node).
Proof.
  intros Hnode.
  assert (∀ expression, printable expression →
            ∃ lx, scansTo (PrettyPrint.printAST expression) Lexer.initial lx
                  ∧ reads Lexer.initial lx (PrettyPrint.printAST expression)
                      (tokensAt 1 1 expression)) as Hexpression.
  { intros expression Hexpression.
    apply (scan_expression _ expression "" "" Lexer.initial);
      [done|by rewrite append_nil_r|done..]. }
  destruct node as [name value pos|op l r pos rt|op operand pos rt
                   |value dt pos rt|name pos rt];
    try by apply Hexpression.
  destruct Hnode as [Hname Hvalue]. clear Hexpression.
  cbn [PrettyPrint.printAST tokensAt].
  set (V := PrettyPrint.printAST value).
  set (source := name +:+ " = " +:+ V).
  assert (source = name +:+ " = " +:+ V) as Hsrc by done.
  apply (scan_chain source Lexer.initial name (" = " +:+ V) [_] (_ :: _)).
  { by apply (scan_name source name "" (" = " +:+ V)). }
  intros lx1 Hcur1 Hline1 Hcol1.
  change (Lexer.line Lexer.initial) with 1 in Hline1.
  change (Lexer.column Lexer.initial) with 1 in Hcol1.
  change (Lexer.current Lexer.initial) with 0 in Hcur1.
  apply (scan_chain source lx1 " " ("= " +:+ V) [] (_ :: _)).
  { apply (scan_space source name ("= " +:+ V)); [done|by rewrite Hcur1]. }
  intros lx2 Hcur2 Hline2 Hcol2. cbn [String.length] in *.
  rewrite Hline1 in Hline2. rewrite Hcol1 in Hcol2. rewrite Hcur1 in Hcur2.
  apply (scan_chain source lx2 "=" (" " +:+ V) [_] _).
  { pose proof (scan_symbol source (name +:+ " ") (" " +:+ V) "="%char EQUALS
                  lx2) as Hstep.
    rewrite Hline2, Hcol2 in Hstep.
    apply Hstep;
      [by rewrite Hsrc, app_assoc'
      |rewrite Hcur2, string_length_app; simpl; lia|done]. }
  intros lx3 Hcur3 Hline3 Hcol3. cbn [String.length] in *.
  rewrite Hline2 in Hline3. rewrite Hcol2 in Hcol3. rewrite Hcur2 in Hcur3.
  apply (scan_chain source lx3 " " V [] _).
  { apply (scan_space source (name +:+ " =") V);
      [by rewrite Hsrc, app_assoc'
      |rewrite Hcur3, string_length_app; simpl; lia]. }
  intros lx4 Hcur4 Hline4 Hcol4. cbn [String.length] in *.
  rewrite Hline3 in Hline4. rewrite Hcol3 in Hcol4. rewrite Hcur3 in Hcur4.
  pose proof (scan_expression source value (name +:+ " = ") "" lx4) as Hstep.
  rewrite Hline4, Hcol4 in Hstep.
  apply Hstep;
    [done|by rewrite Hsrc, app_assoc', append_nil_r
    |rewrite Hcur4, string_length_app; simpl; lia|done].
Qed.

Lemma tokenize_printed node :
  printableStatement node →
  ∃ eofTok, Lexer.tokenize (PrettyPrint.printAST node)
            = Some (tokensAt 1 1 node ++ [eofTok])
            ∧ type eofTok = EOF.
Proof.
  intros Hnode.
  destruct (scan_statement node Hnode) as (lx & Hscan & Hcur & _ & _ & Htok).
  exists (Lexer.eofToken lx). split; [|done].
  unfold Lexer.tokenize.
  rewrite (scanLoop_scansTo _ _ lx Hscan).
  - cbn [mbind option_bind]. by rewrite Htok.
  - unfold Lexer.isAtEnd. apply bool_decide_eq_true. rewrite Hcur. simpl. lia.
  - unfold Lexer.scanFuel. simpl. lia.
Qed.

End PrinterStatement.

Section ParserStatement.
Context `{JsNumberText}.
Variable tokens : list Token.
Import Parser.

Ltac decided := apply (bool_decide_unpack _); vm_compute; exact I.

(** A statement that starts with no identifier, or with one that no [=]
    follows, is an expression. *)
Lemma parseStatement_expression p t tree count n :
  tokens !! current p = Some t → type t ∉ [EOF; ERROR] →
  (type t = IDENTIFIER →
   ∃ t', tokens !! (current p + 1) = Some t' ∧ type t' ≠ EQUALS) →
  parsedTo (parseExpression tokens n p) tree p count → 1 ≤ n →
  ∃ p', parseStatement tokens n p = Ok (Some tree) p'
        ∧ current p' = current p + count ∧ errors p' = errors p.
Proof.
  intros Ht Hty Hnext (p' & Heq & Hcur & Herr) Hn.
  exists p'. split; [|done].
  destruct n as [|n]; [lia|].
  unfold parseStatement. cbn [skipErrors].
  erewrite bind_ok; cycle 1.
  { erewrite bind_ok by (by rewrite check_eq, Ht).
    rewrite bool_decide_eq_false_2 by set_solver. done. }
  erewrite bind_ok by (by rewrite isAtEnd_eq, Ht).
  rewrite bool_decide_eq_false_2 by set_solver.
  erewrite bind_ok by (by rewrite check_eq, Ht).
  erewrite (bind_ok _ _ p false p); cycle 1.
  { case_bool_decide as Hid; [|done].
    destruct Hnext as (t' & Ht' & Hty'); [by destruct Hid|].
    unfold nextIsEquals, lookAhead, bind, ret. f_equal.
    rewrite bool_decide_eq_true_2 by (by eapply lookup_lt_Some).
    rewrite Ht'. by apply bool_decide_eq_false. }
  cbv beta iota. by rewrite (bind_ok _ _ _ _ _ Heq).
Qed.

(** A statement that starts with an identifier and [=] is an assignment. *)
Lemma parseStatement_assignment p nameTok equalsTok tree count n :
  tokens !! current p = Some nameTok → type nameTok = IDENTIFIER →
  tokens !! (current p + 1) = Some equalsTok → type equalsTok = EQUALS →
  parsedTo (parseExpression tokens n (stepped (stepped p))) tree
    (stepped (stepped p)) count →
  1 ≤ n →
  ∃ p', parseStatement tokens n p
        = Ok (Some (AssignmentNode (lexeme nameTok) tree (position nameTok)))
            p'
        ∧ current p' = current p + 2 + count ∧ errors p' = errors p.
Proof.
  intros Ht Hty Ht' Hty' (p' & Heq & Hcur & Herr) Hn.
  exists p'. split; [|split; [rewrite Hcur; simpl; lia|done]].
  destruct n as [|n]; [lia|].
  unfold parseStatement. cbn [skipErrors].
  erewrite bind_ok; cycle 1.
  { erewrite bind_ok by (by rewrite check_eq, Ht).
    rewrite bool_decide_eq_false_2; [done|].
    rewrite Hty. intros [_ [=]]. }
  erewrite bind_ok by (by rewrite isAtEnd_eq, Ht).
  rewrite bool_decide_eq_false_2 by (by rewrite Hty).
  erewrite bind_ok by (by rewrite check_eq, Ht).
  erewrite (bind_ok _ _ p true p); cycle 1.
  { rewrite bool_decide_eq_true_2 by (by rewrite Hty).
    unfold nextIsEquals, lookAhead, bind, ret. f_equal.
    rewrite bool_decide_eq_true_2 by (by eapply lookup_lt_Some).
    rewrite Ht'. by apply bool_decide_eq_true. }
  cbv beta iota. unfold parseAssignment.
  erewrite bind_ok; [done|].
  erewrite bind_ok; cycle 1.
  { rewrite advance_eq, Ht. by rewrite bool_decide_eq_false_2 by (by rewrite Hty). }
  cbn [defined]. erewrite bind_ok by done.
  erewrite bind_ok; cycle 1.
  { rewrite advance_eq. cbn [stepped current].
    replace (S (current p)) with (current p + 1) by lia. rewrite Ht'.
    by rewrite bool_decide_eq_false_2 by (by rewrite Hty'). }
  by rewrite (bind_ok _ _ _ _ _ Heq).
Qed.

(** One statement and then the end of the input. *)
Lemma parseLoop_one fuel loopFuel p t stmt p' eofTok :
  tokens !! current p = Some t → type t ≠ EOF →
  parseStatement tokens fuel p = Ok (Some stmt) p' →
  tokens !! current p' = Some eofTok → type eofTok = EOF →
  2 ≤ loopFuel →
  parseLoop tokens fuel loopFuel [] p
  = Returns (ParseResult.mk [stmt] (errors p')).
Proof.
  intros Ht Hty Hstmt Hlast Heof Hfuel.
  destruct loopFuel as [|[|loopFuel]]; [lia..|].
  cbn [parseLoop]. rewrite isAtEnd_eq, Ht.
  rewrite bool_decide_eq_false_2 by done. rewrite Hstmt.
  rewrite isAtEnd_eq, Hlast. by rewrite bool_decide_eq_true_2.
Qed.

End ParserStatement.

Section RoundTrip.
Context `{JsNumberText}.
Import Parser.

Ltac decided := apply (bool_decide_unpack _); vm_compute; exact I.

(** The first token of an expression. *)
Lemma tokensAt_first line column node :
  printable node →
  ∃ t rest, tokensAt line column node = t :: rest
            ∧ (type t ∉ [EOF; ERROR])
            ∧ (type t = IDENTIFIER → rest = []).
Proof.
  destruct node as [name value pos|op l r pos rt|op operand pos rt
                   |value dt pos rt|name pos rt];
    intros Hnode; cbn [tokensAt]; [done|eexists _, _; split; [done|]..].
  - split; [simpl; decided|done].
  - destruct Hnode as [Hop _]. set_unfold in Hop.
    destruct Hop as [->|[->|[]]]; (split; [simpl; decided|done]).
  - destruct dt; (split; [simpl; decided|done]).
  - split; [simpl; decided|done].
Qed.

Lemma parseExpression_printed tokens node line column eofTok p n :
  printable node →
  drop (current p) tokens = tokensAt line column node ++ [eofTok] →
  type eofTok = EOF →
  8 * length (tokensAt line column node) + 6 ≤ n →
  parsedTo (parseExpression tokens n p) (relocate line column node) p
    (length (tokensAt line column node)).
Proof.
  intros Hnode Hdrop Heof Hn.
  apply (expression_passes tokens p _ _
           (8 * length (tokensAt line column node)) eofTok); [| | |done].
  - intros n1 Hn1. by eapply parse_printed.
  - by apply (lookup_in_drop tokens (current p) (tokensAt line column node)
                eofTok []).
  - rewrite Heof. decided.
Qed.

Lemma parse_statement node line column eofTok :
  printableStatement node → type eofTok = EOF →
  parse (tokensAt line column node ++ [eofTok])
  = Returns (ParseResult.mk [relocate line column node] []).
Proof.
  intros Hnode Heof. unfold parse.
  set (tokens := tokensAt line column node ++ [eofTok]).
  assert (8 * length (tokensAt line column node) + 16 = parseFuel tokens)
    as Hfuel.
  { unfold parseFuel, tokens. rewrite length_app. simpl. lia. }
  set (p := mkParser 0 []).
  assert (∃ t p', tokens !! current p = Some t ∧ type t ≠ EOF
            ∧ parseStatement tokens (parseFuel tokens) p
              = Ok (Some (relocate line column node)) p'
            ∧ current p' = length (tokensAt line column node)
            ∧ errors p' = [])
    as (t & p' & Ht & Hty & Hstmt & Hcur & Herr).
  { assert (printable node →
            ∃ t p', tokens !! current p = Some t ∧ type t ≠ EOF
              ∧ parseStatement tokens (parseFuel tokens) p
                = Ok (Some (relocate line column node)) p'
              ∧ current p' = length (tokensAt line column node)
              ∧ errors p' = []) as Hexpression.
    { intros Hprintable.
      destruct (tokensAt_first line column node Hprintable)
        as (t & rest & Hfirst & Hty & Hrest).
      assert (tokens !! current p = Some t) as Ht
        by (by unfold tokens; rewrite Hfirst).
      destruct (parseStatement_expression tokens p t
                  (relocate line column node)
                  (length (tokensAt line column node)) (parseFuel tokens))
        as (p' & Hstmt & Hcur & Herr); [done|done| | |lia|].
      - intros Hid. exists eofTok. unfold tokens.
        rewrite Hfirst, (Hrest Hid). split; [done|by rewrite Heof].
      - apply (parseExpression_printed tokens _ line column eofTok);
          [done..|lia].
      - exists t, p'. split_and!; [done|set_solver|done..]. }
    destruct node as [name value pos|op l r pos rt|op operand pos rt
                     |value dt pos rt|name pos rt];
      try (by apply Hexpression).
    clear Hexpression.
    destruct Hnode as [Hname Hvalue]. cbn [tokensAt relocate] in *.
    set (nameTok := mkToken IDENTIFIER name (mkPosition line column) None)
      in *.
    set (equalsTok := mkToken EQUALS "="
                        (mkPosition line (column + String.length name + 1))
                        None) in *.
    set (tv := tokensAt line (column + String.length name + 1 + 1 + 1) value)
      in *.
    destruct (parseStatement_assignment tokens p nameTok equalsTok
                (relocate line (column + String.length name + 1 + 1 + 1) value)
                (length tv) (parseFuel tokens))
      as (p' & Hstmt & Hcur & Herr); [done..| |lia|].
    - apply (parseExpression_printed tokens _ line _ eofTok); [done..|].
      cbn [length] in Hfuel. fold tv. lia.
    - exists nameTok, p'.
      split_and!; [done..|simpl in *; lia|done]. }
  rewrite (parseLoop_one tokens (parseFuel tokens) (parseFuel tokens) p t
             (relocate line column node) p' eofTok);
    [by rewrite Herr|done..| |done|lia].
  rewrite Hcur. unfold tokens.
  by rewrite lookup_app_r, Nat.sub_diag by lia.
Qed.

(** X18. Printing a statement and compiling the text gives the statement
    back (the round trip of the parser tests, [parse(tokenize(printAST(ast)))]):
    for an expression, or the assignment of one to an identifier, whose
    operators are the five of the language, whose signs are [-] or [+],
    whose names are identifiers and whose literals print as numbers of their
    type that [parseFloat] reads back, [tokenize] returns for the printed
    text, [parse] returns one statement and no error, and the statement is
    the printed one with the positions of its text from line 1, column 1 and
    without resolved types. *)
Theorem print_parse_round_trip node :
  printableStatement node →
  Parser.parse <$> Lexer.tokenize (PrettyPrint.printAST node)
  = Some (Parser.Returns (ParseResult.mk [relocate 1 1 node] []))
  ∧ shape (relocate 1 1 node) = shape node.
Proof.
  intros Hnode. split; [|apply shape_relocate].
  destruct (tokenize_printed node Hnode) as (eofTok & -> & Heof).
  cbn [fmap option_fmap option_map]. f_equal.
  by apply parse_statement.
Qed.

End RoundTrip.

Lemma print_parse_round_trip_witness :
  let node :=
    AssignmentNode (H := decimalNumber) "x_1"
      (BinaryExprNode "^"
         (UnaryExprNode "-"
            (BinaryExprNode "*" (LiteralNode (3 # 2)%Q Float (mkPosition 0 0) None)
               (VariableNode "y" (mkPosition 0 0) None) (mkPosition 0 0) None)
            (mkPosition 0 0) None)
         (LiteralNode (2 # 1)%Q Integer (mkPosition 0 0) None)
         (mkPosition 0 0) None)
      (mkPosition 0 0) in
  printableStatement node
  ∧ Parser.parse <$> Lexer.tokenize (PrettyPrint.printAST node)
    = Some (Parser.Returns (ParseResult.mk [relocate 1 1 node] []))
  ∧ shape (relocate 1 1 node) = shape node.
Proof.
  intros node.
  assert (printableStatement node) as Hnode.
  { unfold node. cbn [printableStatement printable]. split_and!;
      first [apply (bool_decide_unpack _); vm_compute; exact I
            |vm_compute; reflexivity]. }
  split; [exact Hnode|].
  apply (print_parse_round_trip node Hnode).
Defined.

(** *** The lexer takes the longest match *)

Section LexerLongestMatch.
Context `{JsNumber}.
Variable source : string.
Import Lexer.

Ltac sizes :=
  cbn [Lexer.current Lexer.advance advanceBy Lexer.beginToken snd
       String.length] in *;
  repeat (rewrite string_length_app in *; cbn [String.length] in * );
  cbn [Lexer.current Lexer.advance advanceBy Lexer.beginToken snd
       String.length] in *;
  try lia.

Lemma numberToken_number (whole rest : string) :
  (numberToken whole rest).1 ∈ [INTEGER; FLOAT].
Proof.
  unfold numberToken. destruct rest as [|dot rest]; [set_solver|].
  destruct dot as [[] [] [] [] [] [] [] []];
    try (cbn [fst]; apply list_elem_of_here).
  destruct (digitRun rest); set_solver.
Qed.

(** One round of the lexer takes the first token of the text behind the
    cursor, or skips a character. *)
Lemma scanToken_first (pre rest : string) c lx :
  source = pre +:+ String c rest → current lx = String.length pre →
  scanToken source (beginToken lx)
  = Some match firstToken c rest with
         | Some (ty, lexeme) =>
             afterToken lx (mkToken ty lexeme
                              (mkPosition (line lx) (column lx))
                              (literalOf ty lexeme))
         | None =>
             let lx1 := (advance source (beginToken lx)).2 in
             if Ascii.eqb c "010" then newline lx1 else lx1
         end.
Proof.
  intros Hsrc Hcur.
  assert (String.get (current (beginToken lx)) source = Some c) as Hget.
  { cbn [beginToken current]. by rewrite Hsrc, Hcur, get_at. }
  assert (jsSubstring source (current lx) (current lx + 1) = String c "")
    as Hsub.
  { rewrite Hcur, Hsrc. apply (jsSubstring_app_mid pre (String c "") rest). }
  assert (∀ ty, addToken source ty None (advance source (beginToken lx)).2
                = afterToken lx (mkToken ty (String c "")
                                   (mkPosition (line lx) (column lx)) None))
    as Hone.
  { intros ty. rewrite (addToken_afterToken source lx _ ty None (String c ""));
      simpl; try done; lia. }
  unfold firstToken.
  destruct (symbolType c) as [ty|] eqn:Hsymbol.
  { rewrite (scanToken_at _ _ c Hget), Hsymbol. cbn zeta. rewrite Hone.
    do 3 f_equal. destruct ty; try done;
      by destruct c as [[] [] [] [] [] [] [] []]. }
  destruct (isSkipped c) eqn:Hskip.
  { by rewrite (scanToken_at _ _ c Hget), Hsymbol, Hskip. }
  destruct (isDigit c) eqn:Hdigit.
  { rewrite (number_rule_general source pre (String c (digitRun rest))
               (afterDigits rest) lx).
    - pose proof (numberToken_number (String c (digitRun rest))
                    (afterDigits rest)) as Hty.
      destruct (numberToken _ _) as [ty lexeme]. cbn [fst snd] in *.
      unfold afterNumber, afterToken. cbn [Types.lexeme].
      set_unfold in Hty. by destruct Hty as [->|[->|[]]].
    - rewrite Hsrc. simpl. by rewrite <- digitRun_split.
    - done.
    - done.
    - simpl. by rewrite Hdigit, digitRun_allDigits.
    - apply digitRun_afterDigits. }
  destruct (isAlpha c) eqn:Halpha.
  { by rewrite (identifier_rule_general source pre rest c lx Hsrc Hcur Halpha). }
  rewrite (scanToken_at _ _ c Hget), Hsymbol, Hskip, Hdigit, Halpha. cbn zeta.
  unfold addErrorToken.
  specialize (Hone ERROR). unfold addToken in Hone. by rewrite Hone.
Qed.

(** The lexeme of the first token is the start of the text, and is not
    empty. *)
Lemma firstToken_split c (rest : string) ty lexeme :
  firstToken c rest = Some (ty, lexeme) →
  lexemeFits ty lexeme = true
  ∧ ∃ rest', String c rest = lexeme +:+ rest'
             ∧ String.length rest' ≤ String.length rest.
Proof.
  unfold firstToken. intros Hfirst.
  destruct (symbolType c) as [ty'|] eqn:Hsymbol.
  { injection Hfirst as <- <-. split; [|by exists rest].
    destruct ty'; try (by apply bool_decide_eq_true);
      by destruct c as [[] [] [] [] [] [] [] []]. }
  destruct (isSkipped c) eqn:Hskip; [done|].
  destruct (isDigit c) eqn:Hdigit.
  { set (whole := String c (digitRun rest)) in *.
    assert (allChars isDigit whole = true) as Hwhole.
    { unfold whole. simpl.
      by rewrite Hdigit, allChars_digits, digitRun_allDigits. }
    assert (String c rest = whole +:+ afterDigits rest) as Hint.
    { unfold whole. simpl. by rewrite <- digitRun_split. }
    assert (lexemeFits INTEGER whole = true) as Hfits
      by (by cbn [lexemeFits]; rewrite Hwhole).
    pose proof (f_equal String.length Hint) as Hlen.
    rewrite string_length_app in Hlen. unfold whole in Hlen.
    cbn [String.length] in Hlen. clearbody whole.
    unfold numberToken in Hfirst.
    destruct (afterDigits rest) as [|dot rest1] eqn:Hafter.
    { injection Hfirst as <- <-. split; [done|]. exists "". split; [done|].
      simpl. lia. }
    destruct (Ascii.eqb_spec dot "."%char) as [->|Hdot]; cycle 1.
    { assert (ty = INTEGER ∧ lexeme = whole) as [-> ->].
      { destruct dot as [[] [] [] [] [] [] [] []];
          first [congruence|by injection Hfirst as <- <-]. }
      split; [done|]. exists (String dot rest1). split; [done|]. lia. }
    destruct (digitRun rest1) as [|d fraction] eqn:Hfraction.
    { injection Hfirst as <- <-. split; [done|].
      exists (String "."%char rest1). split; [done|]. lia. }
    injection Hfirst as <- <-. split.
    - assert (allChars isDigit (String d fraction) = true) as Hfr.
      { rewrite <- Hfraction, allChars_digits. apply digitRun_allDigits. }
      destruct whole as [|c0 whole0]; [done|]. cbn [lexemeFits].
      rewrite (run_app _ _ _ Hwhole), (afterRun_all _ _ _ Hwhole).
      simpl in *. by rewrite Hfr.
    - exists (afterDigits rest1). split.
      + rewrite Hint.
        transitivity (whole +:+ String "."%char
                                  (digitRun rest1 +:+ afterDigits rest1));
          [by rewrite <- digitRun_split|].
        by rewrite Hfraction, !app_assoc'.
      + pose proof (f_equal String.length (digitRun_split rest1)) as Hlen1.
        rewrite string_length_app in Hlen1. cbn [String.length] in Hlen. lia. }
  destruct (isAlpha c) eqn:Halpha.
  { injection Hfirst as <- <-. split.
    - simpl. by rewrite Halpha, run_allChars.
    - exists (afterRun isAlphaNumeric rest). split.
      + simpl. by rewrite <- run_split.
      + pose proof (f_equal String.length (run_split isAlphaNumeric rest))
          as Hlen.
        rewrite string_length_app in Hlen. lia. }
  injection Hfirst as <- <-. split; [|by exists rest].
  simpl. unfold isUnexpected. by rewrite Hsymbol, Hskip, Hdigit, Halpha.
Qed.

Lemma firstToken_skipped c (rest : string) :
  firstToken c rest = None ↔ isSkipped c = true.
Proof.
  unfold firstToken. split.
  - destruct (symbolType c); [done|]. destruct (isSkipped c); [done|].
    by destruct (isDigit c), (isAlpha c).
  - intros Hskip. rewrite Hskip.
    by destruct c as [[] [] [] [] [] [] [] []].
Qed.

(** The main loop reads the rest of the source as [lexed] says. *)
Lemma scanLoop_lexed fuel : ∀ (rest pre : string) lx,
  source = pre +:+ rest → current lx = String.length pre →
  String.length rest < fuel →
  ∃ lx' body, scanLoop source fuel lx = Some lx'
              ∧ tokens lx' = tokens lx ++ body
              ∧ lexed (line lx) (column lx) rest body.
Proof.
  induction fuel as [|fuel IH]; intros rest pre lx Hsrc Hcur Hfuel; [lia|].
  cbn [scanLoop]. unfold isAtEnd. rewrite Hcur.
  destruct rest as [|c rest].
  - rewrite append_nil_r in Hsrc. subst pre.
    rewrite bool_decide_eq_true_2 by done. exists lx, [].
    split_and!; [done|by rewrite app_nil_r|constructor].
  - rewrite bool_decide_eq_false_2 by (rewrite Hsrc; sizes).
    rewrite (scanToken_first pre rest c lx Hsrc Hcur).
    cbn [mbind option_bind].
    destruct (firstToken c rest) as [[ty lexeme]|] eqn:Hfirst.
    + destruct (firstToken_split c rest ty lexeme Hfirst)
        as (_ & rest' & Hsplit & Hlen).
      destruct (IH rest' (pre +:+ lexeme)
                  (afterToken lx (mkToken ty lexeme
                                    (mkPosition (line lx) (column lx))
                                    (literalOf ty lexeme))))
        as (lx' & body & -> & Htokens & Hlexed).
      * by rewrite Hsrc, Hsplit, app_assoc'.
      * unfold afterToken. cbn [current Types.lexeme]. sizes.
      * simpl in Hfuel. lia.
      * eexists lx', (_ :: body). split; [done|]. split.
        -- rewrite Htokens. unfold afterToken. cbn [tokens].
           by rewrite <- app_assoc.
        -- by eapply lexed_token.
    + apply firstToken_skipped in Hfirst.
      set (lx1 := if Ascii.eqb c "010"
                  then newline (advance source (beginToken lx)).2
                  else (advance source (beginToken lx)).2).
      destruct (IH rest (pre +:+ String c "") lx1)
        as (lx' & body & -> & Htokens & Hlexed).
      * by rewrite Hsrc, app_cons_shift.
      * unfold lx1, newline. rewrite string_length_app.
        destruct (Ascii.eqb c "010"); simpl; lia.
      * simpl in Hfuel. lia.
      * exists lx', body. split; [done|]. split.
        -- rewrite Htokens. unfold lx1. by destruct (Ascii.eqb c "010").
        -- apply lexed_skip; [done|]. unfold lx1 in Hlexed.
           by destruct (Ascii.eqb c "010").
Qed.

End LexerLongestMatch.

Lemma tokenize_lexed `{JsNumber} (source : string) :
  ∃ body,
    Lexer.tokenize source
    = Some (body ++ [mkToken EOF "" (positionAfter source) None])
    ∧ lexed 1 1 source body.
Proof.
  destruct (tokenize_covers source) as (body & Htokenize & _).
  exists body. split; [done|].
  destruct (scanLoop_lexed source (Lexer.scanFuel source) source ""
              Lexer.initial) as (lx & body' & Hloop & Htokens & Hlexed);
    [done|done|unfold Lexer.scanFuel; lia|].
  unfold Lexer.tokenize in Htokenize. rewrite Hloop in Htokenize.
  cbn [mbind option_bind] in Htokenize. injection Htokenize as Heq.
  apply app_inj_tail in Heq as [Heq _]. by rewrite <- Heq, Htokens.
Qed.

(** *** White space and the order of the tokens *)

Section LexedFacts.
Context `{JsNumber}.

Lemma append_cancel (s r1 r2 : string) : s +:+ r1 = s +:+ r2 → r1 = r2.
Proof. induction s as [|c s IH]; simpl; [done|]. intros [=]. by apply IH. Qed.

(** [lexed] has one result. *)
Lemma lexed_unique line column (text : string) body :
  lexed line column text body →
  ∀ body0, lexed line column text body0 → body = body0.
Proof.
  induction 1 as [line column|line column c rest body Hskip _ IH
                 |line column c rest ty lexeme rest' body Hfirst Hsplit _ IH];
    intros body0 Hlexed;
    inversion Hlexed
      as [|? ? ? ? ? Hskip0 Hlexed0
          |? ? ? ? ty0 lexeme0 rest0 ? Hfirst0 Hsplit0 Hlexed0]; subst.
  - done.
  - by apply IH.
  - apply (firstToken_skipped c rest) in Hskip. congruence.
  - apply (firstToken_skipped c rest) in Hskip0. congruence.
  - rewrite Hfirst in Hfirst0. injection Hfirst0 as <- <-.
    rewrite Hsplit in Hsplit0. apply append_cancel in Hsplit0 as <-.
    f_equal. by apply IH.
Qed.

(** Tokens do not depend on where the text starts, but for their
    positions. *)
Lemma lexed_anywhere line column (text : string) body :
  lexed line column text body →
  ∀ line' column', ∃ body', lexed line' column' text body'
                            ∧ unplaced <$> body' = unplaced <$> body.
Proof.
  induction 1 as [line column|line column c rest body Hskip _ IH
                 |line column c rest ty lexeme rest' body Hfirst Hsplit _ IH];
    intros line' column'.
  - exists []. split; [constructor|done].
  - destruct (IH (if Ascii.eqb c "010" then S line' else line')
                (if Ascii.eqb c "010" then 1 else S column'))
      as (body' & Hlexed & Hsame).
    exists body'. split; [by apply lexed_skip|done].
  - destruct (IH line' (column' + String.length lexeme))
      as (body' & Hlexed & Hsame).
    eexists (_ :: body'). split; [by eapply lexed_token|].
    cbn [fmap list_fmap]. by rewrite Hsame.
Qed.

Lemma digitRun_stop (s more : string) w :
  Lexer.isDigit w = false → digitRun (s +:+ String w more) = digitRun s.
Proof.
  intros Hw. induction s as [|c s IH]; simpl; [by rewrite Hw|].
  by rewrite IH.
Qed.

Lemma afterDigits_stop (s more : string) w :
  Lexer.isDigit w = false →
  afterDigits (s +:+ String w more) = afterDigits s +:+ String w more.
Proof.
  intros Hw. induction s as [|c s IH]; simpl; [by rewrite Hw|].
  by destruct (Lexer.isDigit c).
Qed.

Lemma run_stop p (s more : string) w :
  p w = false → run p (s +:+ String w more) = run p s.
Proof.
  intros Hw. induction s as [|c s IH]; simpl; [by rewrite Hw|].
  by rewrite IH.
Qed.

Lemma isSkipped_stops w :
  isSkipped w = true →
  Lexer.isDigit w = false ∧ Lexer.isAlphaNumeric w = false
  ∧ Ascii.eqb w "." = false.
Proof. by destruct w as [[] [] [] [] [] [] [] []]. Qed.

Lemma numberToken_stop (whole rest more : string) w :
  isSkipped w = true →
  numberToken whole (rest +:+ String w more) = numberToken whole rest.
Proof.
  intros Hw. destruct (isSkipped_stops w Hw) as (Hdigit & _ & Hdot).
  unfold numberToken. destruct rest as [|dot rest]; simpl.
  - by destruct w as [[] [] [] [] [] [] [] []].
  - by rewrite digitRun_stop.
Qed.

(** The first token of a text does not depend on what follows white
    space. *)
Lemma firstToken_stop c (rest more : string) w :
  isSkipped w = true →
  firstToken c (rest +:+ String w more) = firstToken c rest.
Proof.
  intros Hw. destruct (isSkipped_stops w Hw) as (Hdigit & Halnum & _).
  unfold firstToken.
  by rewrite digitRun_stop, afterDigits_stop, numberToken_stop, run_stop.
Qed.

(** The tokens of two texts joined by white space are those of the first
    text and then those of the second. *)
Lemma lexed_join line column (text1 : string) body1 :
  lexed line column text1 body1 →
  ∀ w (text2 : string) body2,
    isSkipped w = true → lexed 1 1 text2 body2 →
    ∃ body, lexed line column (text1 +:+ String w text2) body
            ∧ unplaced <$> body = unplaced <$> (body1 ++ body2).
Proof.
  induction 1 as [line column|line column c rest body Hskip _ IH
                 |line column c rest ty lexeme rest' body Hfirst Hsplit _ IH];
    intros w text2 body2 Hw Hlexed2.
  - destruct (lexed_anywhere _ _ _ _ Hlexed2
                (if Ascii.eqb w "010" then S line else line)
                (if Ascii.eqb w "010" then 1 else S column))
      as (body' & Hlexed & Hsame).
    exists body'. split; [by apply lexed_skip|done].
  - destruct (IH w text2 body2 Hw Hlexed2) as (body' & Hlexed & Hsame).
    exists body'. split; [by apply lexed_skip|done].
  - destruct (IH w text2 body2 Hw Hlexed2) as (body' & Hlexed & Hsame).
    eexists (_ :: body'). split.
    + apply (lexed_token _ _ c _ ty lexeme (rest' +:+ String w text2));
        [by rewrite firstToken_stop| |done].
      by rewrite <- app_assoc', <- Hsplit.
    + cbn [fmap list_fmap app]. by rewrite Hsame.
Qed.

(** More white space before a text. *)
Lemma lexed_skips (space : string) :
  allChars isSkipped space = true →
  ∀ line column (text : string) body,
    lexed 1 1 text body →
    ∃ body', lexed line column (space +:+ text) body'
             ∧ unplaced <$> body' = unplaced <$> body.
Proof.
  induction space as [|c space IH]; intros Hspace line column text body Hlexed.
  - by apply (lexed_anywhere 1 1).
  - simpl in Hspace. apply andb_prop in Hspace as [Hc Hspace].
    destruct (IH Hspace (if Ascii.eqb c "010" then S line else line)
                (if Ascii.eqb c "010" then 1 else S column) text body Hlexed)
      as (body' & Hlexed' & Hsame).
    exists body'. split; [by apply lexed_skip|done].
Qed.

Lemma positionFrom_notBefore (text : string) : ∀ line column,
  notBefore (mkPosition line column) (positionFrom line column text).
Proof.
  induction text as [|c text IH]; intros line column; simpl.
  - right. simpl. lia.
  - destruct (Ascii.eqb c "010").
    + specialize (IH (S line) 1). unfold notBefore in *. simpl in *. lia.
    + specialize (IH line (S column)). unfold notBefore in *. simpl in *. lia.
Qed.

(** Positions: every token is at or behind the start of the text, before
    the tokens that follow it and before the end of the text. *)
Lemma lexed_ordered line column (text : string) body :
  lexed line column text body →
  Forall (λ t, notBefore (mkPosition line column) (position t)
               ∧ before (position t) (positionFrom line column text)) body
  ∧ ∀ i j ti tj, body !! i = Some ti → body !! j = Some tj → i < j →
                 before (position ti) (position tj).
Proof.
  induction 1 as [line column|line column c rest body Hskip _ IH
                 |line column c rest ty lexeme rest' body Hfirst Hsplit _ IH].
  - split; [done|]. intros i j ti tj Hi. by rewrite lookup_nil in Hi.
  - destruct IH as [IH Hsorted]. split; [|done].
    eapply Forall_impl; [exact IH|]. intros t [Hfrom Hto]. simpl.
    split; [|by destruct (Ascii.eqb c "010")].
    unfold notBefore in *.
    destruct (Ascii.eqb c "010"); simpl in *; lia.
  - destruct IH as [IH Hsorted].
    destruct (firstToken_split c rest ty lexeme Hfirst) as (Hfits & _).
    assert (1 ≤ String.length lexeme) as Hlen.
    { destruct lexeme; [by destruct ty|simpl; lia]. }
    assert (positionFrom line column (String c rest)
            = positionFrom line (column + String.length lexeme) rest')
      as Hend.
    { rewrite Hsplit, positionFrom_app.
      by rewrite (positionFrom_line _ _ _ (lexemeFits_line ty lexeme Hfits)). }
    rewrite Hend.
    pose proof (positionFrom_notBefore rest' line
                  (column + String.length lexeme)) as Hrest.
    split.
    + constructor.
      * split; [right; simpl; lia|].
        unfold before, notBefore in *. simpl in *. lia.
      * eapply Forall_impl; [exact IH|]. intros t [Hfrom Hto].
        split; [|done]. unfold notBefore in *. simpl in *. lia.
    + intros [|i] [|j] ti tj Hi Hj Hij; try lia.
      * injection Hi as <-. simpl in Hj.
        apply (Forall_lookup_1 _ _ _ _ IH) in Hj as [Hfrom _].
        unfold before, notBefore in *. simpl in *. lia.
      * simpl in Hi, Hj. apply (Hsorted i j); [done..|lia].
Qed.

(** Columns are counted from 1 on. *)
Lemma positionFrom_column (text : string) : ∀ line column,
  1 ≤ column → 1 ≤ Types.column (positionFrom line column text).
Proof.
  induction text as [|c text IH]; intros line column Hcolumn; simpl; [done|].
  destruct (Ascii.eqb c "010"); apply IH; lia.
Qed.

Lemma lexed_columns line column (text : string) body :
  lexed line column text body → 1 ≤ column →
  Forall (λ t, 1 ≤ Types.column (position t)) body.
Proof.
  induction 1 as [line column|line column c rest body Hskip _ IH
                 |line column c rest ty lexeme rest' body Hfirst Hsplit _ IH];
    intros Hcolumn.
  - done.
  - apply IH. destruct (Ascii.eqb c "010"); lia.
  - constructor; [done|]. apply IH. lia.
Qed.

End LexedFacts.

(** X19. The lexer takes the longest match: the tokens before [EOF] are those
    of reading the text from its first character on, where a skipped
    character starts no token, a symbol is a token by itself, a digit starts
    the longest number (digits, and a dot with the digits behind it when
    there is at least one), a letter or an underscore starts the longest
    identifier and any other character is an [ERROR] token; the next token
    is looked for behind the lexeme, the position of a token is the line and
    column of its first character and its literal is the value of a
    number.  Reading a text this way has one result only. *)
Theorem tokenize_longest_match `{JsNumber} (source : string) :
  ∃ body,
    Lexer.tokenize source
    = Some (body ++ [mkToken EOF "" (positionAfter source) None])
    ∧ lexed 1 1 source body
    ∧ ∀ body', lexed 1 1 source body' → body' = body.
Proof.
  destruct (tokenize_lexed source) as (body & Htokens & Hlexed).
  exists body. split_and!; [done..|].
  intros body' Hlexed'. symmetry. by eapply lexed_unique.
Qed.

(** X20. White space separates: the tokens of two texts joined by a skipped
    character are, up to positions, the tokens of the first text followed by
    those of the second (with one [EOF]). *)
Theorem white_space_separates `{JsNumber} (text1 text2 : string) (w : ascii) :
  isSkipped w = true →
  ∃ body1 body2 body end1 end2 end',
    Lexer.tokenize text1 = Some (body1 ++ [end1])
    ∧ Lexer.tokenize text2 = Some (body2 ++ [end2])
    ∧ Lexer.tokenize (text1 +:+ String w text2) = Some (body ++ [end'])
    ∧ type end1 = EOF ∧ type end2 = EOF ∧ type end' = EOF
    ∧ unplaced <$> body = unplaced <$> (body1 ++ body2).
Proof.
  intros Hw.
  destruct (tokenize_lexed text1) as (body1 & Htokens1 & Hlexed1).
  destruct (tokenize_lexed text2) as (body2 & Htokens2 & Hlexed2).
  destruct (tokenize_lexed (text1 +:+ String w text2))
    as (body & Htokens & Hlexed).
  destruct (lexed_join _ _ _ _ Hlexed1 w text2 body2 Hw Hlexed2)
    as (body' & Hlexed' & Hsame).
  rewrite (lexed_unique _ _ _ _ Hlexed body' Hlexed') in Htokens.
  by eexists body1, body2, body', _, _, _.
Qed.

Lemma white_space_separates_witness :
  ∃ body1 body2 body end1 end2 end',
    Lexer.tokenize (H := decimalNumber) "x=1" = Some (body1 ++ [end1])
    ∧ Lexer.tokenize "y2 + 0.5" = Some (body2 ++ [end2])
    ∧ Lexer.tokenize ("x=1" +:+ String "010" "y2 + 0.5")
      = Some (body ++ [end'])
    ∧ type end1 = EOF ∧ type end2 = EOF ∧ type end' = EOF
    ∧ unplaced <$> body = unplaced <$> (body1 ++ body2).
Proof. by apply (white_space_separates (H := decimalNumber)). Defined.

(** X21. White space is transparent: more skipped characters next to a
    skipped character change the positions of the tokens only, not their
    number, types, lexemes and literals. *)
Theorem white_space_transparent `{JsNumber} (text1 text2 space : string)
    (w : ascii) :
  isSkipped w = true → allChars isSkipped space = true →
  content <$> Lexer.tokenize (text1 +:+ String w (space +:+ text2))
  = content <$> Lexer.tokenize (text1 +:+ String w text2).
Proof.
  intros Hw Hspace.
  destruct (tokenize_lexed text1) as (body1 & _ & Hlexed1).
  destruct (tokenize_lexed text2) as (body2 & _ & Hlexed2).
  destruct (lexed_skips space Hspace 1 1 text2 body2 Hlexed2)
    as (body2' & Hlexed2' & Hsame2).
  destruct (tokenize_lexed (text1 +:+ String w text2))
    as (body & -> & Hlexed).
  destruct (tokenize_lexed (text1 +:+ String w (space +:+ text2)))
    as (body' & -> & Hlexed').
  destruct (lexed_join _ _ _ _ Hlexed1 w text2 body2 Hw Hlexed2)
    as (joined & Hjoined & Hsame).
  destruct (lexed_join _ _ _ _ Hlexed1 w (space +:+ text2) body2' Hw Hlexed2')
    as (joined' & Hjoined' & Hsame').
  rewrite (lexed_unique _ _ _ _ Hlexed joined Hjoined).
  rewrite (lexed_unique _ _ _ _ Hlexed' joined' Hjoined').
  cbn [fmap option_fmap option_map]. f_equal. unfold content.
  rewrite !fmap_app, Hsame, Hsame', !fmap_app, Hsame2. done.
Qed.

Lemma white_space_transparent_witness :
  content
    <$> Lexer.tokenize (H := decimalNumber)
          ("a1" +:+ String " " (String "009" (String "010" " ") +:+ "+ 2.5"))
  = content <$> Lexer.tokenize ("a1" +:+ String " " "+ 2.5").
Proof. by apply (white_space_transparent (H := decimalNumber)). Defined.

(** X22. Tokens are in the order of the text: every token [tokenize] returns
    is at a line and a column from 1 on, and is before every token that
    comes later in the list, on an earlier line or on the same line at a
    smaller column; [EOF] comes last. *)
Theorem token_positions_increase `{JsNumber} (source : string) :
  ∃ found,
    Lexer.tokenize source = Some found
    ∧ (∀ i t, found !! i = Some t →
              1 ≤ Types.line (position t) ∧ 1 ≤ Types.column (position t))
    ∧ (∀ i j ti tj, found !! i = Some ti → found !! j = Some tj → i < j →
                    before (position ti) (position tj)).
Proof.
  destruct (tokenize_lexed source) as (body & Htokens & Hlexed).
  destruct (lexed_ordered _ _ _ _ Hlexed) as [Hplaces Hsorted].
  pose proof (positionFrom_notBefore source 1 1) as Hend.
  eexists. split; [exact Htokens|]. split.
  - pose proof (lexed_columns _ _ _ _ Hlexed (le_n 1)) as Hcolumns.
    pose proof (positionFrom_column source 1 1 (le_n 1)) as Hcolumn.
    intros i t Ht. apply lookup_app_Some in Ht as [Ht|[_ Ht]].
    + pose proof (Forall_lookup_1 _ _ _ _ Hcolumns Ht) as Hc.
      apply (Forall_lookup_1 _ _ _ _ Hplaces) in Ht as [Hfrom _].
      unfold notBefore in Hfrom. simpl in *. lia.
    + apply list_lookup_singleton_Some in Ht as [_ <-].
      unfold notBefore, positionAfter in *. simpl in *. lia.
  - intros i j ti tj Hi Hj Hij.
    apply lookup_app_Some in Hi as [Hi|[Hlen Hi]]; cycle 1.
    { apply list_lookup_singleton_Some in Hi as [Hi _].
      apply lookup_lt_Some in Hj. rewrite length_app in Hj. simpl in Hj. lia. }
    apply lookup_app_Some in Hj as [Hj|[_ Hj]]; [by apply (Hsorted i j)|].
    apply list_lookup_singleton_Some in Hj as [_ <-].
    by apply (Forall_lookup_1 _ _ _ _ Hplaces) in Hi as [_ Hto].
Qed.
